(** * Distance-vector routing simulator: the convergence engine of [src/App.tsx]

    A shallow embedding of the routing part of the [Network] component:
    [handleSetupComplete], [updateRoutingTables], [handleWeightChange] and
    the form handlers of [NetworkSetup] that feed them, followed by the
    properties of the engine.

    Conventions of the embedding.
    - A JavaScript [number] holding an integer is a [Z]; the engine only adds
      and compares them.
    - [Record<string, entry>] is a [gmap string Entry].
    - The fields of [Node] and [Link] that only the renderer reads
      ([x], [y], [color], [isActive]) are left out; the engine never reads
      them.
    - A run that would throw a [TypeError] (a [find(...)!] that found
      nothing) or read [undefined] where the interface declares a number
      ends in [TypeError].
    - The component state is the record [Network.State]. A handler is a
      function of the state of the render it was created in: the arrays
      [nodes] and [links] that [updateRoutingTables] works on are those of
      that render, whatever has been queued since.
    - Delays and animations are left out. What a run sees of the pause
      button is the list of values it reads from [pauseRef.current] at the
      heads of its loops; a set flag is waited out in [delay]. *)

From Stdlib Require Import ZArith List Lia Bool String Ascii.
From stdpp Require Import gmap strings list fin_maps.

Local Open Scope Z_scope.
Set Warnings "-clear-no-such-hyp".

(** ** Data model *)

(** [const INFINITY = 999999]. *)
Definition INFINITY : Z := 999999.

(** One line of a routing table. ['-'] is the "no next hop" marker. *)
Record Entry := mkEntry {
  distance : Z;
  nextHop : string;
  isNew : bool;
  isProcessing : bool;
  calculated : bool
}.

Record Node := mkNode {
  id : string;
  routingTable : gmap string Entry
}.

Record Link := mkLink {
  from : string;
  to : string;
  weight : Z
}.

(** The entry written by [handleSetupComplete] and [restartSimulation]. *)
Definition baseline : Entry :=
  {| distance := INFINITY; nextHop := "-"; isNew := false;
     isProcessing := false; calculated := false |}.

(** ** Results of a run *)

(** A call either returns ([Done]), or leaves the typed program
    ([TypeError]), or is cut short by the fuel that bounds the [while] loop
    of the embedding ([OutOfFuel]; [converge_fuel] below shows that the
    engine never ends that way). *)
Inductive Outcome (A : Type) : Type :=
| Done (a : A)
| TypeError
| OutOfFuel.
Arguments Done {A} a.
Arguments TypeError {A}.
Arguments OutOfFuel {A}.

#[global] Instance Outcome_ret : MRet Outcome := fun _ a => Done a.
#[global] Instance Outcome_bind : MBind Outcome := fun _ _ f m =>
  match m with
  | Done a => f a
  | TypeError => TypeError
  | OutOfFuel => OutOfFuel
  end.

(** The use of a looked-up object: [undefined] makes the run throw. *)
Definition orThrow {A} (o : option A) : Outcome A :=
  match o with Some a => Done a | None => TypeError end.

(** [for (const x of xs) body], the body threading the state [s]. *)
Fixpoint forOf {A S} (xs : list A) (body : A -> S -> Outcome S) (s : S) : Outcome S :=
  match xs with
  | [] => Done s
  | x :: rest => s' ← body x s; forOf rest body s'
  end.

(** ** Setup: [NetworkSetup] and [handleSetupComplete] *)

(** [String.fromCharCode(65 + i)]. *)
Definition nodeName (i : nat) : string :=
  String (ascii_of_nat (65 + i)) EmptyString.

(** The node-count field: [Math.min(8, Math.max(2, parseInt(value)))]. The
    result of [parseInt] is an integer or [NaN] ([None]), which [Math.max]
    and [Math.min] hand on. *)
Definition clampNodeCount (v : option Z) : option Z :=
  (fun n => Z.min 8 (Z.max 2 n)) <$> v.

(** The weight fields: [parseInt(value) || INFINITY]; [None] is [NaN]. *)
Definition parseWeight (v : option Z) : Z :=
  match v with
  | Some n => if n =? 0 then INFINITY else n
  | None => INFINITY
  end.

(** [distances[i][j]] of the matrix handed over by the form, which is always
    [nodeCount] by [nodeCount] ([squareMatrix] below); the loops of
    [handleSetupComplete] read no cell outside such a matrix, and the value
    given here to the cells outside is never used for one. *)
Definition cell (distances : list (list Z)) (i j : nat) : Z :=
  nth j (nth i distances []) INFINITY.

Definition squareMatrix (n : nat) (distances : list (list Z)) : Prop :=
  length distances = n ∧ Forall (fun row => length row = n) distances.

(** [handleDistanceChange(from, to, value)]: both mirror cells are set. *)
Definition setCell (distances : list (list Z)) (i j : nat) (v : Z) : list (list Z) :=
  <[i := <[j := v]> (nth i distances [])]> distances.

Definition handleDistanceChange (distances : list (list Z)) (a b : nat) (value : Z)
  : list (list Z) :=
  setCell (setCell distances a b value) b a value.

(** The fresh matrix of [NetworkSetup]: every cell [INFINITY]. *)
Definition freshDistances (nodeCount : nat) : list (list Z) :=
  repeat (repeat INFINITY nodeCount) nodeCount.

(** The inner loop [for (let j = 0; j < i; j++)]. *)
Definition linksOfRow (distances : list (list Z)) (i : nat) : list Link :=
  flat_map (fun j =>
              if cell distances i j =? INFINITY then []
              else [ {| from := nodeName j; to := nodeName i;
                        weight := cell distances i j |} ])
           (seq 0 i).

(** The outer loop [for (let i = 0; i < nodeCount; i++)]. *)
Definition newLinks (nodeCount : nat) (distances : list (list Z)) : list Link :=
  flat_map (linksOfRow distances) (seq 0 nodeCount).

(** [Object.fromEntries(newNodes.filter(n => n.id !== node.id).map(...))]. *)
Definition baselineTable (ids : list string) (self : string) : gmap string Entry :=
  list_to_map (map (fun d => (d, baseline))
                   (filter (fun d => d ≠ self) ids)).

Definition nodeNames (nodeCount : nat) : list string :=
  map nodeName (seq 0 nodeCount).

Definition newNodesOf (nodeCount : nat) : list Node :=
  map (fun n => {| id := n; routingTable := baselineTable (nodeNames nodeCount) n |})
      (nodeNames nodeCount).

(** ** The engine: [updateRoutingTables] *)

(** [newNodes.find(n => n.id === i)]. *)
Definition findNode (nodes : list Node) (i : string) : option Node :=
  List.find (fun n => bool_decide (id n = i)) nodes.

(** [node.routingTable[d] = e] on the object that [find] returns: the first
    node carrying that id is the one mutated. *)
Fixpoint setEntry (nodes : list Node) (n d : string) (e : Entry) : list Node :=
  match nodes with
  | [] => []
  | x :: rest =>
      if bool_decide (id x = n)
      then {| id := id x; routingTable := <[d := e]> (routingTable x) |} :: rest
      else x :: setEntry rest n d e
  end.

(** The body of the initialisation loop for one link (lines 280-317);
    [None] when the guard [if (fromNode && toNode)] fails. *)
Definition initLink (link : Link) (nodes : list Node) : option (list Node) :=
  match findNode nodes (from link), findNode nodes (to link) with
  | Some fromNode, Some toNode =>
      let nodes1 :=
        setEntry nodes (id fromNode) (id toNode)
          {| distance := weight link; nextHop := id toNode; isNew := true;
             isProcessing := false; calculated := true |} in
      Some (setEntry nodes1 (id toNode) (id fromNode)
              {| distance := weight link; nextHop := id fromNode; isNew := true;
                 isProcessing := false; calculated := true |})
  | _, _ => None
  end.

(** [neighbor.routingTable[dest.id]?.distance || INFINITY]. *)
Definition distanceOr (rt : gmap string Entry) (dest : string) : Z :=
  match rt !! dest with
  | Some e => if distance e =? 0 then INFINITY else distance e
  | None => INFINITY
  end.

(** The variables [minDistance], [nextHop] and [hasChanges] that the scan of
    the links updates. *)
Record Best := mkBest {
  minDistance : Z;
  bestHop : string;
  changed : bool
}.

(** One iteration of [for (const link of links)] inside a relaxation step
    (lines 357-382). *)
Definition scanLink (nodes : list Node) (nodeId destId : string)
    (link : Link) (b : Best) : Outcome Best :=
  if bool_decide (from link = nodeId) || bool_decide (to link = nodeId) then
    let neighborId := if bool_decide (from link = nodeId) then to link else from link in
    neighbor ← orThrow (findNode nodes neighborId);
    let linkWeight := weight link in
    let distanceThroughNeighbor := linkWeight + distanceOr (routingTable neighbor) destId in
    if distanceThroughNeighbor <? minDistance b
    then Done {| minDistance := distanceThroughNeighbor; bestHop := neighborId;
                 changed := true |}
    else Done b
  else Done b.

(** The local state of one call of [updateRoutingTables]. [pauseRef] lists
    the values that the successive reads of [pauseRef.current] at the loop
    heads return (none left: not paused). [passLog] is a history variable:
    the value of [hasChanges] at the end of each pass executed so far.
    [stateLinks] is the React state [links], which [setLinks([...links])]
    overwrites with the array captured by the running closure. *)
Record Run := mkRun {
  newNodes : list Node;
  hasChanges : bool;
  pauseRef : list bool;
  passLog : list bool;
  stateLinks : list Link
}.

Definition withNodes (r : Run) (ns : list Node) : Run :=
  mkRun ns (hasChanges r) (pauseRef r) (passLog r) (stateLinks r).
Definition withChanges (r : Run) (c : bool) : Run :=
  mkRun (newNodes r) c (pauseRef r) (passLog r) (stateLinks r).
Definition withPauses (r : Run) (ps : list bool) : Run :=
  mkRun (newNodes r) (hasChanges r) ps (passLog r) (stateLinks r).
Definition withLog (r : Run) (log : list bool) : Run :=
  mkRun (newNodes r) (hasChanges r) (pauseRef r) log (stateLinks r).
Definition withLinks (r : Run) (ls : list Link) : Run :=
  mkRun (newNodes r) (hasChanges r) (pauseRef r) (passLog r) ls.

(** Reading [pauseRef.current] at a loop head. When it is set the engine
    waits in [delay] until it is cleared. *)
Definition readPause (r : Run) : bool * Run :=
  match pauseRef r with
  | [] => (false, r)
  | p :: rest => (p, withPauses r rest)
  end.

(** One relaxation step for the pair (node, dest), lines 341-396. A table
    without an entry for [dest] would make [oldDistance] [undefined]; the
    tables built by [handleSetupComplete] hold one for every other node. *)
Definition relaxStep (links : list Link) (nodeId destId : string) (r : Run)
  : Outcome Run :=
  currentNode ← orThrow (findNode (newNodes r) nodeId);
  cur ← orThrow (routingTable currentNode !! destId);
  let nodes1 :=
    setEntry (newNodes r) nodeId destId
      {| distance := distance cur; nextHop := nextHop cur; isNew := isNew cur;
         isProcessing := true; calculated := calculated cur |} in
  let oldDistance := distance cur in
  b ← forOf links (scanLink nodes1 nodeId destId)
        {| minDistance := oldDistance; bestHop := nextHop cur;
           changed := hasChanges r |};
  Done {| newNodes :=
            setEntry nodes1 nodeId destId
              {| distance := minDistance b; nextHop := bestHop b;
                 isNew := negb (minDistance b =? oldDistance);
                 isProcessing := false; calculated := true |};
          hasChanges := changed b;
          pauseRef := pauseRef r;
          passLog := passLog r;
          stateLinks := links |}.

(** The body of [for (const link of links)] of the initialisation phase
    (lines 273-318): a set pause flag is waited out, then [continue]. *)
Definition initStep (links : list Link) (link : Link) (r : Run) : Outcome Run :=
  let '(paused, r1) := readPause r in
  if paused then Done r1
  else match initLink link (newNodes r1) with
       | Some ns => Done (withLinks (withNodes r1 ns) links)
       | None => Done r1
       end.

(** The body of the two nested [for] loops of a pass (lines 335-396). *)
Definition pairStep (links : list Link) (nodeId destId : string) (r : Run)
  : Outcome Run :=
  let '(paused, r1) := readPause r in
  if paused then Done r1
  else if bool_decide (nodeId ≠ destId) then relaxStep links nodeId destId r1
  else Done r1.

Definition onePass (links : list Link) (ids : list string) (r : Run) : Outcome Run :=
  forOf ids (fun nodeId => forOf ids (fun destId => pairStep links nodeId destId)) r.

(** [while (hasChanges && pass <= maxPasses)] (lines 327-402). The result
    carries the final value of [pass]. *)
Fixpoint whileLoop (fuel : nat) (links : list Link) (ids : list string)
    (maxPasses pass : Z) (r : Run) : Outcome (Run * Z) :=
  match fuel with
  | O => OutOfFuel
  | S fuel' =>
      if hasChanges r && (pass <=? maxPasses) then
        r1 ← onePass links ids (withChanges r false);
        whileLoop fuel' links ids maxPasses (pass + 1)
          (withLog r1 (passLog r1 ++ [hasChanges r1]))
      else Done (r, pass)
  end.

(** The initialisation phase (lines 273-318) on the arrays [nodes] and
    [links] captured by the calling render. [shown] is the React state
    [links] when the call starts. *)
Definition initPhase (nodes : list Node) (links shown : list Link)
    (pauses : list bool) : Outcome Run :=
  forOf links (initStep links)
    {| newNodes := nodes; hasChanges := true; pauseRef := pauses;
       passLog := []; stateLinks := shown |}.

(** The engine: initialisation, then the relaxation passes with
    [maxPasses = nodes.length - 1], starting at [pass = 1]. *)
Definition converge (nodes : list Node) (links shown : list Link)
    (pauses : list bool) : Outcome (Run * Z) :=
  r0 ← initPhase nodes links shown pauses;
  whileLoop (S (length nodes)) links (map id nodes)
    (Z.of_nat (length nodes) - 1) 1 r0.

(** ** The component state and its handlers *)

Module Network.
Record State := mkState {
  isSetup : bool;
  nodes : list Node;
  links : list Link;
  selectedLink : option Link;
  editWeight : option Z;
  isProcessing : bool;
  isPaused : bool;
  currentPass : Z;
  currentNodeStatus : string
}.
End Network.
Abbreviation State := Network.State.

(** [useState] initial values of [Network]. *)
Definition initialState : State :=
  Network.mkState true [] [] None None false false 1 "".

(** [handleSetupComplete(nodeCount, distances)]: [setNodes(newNodes)],
    [setLinks(newLinks)], [setIsSetup(false)]. It has no failing path. *)
Definition handleSetupComplete (nodeCount : Z) (distances : list (list Z))
    (st : State) : State :=
  Network.mkState
    false
    (newNodesOf (Z.to_nat nodeCount))
    (newLinks (Z.to_nat nodeCount) distances)
    (Network.selectedLink st) (Network.editWeight st)
    (Network.isProcessing st) (Network.isPaused st)
    (Network.currentPass st) (Network.currentNodeStatus st).

(** [updateRoutingTables] as a closure of the render [render], called when
    the component state is [current]. It works on [render]'s [nodes] and
    [links], and every [setNodes([...newNodes])] and [setLinks([...links])]
    publishes those arrays. It ends with [setIsProcessing(false)],
    [setCurrentPass(0)] and the status ['Simulation complete']. *)
Definition updateRoutingTables (render current : State) (pauses : list bool)
  : Outcome State :=
  if Network.isProcessing render then Done current
  else
    '(r, _) ← converge (Network.nodes render) (Network.links render)
                       (Network.links current) pauses;
    Done (Network.mkState
            (Network.isSetup current)
            (newNodes r)
            (stateLinks r)
            (Network.selectedLink current) (Network.editWeight current)
            false
            (Network.isPaused current)
            0
            "Simulation complete").

(** The timer armed at the end of a run (lines 408-416). *)
Definition clearIsNew (v : Entry) : Entry :=
  {| distance := distance v; nextHop := nextHop v; isNew := false;
     isProcessing := isProcessing v; calculated := calculated v |}.

Definition mapTables (f : Entry -> Entry) (nodes : list Node) : list Node :=
  map (fun node => {| id := id node; routingTable := f <$> routingTable node |})
      nodes.

Definition afterComplete (st : State) : State :=
  Network.mkState
    (Network.isSetup st)
    (mapTables clearIsNew (Network.nodes st))
    (Network.links st)
    (Network.selectedLink st) (Network.editWeight st)
    (Network.isProcessing st) (Network.isPaused st)
    (Network.currentPass st) "".

(** [handleLinkClick(link)]. *)
Definition handleLinkClick (link : Link) (st : State) : State :=
  if negb (Network.isProcessing st) then
    Network.mkState
      (Network.isSetup st) (Network.nodes st) (Network.links st)
      (Some link) (Some (weight link))
      (Network.isProcessing st) (Network.isPaused st)
      (Network.currentPass st) (Network.currentNodeStatus st)
  else st.

(** The test of the [links.map] in [handleWeightChange]. *)
Definition sameLink (link sel : Link) : bool :=
  (bool_decide (from link = from sel) && bool_decide (to link = to sel))
  || (bool_decide (from link = to sel) && bool_decide (to link = from sel)).

(** What [handleWeightChange] does to each routing entry (lines 446-451):
    [{...v, calculated: false, isNew: false, isProcessing: false}]. *)
Definition clearFlags (v : Entry) : Entry :=
  {| distance := distance v; nextHop := nextHop v; isNew := false;
     isProcessing := false; calculated := false |}.

(** The tables queued by [restartSimulation] (lines 228-240): every entry
    goes back to the baseline. *)
Definition restartTables (nodes : list Node) : list Node :=
  mapTables (fun _ => baseline) nodes.

(** The state after the three updates queued by an accepted
    [handleWeightChange], before it calls [updateRoutingTables]. *)
Definition applyEdit (sel : Link) (newWeight : Z) (st : State) : State :=
  Network.mkState
    (Network.isSetup st)
    (mapTables clearFlags (Network.nodes st))
    (map (fun link =>
            if sameLink link sel
            then {| from := from link; to := to link; weight := newWeight |}
            else link)
         (Network.links st))
    (Network.selectedLink st)
    (Some newWeight)
    (Network.isProcessing st) (Network.isPaused st)
    (Network.currentPass st) (Network.currentNodeStatus st).

(** The guard of [handleWeightChange]:
    [selectedLink && editWeight !== null && !isProcessing]. *)
Definition editAccepted (st : State) : bool :=
  match Network.selectedLink st, Network.editWeight st with
  | Some _, Some _ => negb (Network.isProcessing st)
  | _, _ => false
  end.

(** [handleWeightChange(change)]. The call of [updateRoutingTables] at its
    end is the closure of the render in which the click happened. *)
Definition handleWeightChange (change : Z) (st : State) (pauses : list bool)
  : Outcome State :=
  match Network.selectedLink st, Network.editWeight st with
  | Some sel, Some ew =>
      if negb (Network.isProcessing st) then
        let newWeight := Z.max 1 (ew + change) in
        updateRoutingTables st (applyEdit sel newWeight st) pauses
      else Done st
  | _, _ => Done st
  end.

(** [k] clicks on the "+" of the selected link, each one after the run
    started by the previous click has finished and its timer has fired. *)
Fixpoint pressPlus (k : nat) (st : State) : Outcome State :=
  match k with
  | O => Done st
  | S k' => st' ← handleWeightChange 1 st []; pressPlus k' (afterComplete st')
  end.

(** A session from the form to the end of the first run: the effect
    [useEffect(..., [isSetup])] starts the engine on the new arrays. *)
Definition runSession (nodeCount : Z) (distances : list (list Z))
    (pauses : list bool) : Outcome State :=
  let st := handleSetupComplete nodeCount distances initialState in
  updateRoutingTables st st pauses.

(** ** Reading the tables *)

(** [nodes.find(x => x.id === n)?.routingTable[d]]. *)
Definition entryOf (nodes : list Node) (n d : string) : option Entry :=
  node ← findNode nodes n; routingTable node !! d.

Definition dist (nodes : list Node) (n d : string) : Z :=
  from_option distance INFINITY (entryOf nodes n d).

Definition hop (nodes : list Node) (n d : string) : string :=
  from_option nextHop "-" (entryOf nodes n d).

(** What a relaxation step reads from a neighbour [h] about [d]. *)
Definition viaNeighbor (nodes : list Node) (h d : string) : Z :=
  if dist nodes h d =? 0 then INFINITY else dist nodes h d.

(** The distance of [h] to [d] with [h = d] counted as 0: routing tables
    hold no entry for the node itself. *)
Definition dist0 (nodes : list Node) (h d : string) : Z :=
  if bool_decide (h = d) then 0 else dist nodes h d.

(** The other end of [link] seen from [nodeId], when [link] is incident:
    [link.from === node.id ? link.to : link.from] under the test
    [link.from === node.id || link.to === node.id]. *)
Definition neighborOf (link : Link) (nodeId : string) : option string :=
  if bool_decide (from link = nodeId) then Some (to link)
  else if bool_decide (to link = nodeId) then Some (from link)
  else None.

(** [scanLink] when every neighbour is found: the update of the three
    variables by one link. *)
Definition scanPure (nodes : list Node) (nodeId destId : string)
    (b : Best) (link : Link) : Best :=
  match neighborOf link nodeId with
  | Some h =>
      if weight link + viaNeighbor nodes h destId <? minDistance b
      then {| minDistance := weight link + viaNeighbor nodes h destId;
              bestHop := h; changed := true |}
      else b
  | None => b
  end.

(** The three variables at the end of the scan of one relaxation step. *)
Definition relaxBest (links : list Link) (nodes : list Node)
    (nodeId destId : string) (c : bool) : Best :=
  fold_left (scanPure nodes nodeId destId) links
    {| minDistance := dist nodes nodeId destId;
       bestHop := hop nodes nodeId destId; changed := c |}.

(** ** The graph of a session *)

(** [adj links a b w]: a link of weight [w] joins [a] and [b]. *)
Definition adj (links : list Link) (a b : string) (w : Z) : Prop :=
  ∃ l, l ∈ links ∧ weight l = w ∧
       ((from l = a ∧ to l = b) ∨ (from l = b ∧ to l = a)).

(** [route links a vs c W]: the vertices [a :: vs] form a walk from [a] to
    [c] of total weight [W]; it has [length vs] links. *)
Inductive route (links : list Link) : string -> list string -> string -> Z -> Prop :=
| route_here a : route links a [] a 0
| route_step a b vs c w W :
    adj links a b w -> route links b vs c W ->
    route links a (b :: vs) c (w + W).

Definition reachable (links : list Link) (n d : string) : Prop :=
  ∃ vs W, route links n vs d W.

(** [D] is the length of a shortest walk from [n] to [d]. *)
Definition shortest (links : list Link) (n d : string) (D : Z) : Prop :=
  (∃ vs, route links n vs d D) ∧ ∀ vs W, route links n vs d W -> D <= W.

(** ** Well-formed sessions *)

(** The node array carries the ids [ids], and every node has an entry for
    exactly the other nodes. *)
Definition shaped (ids : list string) (nodes : list Node) : Prop :=
  map id nodes = ids ∧
  ∀ n d, is_Some (entryOf nodes n d) ↔ (n ∈ ids ∧ d ∈ ids ∧ n ≠ d).

(** Links join two different known nodes, at most one link per pair. *)
Definition linked (ids : list string) (links : list Link) : Prop :=
  (∀ l, l ∈ links -> from l ∈ ids ∧ to l ∈ ids ∧ from l ≠ to l) ∧
  (∀ a b w w', adj links a b w -> adj links a b w' -> w = w').

(** Weights are positive. *)
Definition positive (links : list Link) : Prop :=
  ∀ l, l ∈ links -> 1 <= weight l.

(** Weights are below the sentinel. *)
Definition belowSentinel (links : list Link) : Prop :=
  ∀ l, l ∈ links -> weight l < INFINITY.

(** ** Invariants of the tables *)

(** An entry is either untouched, or a distance below the sentinel that is
    the weight of a walk and is accounted for by its next hop. *)
Definition entryOk (links : list Link) (nodes : list Node) (n d : string) : Prop :=
  (dist nodes n d = INFINITY ∧ hop nodes n d = "-") ∨
  (1 <= dist nodes n d < INFINITY ∧
   (∃ vs, route links n vs d (dist nodes n d)) ∧
   ∃ w, adj links n (hop nodes n d) w ∧
        w + dist0 nodes (hop nodes n d) d <= dist nodes n d).

Definition sound (ids : list string) (links : list Link) (nodes : list Node) : Prop :=
  ∀ n d, n ∈ ids -> d ∈ ids -> n ≠ d -> entryOk links nodes n d.

(** Every walk of at most [k] links and of weight below the sentinel is
    already matched by the table. *)
Definition within (k : nat) (ids : list string) (links : list Link)
    (nodes : list Node) : Prop :=
  ∀ n d vs W, n ∈ ids -> d ∈ ids -> n ≠ d ->
              route links n vs d W -> (length vs <= k)%nat -> W < INFINITY ->
              dist nodes n d <= W.

Definition complete (ids : list string) (links : list Link)
    (nodes : list Node) : Prop :=
  ∀ n d vs W, n ∈ ids -> d ∈ ids -> n ≠ d ->
              route links n vs d W -> W < INFINITY ->
              dist nodes n d <= W.

(** No link offers an improvement any more. *)
Definition settled (ids : list string) (links : list Link)
    (nodes : list Node) : Prop :=
  ∀ n d h w, n ∈ ids -> d ∈ ids -> n ≠ d -> adj links n h w ->
             dist nodes n d <= w + viaNeighbor nodes h d.

(** No entry of [nodes'] is above the entry of [nodes]. *)
Definition notAbove (nodes' nodes : list Node) : Prop :=
  ∀ n d, dist nodes' n d <= dist nodes n d.

(** The invariant of a pass that starts from the tables [start] and is not
    paused, after the pairs [seen]: the tables only went down; every pair
    already relaxed matches the walks of at most [k + 1] links; and as long
    as [hasChanges] is unset nothing has moved and no link improves a pair
    already visited. *)
Definition passInv (ids : list string) (links : list Link) (k : nat)
    (start : Run) (seen : list (string * string)) (s : Run) : Prop :=
  shaped ids (newNodes s) ∧
  sound ids links (newNodes s) ∧
  pauseRef s = [] ∧
  passLog s = passLog start ∧
  notAbove (newNodes s) (newNodes start) ∧
  (∀ p vs W, p ∈ seen -> p.1 ≠ p.2 ->
             route links p.1 vs p.2 W -> (length vs <= S k)%nat -> W < INFINITY ->
             dist (newNodes s) p.1 p.2 <= W) ∧
  (hasChanges s = false ->
   (∀ a c, dist (newNodes s) a c = dist (newNodes start) a c) ∧
   (∀ a c, hop (newNodes s) a c = hop (newNodes start) a c) ∧
   ∀ p h w, p ∈ seen -> p.1 ≠ p.2 -> adj links p.1 h w ->
            dist (newNodes start) p.1 p.2
            <= w + viaNeighbor (newNodes start) h p.2).

(** Tables as [handleSetupComplete] builds them. *)
Definition fresh (nodes : list Node) : Prop :=
  ∀ n d, dist nodes n d = INFINITY ∧ hop nodes n d = "-".

(** The invariant of an initialisation phase that is not paused, after the
    links [seen]: the pairs they join hold the link, the others nothing. *)
Definition initInv (ids : list string) (seen : list Link) (s : Run) : Prop :=
  shaped ids (newNodes s) ∧
  pauseRef s = [] ∧
  ∀ n d, (∃ w, adj seen n d w ∧ dist (newNodes s) n d = w ∧ hop (newNodes s) n d = d)
         ∨ ((∀ w, ¬ adj seen n d w) ∧
            dist (newNodes s) n d = INFINITY ∧ hop (newNodes s) n d = "-").

(** Every distance below the sentinel was written by the initialisation
    phase: its next hop is the destination itself. *)
Definition directOnly (nodes : list Node) : Prop :=
  ∀ n d, dist nodes n d ≠ INFINITY -> hop nodes n d = d.

(** No stored distance exceeds the sentinel. *)
Definition bounded (nodes : list Node) : Prop :=
  ∀ n d, dist nodes n d <= INFINITY.

(** What any stretch of relaxation work, paused or not, does to the state
    of a run: the tables keep their shape and never go up, sound entries
    stay sound, and [hasChanges] is set exactly when some distance went
    down. *)
Definition evolves (ids : list string) (links : list Link) (r r' : Run) : Prop :=
  shaped ids (newNodes r') ∧
  passLog r' = passLog r ∧
  notAbove (newNodes r') (newNodes r) ∧
  (positive links -> sound ids links (newNodes r) -> sound ids links (newNodes r')) ∧
  (hasChanges r = true -> hasChanges r' = true) ∧
  (hasChanges r' = false ->
   (∀ a c, dist (newNodes r') a c = dist (newNodes r) a c) ∧
   (∀ a c, hop (newNodes r') a c = hop (newNodes r) a c)) ∧
  (hasChanges r = false -> hasChanges r' = true ->
   ∃ a c, dist (newNodes r') a c < dist (newNodes r) a c).

(** In a log of passes, only the last one can be a pass without change. *)
Definition stopsAtFirstQuiet (log : list bool) : Prop :=
  ∀ i, (S i < length log)%nat -> log !! i = Some true.

(** ** Sessions *)

(** A valid session: between 2 and 8 nodes, the matrix of the form, and
    every cell either left empty or holding a positive weight. *)
Definition validSession (nodeCount : Z) (distances : list (list Z)) : Prop :=
  2 <= nodeCount <= 8 ∧
  squareMatrix (Z.to_nat nodeCount) distances ∧
  ∀ i j, (j < i < Z.to_nat nodeCount)%nat ->
         cell distances i j = INFINITY ∨ 1 <= cell distances i j.

(** No weight reaches the sentinel. *)
Definition weightsBelowSentinel (nodeCount : Z) (distances : list (list Z)) : Prop :=
  ∀ i j, (j < i < Z.to_nat nodeCount)%nat -> cell distances i j <= INFINITY.

(** Every pair that is connected at all is connected by a walk lighter than
    the sentinel. *)
Definition distancesBelowSentinel (ids : list string) (links : list Link) : Prop :=
  ∀ n d, n ∈ ids -> d ∈ ids -> reachable links n d ->
         ∃ vs W, route links n vs d W ∧ W < INFINITY.

(** The tables are right for the graph: every reachable pair holds the
    length of a shortest walk, and its next hop is a neighbour that lies on
    one. *)
Definition routesCorrect (ids : list string) (links : list Link)
    (nodes : list Node) : Prop :=
  ∀ n d, n ∈ ids -> d ∈ ids -> n ≠ d -> reachable links n d ->
         shortest links n d (dist nodes n d) ∧
         ∃ w, adj links n (hop nodes n d) w ∧
              dist nodes n d = w + dist0 nodes (hop nodes n d) d.

(** The pairs without a walk hold the baseline. *)
Definition unreachableKept (ids : list string) (links : list Link)
    (nodes : list Node) : Prop :=
  ∀ n d, n ∈ ids -> d ∈ ids -> n ≠ d -> ¬ reachable links n d ->
         dist nodes n d = INFINITY ∧ hop nodes n d = "-".


(** One line of a routing table as displayed: distance and next hop. *)
Definition lineOf (nodes : list Node) (n d : string) : Z * string :=
  (dist nodes n d, hop nodes n d).

(** The weight of the first link between [a] and [b]. *)
Definition weightBetween (links : list Link) (a b : string) : option Z :=
  weight <$> List.find (fun l => (bool_decide (from l = a) && bool_decide (to l = b))
                                 || (bool_decide (from l = b) && bool_decide (to l = a)))
                       links.

(** The weight of the walk [a :: vs], when its steps are links. *)
Fixpoint walkWeight (links : list Link) (a : string) (vs : list string) : option Z :=
  match vs with
  | [] => Some 0
  | b :: rest =>
      w ← weightBetween links a b;
      W ← walkWeight links b rest;
      Some (w + W)
  end.

(** ** The scenarios of the specification *)

(** Three nodes, A-B of weight 2, B-C of weight 3, entered in the form. *)
Definition scenario : list (list Z) :=
  handleDistanceChange (handleDistanceChange (freshDistances 3) 1 0 2) 2 1 3.

Definition scenarioRoutes (nodes : list Node) : Prop :=
  lineOf nodes "A" "B" = (2, "B") ∧ lineOf nodes "A" "C" = (5, "B") ∧
  lineOf nodes "B" "C" = (3, "C") ∧ lineOf nodes "C" "A" = (5, "B").

(** The same graph with A-B at weight 10, entered in the form. *)
Definition scenarioEdited : list (list Z) :=
  handleDistanceChange (handleDistanceChange (freshDistances 3) 1 0 10) 2 1 3.

(** Three nodes in a line with two links of weight 600000. *)
Definition heavy : list (list Z) :=
  handleDistanceChange (handleDistanceChange (freshDistances 3) 1 0 600000) 2 1 600000.

(** Two nodes and a link heavier than the sentinel. *)
Definition overSentinel : list (list Z) :=
  handleDistanceChange (freshDistances 2) 1 0 2000000.





(** ** Tables whose distances are weights of walks *)

(** Every distance below the sentinel is the weight of a walk. *)
Definition realizable (ids : list string) (links : list Link) (nodes : list Node) : Prop :=
  ∀ n d, n ∈ ids -> d ∈ ids -> n ≠ d ->
         dist nodes n d = INFINITY ∨
         (1 <= dist nodes n d < INFINITY ∧ ∃ vs, route links n vs d (dist nodes n d)).

(** Tables at rest: well shaped, made of walk weights, and matching every
    walk lighter than the sentinel. *)
Definition converged (ids : list string) (links : list Link) (nodes : list Node) : Prop :=
  shaped ids nodes ∧ realizable ids links nodes ∧ complete ids links nodes.

(** The invariant of an unpaused pass over tables that hold walk weights,
    after the pairs [seen]. *)
Definition rerunInv (ids : list string) (links : list Link) (k : nat)
    (start : Run) (seen : list (string * string)) (s : Run) : Prop :=
  shaped ids (newNodes s) ∧
  realizable ids links (newNodes s) ∧
  pauseRef s = [] ∧
  notAbove (newNodes s) (newNodes start) ∧
  (stateLinks start = links -> stateLinks s = links) ∧
  (∀ p vs W, p ∈ seen -> p.1 ≠ p.2 ->
             route links p.1 vs p.2 W -> (length vs <= S k)%nat -> W < INFINITY ->
             dist (newNodes s) p.1 p.2 <= W).

(** ** Idle simulations, restart and configure *)

(** An idle simulation on a well-formed network whose stored distances
    are weights of walks. *)
Definition readyState (ids : list string) (st : State) : Prop :=
  Network.isProcessing st = false ∧
  (2 <= length ids)%nat ∧
  linked ids (Network.links st) ∧
  positive (Network.links st) ∧
  belowSentinel (Network.links st) ∧
  shaped ids (Network.nodes st) ∧
  realizable ids (Network.links st) (Network.nodes st).

(** An idle simulation whose tables have converged on its links. *)
Definition convergedState (ids : list string) (st : State) : Prop :=
  readyState ids st ∧ complete ids (Network.links st) (Network.nodes st).

(** The state after the updates queued by [restartSimulation] (lines
    220-245), before its timer fires. *)
Definition restartQueued (st : State) : State :=
  Network.mkState
    (Network.isSetup st)
    (restartTables (Network.nodes st))
    (Network.links st)
    None (Network.editWeight st)
    false false 0 "".

(** [restartSimulation]. The timer calls the [updateRoutingTables] of the
    render in which the button was pressed. A run that was paused when the
    button is pressed goes on by itself once the pause is lifted; that
    earlier run is not part of this function. *)
Definition restartSimulation (st : State) (pauses : list bool) : Outcome State :=
  if Network.isProcessing st && negb (Network.isPaused st) then Done st
  else updateRoutingTables st (restartQueued st) pauses.


(** ** The routing tables on the page: [renderRoutingTables] *)

(** The distance cell of a row: ['...'] while the entry is being
    processed, ['∞'] for the sentinel, the number otherwise. *)
Inductive Shown : Type :=
| Dots
| Infinite
| Number (z : Z).

Definition distanceCell (info : Entry) : Shown :=
  if isProcessing info then Dots
  else if distance info =? INFINITY then Infinite
  else Number (distance info).

Definition nextCell (info : Entry) : string :=
  if isProcessing info then "-" else nextHop info.

(** The row for [dest] in the table of [node]. *)
Definition rowOf (nodes : list Node) (node dest : string) : option (Shown * string) :=
  (fun info => (distanceCell info, nextCell info)) <$> entryOf nodes node dest.

(** No entry is marked as being processed. *)
Definition calm (nodes : list Node) : Prop :=
  ∀ n d e, entryOf nodes n d = Some e -> isProcessing e = false.

(** What every run keeps: no entry is left marked as being processed, and
    the links it publishes are its own. *)
Definition kept (links shown : list Link) (s : Run) : Prop :=
  calm (newNodes s) ∧ (shown = links -> stateLinks s = links).


(** The state after the first run of the scenario and its timer. *)
Definition scenarioDone : State :=
  match runSession 3 scenario [] with
  | Done st => afterComplete st
  | _ => initialState
  end.

(** ** The form: [NetworkSetup] *)

Module Setup.
Record Form := mkForm {
  nodeCount : option Z;
  distances : list (list Z);
  step : Z
}.
End Setup.
Abbreviation Form := Setup.Form.

(** The form once mounted: [useState(4)], [useState(0)], and the effect on
    [nodeCount] has filled the matrix. [None] is the count [NaN]. *)
Definition mountedForm : Form := Setup.mkForm (Some 4) (freshDistances 4) 0.

(** The count field: [setNodeCount(Math.min(8, Math.max(2, parseInt(...))))]
    and then the effect [useEffect(..., [nodeCount])], which runs only when
    the count has changed and renews the matrix when [nodeCount > 0]. *)
Definition typeCount (v : option Z) (f : Form) : Form :=
  let c := clampNodeCount v in
  if bool_decide (c = Setup.nodeCount f) then f
  else Setup.mkForm c
         (match c with
          | Some n => if 0 <? n then freshDistances (Z.to_nat n)
                      else Setup.distances f
          | None => Setup.distances f
          end)
         (Setup.step f).

(** A weight field:
    [handleDistanceChange(i, j, parseInt(e.target.value) || INFINITY)]. *)
Definition typeWeight (i j : nat) (v : option Z) (f : Form) : Form :=
  Setup.mkForm (Setup.nodeCount f)
    (handleDistanceChange (Setup.distances f) i j (parseWeight v))
    (Setup.step f).

(** What the user can do on the form. *)
Inductive FormEvent : Type :=
| TypeCount (v : option Z)
| Next
| TypeWeight (i j : nat) (v : option Z).

(** One event on the page as rendered: the count field and "Next" exist at
    step 0 only, and at the other step one weight field for each pair
    [j < i < nodeCount]. [None] when the page has no such control. *)
Definition formStep (ev : FormEvent) (f : Form) : option Form :=
  match ev with
  | TypeCount v => if Setup.step f =? 0 then Some (typeCount v f) else None
  | Next =>
      if Setup.step f =? 0
      then Some (Setup.mkForm (Setup.nodeCount f) (Setup.distances f) 1)
      else None
  | TypeWeight i j v =>
      match Setup.nodeCount f with
      | Some n =>
          if negb (Setup.step f =? 0) && bool_decide (j < i < Z.to_nat n)%nat
          then Some (typeWeight i j v f)
          else None
      | None => None
      end
  end.

Fixpoint runForm (evs : list FormEvent) (f : Form) : option Form :=
  match evs with
  | [] => Some f
  | ev :: rest => f' ← formStep ev f; runForm rest f'
  end.

(** What the form always holds: a square matrix of the size of the last
    count that was a number, symmetric, without a zero, with the sentinel
    on its diagonal. *)
Definition formOk (f : Form) : Prop :=
  ∃ n : nat,
    (2 <= n <= 8)%nat ∧
    (Setup.nodeCount f = Some (Z.of_nat n) ∨ Setup.nodeCount f = None) ∧
    squareMatrix n (Setup.distances f) ∧
    (∀ i j, cell (Setup.distances f) i j = cell (Setup.distances f) j i) ∧
    (∀ i j, cell (Setup.distances f) i j ≠ 0) ∧
    (∀ i, cell (Setup.distances f) i i = INFINITY).

(** A weight typed as a number that is not negative and not above the
    sentinel, or a field left empty. *)
Definition sensible (ev : FormEvent) : Prop :=
  match ev with
  | TypeWeight _ _ (Some v) => 0 <= v <= INFINITY
  | _ => True
  end.

(** The scenario as typed into the form. *)
Definition scenarioTyped : list FormEvent :=
  [TypeCount (Some 3); Next; TypeWeight 1 0 (Some 2); TypeWeight 2 1 (Some 3)].

(** * Properties *)

(** ** Loops *)

Lemma forOf_app {A S} (xs ys : list A) (body : A -> S -> Outcome S) s :
  forOf (xs ++ ys) body s = s' ← forOf xs body s; forOf ys body s'.
Proof.
  revert s. induction xs as [|x xs IH]; intros s; simpl; [done|].
  destruct (body x s); simpl; [apply IH|done|done].
Qed.

Lemma forOf_map {A B S} (f : A -> B) (xs : list A) (body : B -> S -> Outcome S) s :
  forOf (map f xs) body s = forOf xs (fun x => body (f x)) s.
Proof.
  revert s. induction xs as [|x xs IH]; intros s; simpl; [done|].
  destruct (body (f x) s); simpl; [apply IH|done|done].
Qed.

(** Two nested loops visit the pairs in row-major order. *)
Lemma forOf_nested {A B S} (xs : list A) (ys : list B)
    (body : A -> B -> S -> Outcome S) s :
  forOf xs (fun x => forOf ys (body x)) s =
  forOf (list_prod xs ys) (fun p => body p.1 p.2) s.
Proof.
  revert s. induction xs as [|x xs IH]; intros s; simpl; [done|].
  rewrite forOf_app, forOf_map. simpl.
  destruct (forOf ys (body x) s); simpl; [apply IH|done|done].
Qed.

(** A loop whose body maintains an invariant indexed by the elements
    already visited. *)
Lemma forOf_inv {A S} (I : list A -> S -> Prop) (body : A -> S -> Outcome S) xs :
  ∀ pre s,
    (∀ seen x s, x ∈ xs -> I seen s -> ∃ s', body x s = Done s' ∧ I (seen ++ [x]) s') ->
    I pre s ->
    ∃ s', forOf xs body s = Done s' ∧ I (pre ++ xs) s'.
Proof.
  induction xs as [|x xs IH]; intros pre s Hstep Hpre; simpl.
  - exists s. by rewrite app_nil_r.
  - destruct (Hstep pre x s) as (s1 & -> & H1); [by left|done|]. simpl.
    destruct (IH (pre ++ [x]) s1) as (s' & Hs' & HI); [|done|].
    + intros seen y s2 Hy. apply Hstep. by right.
    + exists s'. split; [done|]. by rewrite <- app_assoc in HI.
Qed.

(** ** The node array *)

Lemma findNode_Some nodes i x :
  findNode nodes i = Some x -> id x = i ∧ x ∈ nodes.
Proof.
  unfold findNode. intros H. apply find_some in H as [Hin Hb].
  apply bool_decide_eq_true in Hb. split; [done|]. by apply list_elem_of_In.
Qed.

Lemma findNode_is_Some nodes i :
  is_Some (findNode nodes i) ↔ i ∈ map id nodes.
Proof.
  unfold findNode. induction nodes as [|x rest IH]; simpl.
  - split; [intros [? ?]; discriminate | intros H; inversion H].
  - destruct (bool_decide (id x = i)) eqn:E.
    + apply bool_decide_eq_true in E. split; [|by eauto].
      intros _. subst. constructor.
    + apply bool_decide_eq_false in E. rewrite IH. split.
      * intros H. by constructor.
      * intros H. inversion H; subst; done.
Qed.

Lemma setEntry_ids nodes n d e : map id (setEntry nodes n d e) = map id nodes.
Proof.
  induction nodes as [|x rest IH]; simpl; [done|].
  destruct (bool_decide (id x = n)); simpl; [done|]. by rewrite IH.
Qed.

Lemma findNode_setEntry_ne nodes n d e m :
  m ≠ n -> findNode (setEntry nodes n d e) m = findNode nodes m.
Proof.
  intros Hne. unfold findNode. induction nodes as [|x rest IH]; simpl; [done|].
  destruct (bool_decide (id x = n)) eqn:E; simpl.
  - apply bool_decide_eq_true in E.
    rewrite !bool_decide_eq_false_2 by congruence. done.
  - destruct (bool_decide (id x = m)); [done|]. apply IH.
Qed.

Lemma findNode_setEntry_eq nodes n d e :
  findNode (setEntry nodes n d e) n =
  (fun x => {| id := id x; routingTable := <[d := e]> (routingTable x) |})
    <$> findNode nodes n.
Proof.
  unfold findNode. induction nodes as [|x rest IH]; simpl; [done|].
  destruct (bool_decide (id x = n)) eqn:E; simpl.
  - by rewrite E.
  - by rewrite E.
Qed.

Lemma entryOf_setEntry nodes n d e m k :
  entryOf (setEntry nodes n d e) m k =
  if bool_decide (m = n ∧ k = d)
  then (match findNode nodes n with Some _ => Some e | None => None end)
  else entryOf nodes m k.
Proof.
  unfold entryOf. destruct (decide (m = n)) as [->|Hne].
  - rewrite findNode_setEntry_eq.
    destruct (findNode nodes n) as [x|]; simpl.
    + destruct (decide (k = d)) as [->|Hk].
      * rewrite bool_decide_eq_true_2 by done. apply lookup_insert_eq.
      * rewrite bool_decide_eq_false_2 by (intros [_ ?]; done).
        by apply lookup_insert_ne.
    + by destruct (bool_decide _).
  - rewrite findNode_setEntry_ne by done.
    by rewrite bool_decide_eq_false_2 by (intros [? _]; done).
Qed.

Lemma entryOf_findNode nodes n d e :
  entryOf nodes n d = Some e -> ∃ x, findNode nodes n = Some x ∧ routingTable x !! d = Some e.
Proof.
  unfold entryOf. destruct (findNode nodes n) as [x|]; simpl; [eauto|done].
Qed.

Lemma dist_setEntry nodes n d e m k :
  is_Some (findNode nodes n) ->
  dist (setEntry nodes n d e) m k =
  if bool_decide (m = n ∧ k = d) then distance e else dist nodes m k.
Proof.
  intros [x Hx]. unfold dist. rewrite entryOf_setEntry, Hx.
  by destruct (bool_decide _).
Qed.

Lemma hop_setEntry nodes n d e m k :
  is_Some (findNode nodes n) ->
  hop (setEntry nodes n d e) m k =
  if bool_decide (m = n ∧ k = d) then nextHop e else hop nodes m k.
Proof.
  intros [x Hx]. unfold hop. rewrite entryOf_setEntry, Hx.
  by destruct (bool_decide _).
Qed.

Lemma shaped_setEntry ids nodes n d e :
  shaped ids nodes -> is_Some (entryOf nodes n d) ->
  shaped ids (setEntry nodes n d e).
Proof.
  intros [Hids Hdom] Hsome. split; [by rewrite setEntry_ids|].
  intros m k. rewrite entryOf_setEntry, <- Hdom.
  destruct (bool_decide (m = n ∧ k = d)) eqn:E; [|done].
  apply bool_decide_eq_true in E as [-> ->].
  destruct Hsome as [e0 He0]. apply entryOf_findNode in He0 as (x & Hx & Hl).
  rewrite Hx. unfold entryOf. rewrite Hx. simpl. rewrite Hl. split; eauto.
Qed.

Lemma shaped_findNode ids nodes n :
  shaped ids nodes -> n ∈ ids -> is_Some (findNode nodes n).
Proof. intros [Hids _] Hn. apply findNode_is_Some. by rewrite Hids. Qed.

(** ** The scan of the links in one relaxation step *)

Lemma neighborOf_adj links n h w :
  adj links n h w ↔ ∃ l, l ∈ links ∧ weight l = w ∧
                        (neighborOf l n = Some h ∨ (from l = h ∧ to l = n ∧ from l = to l)).
Proof.
  unfold adj, neighborOf. split.
  - intros (l & Hl & Hw & [[Hf Ht]|[Hf Ht]]); exists l; split_and!; try done.
    + left. by rewrite bool_decide_eq_true_2 by done; subst.
    + destruct (decide (from l = n)) as [E|E].
      * right. split_and!; congruence.
      * left. rewrite bool_decide_eq_false_2 by done.
        rewrite bool_decide_eq_true_2 by done. by subst.
  - intros (l & Hl & Hw & [H|(Hf & Ht & E)]); exists l; split_and!; try done.
    + destruct (bool_decide (from l = n)) eqn:E1.
      * apply bool_decide_eq_true in E1. left. split; congruence.
      * destruct (bool_decide (to l = n)) eqn:E2; [|done].
        apply bool_decide_eq_true in E2. right. split; congruence.
    + right. done.
Qed.

Lemma neighborOf_Some_adj links l n h :
  l ∈ links -> neighborOf l n = Some h -> adj links n h (weight l).
Proof. intros Hl Hn. apply neighborOf_adj. exists l. eauto. Qed.

Lemma adj_neighborOf ids links n h w :
  linked ids links -> adj links n h w ->
  ∃ l, l ∈ links ∧ weight l = w ∧ neighborOf l n = Some h.
Proof.
  intros [Hl _] Ha. apply neighborOf_adj in Ha as (l & Hin & Hw & [H|(_ & _ & E)]).
  - eauto.
  - destruct (Hl l Hin) as (_ & _ & Hne). done.
Qed.

Lemma adj_sym links a b w : adj links a b w -> adj links b a w.
Proof. intros (l & Hl & Hw & H). exists l. split_and!; try done. tauto. Qed.

Lemma scanLink_pure ids nodes links n d l b :
  map id nodes = ids -> linked ids links -> l ∈ links ->
  scanLink nodes n d l b = Done (scanPure nodes n d b l).
Proof.
  intros Hids [Hl _] Hin. destruct (Hl l Hin) as (Hf & Ht & _).
  unfold scanLink, scanPure, neighborOf.
  assert (Hfind : ∀ h, h ∈ ids -> ∃ x, findNode nodes h = Some x ∧
            distanceOr (routingTable x) d = viaNeighbor nodes h d).
  { intros h Hh. destruct (proj2 (findNode_is_Some nodes h)) as [x Hx];
      [by rewrite Hids|].
    exists x. split; [done|]. unfold viaNeighbor, dist, entryOf, distanceOr.
    rewrite Hx. simpl. destruct (routingTable x !! d) as [e|]; simpl; [done|].
    done. }
  destruct (bool_decide (from l = n)) eqn:E1; simpl.
  - destruct (Hfind _ Ht) as (x & Hx & Hv). rewrite Hx. simpl. rewrite Hv.
    by destruct (_ <? _).
  - destruct (bool_decide (to l = n)) eqn:E2; simpl; [|done].
    destruct (Hfind _ Hf) as (x & Hx & Hv). rewrite Hx. simpl. rewrite Hv.
    by destruct (_ <? _).
Qed.

Lemma scan_pure ids nodes links n d :
  map id nodes = ids -> linked ids links ->
  ∀ ls b, (∀ l, l ∈ ls -> l ∈ links) ->
  forOf ls (scanLink nodes n d) b = Done (fold_left (scanPure nodes n d) ls b).
Proof.
  intros Hids Hlk ls. induction ls as [|l ls IH]; intros b Hsub; simpl; [done|].
  rewrite (scanLink_pure ids nodes links) by (try done; apply Hsub; constructor).
  simpl. apply IH. intros l' Hl'. apply Hsub. by constructor.
Qed.

Lemma scanPure_same_dist nodes nodes' n d :
  (∀ a c, dist nodes' a c = dist nodes a c) ->
  ∀ ls b, fold_left (scanPure nodes' n d) ls b = fold_left (scanPure nodes n d) ls b.
Proof.
  intros Hd ls. induction ls as [|l ls IH]; intros b; simpl; [done|].
  rewrite IH. f_equal. unfold scanPure, viaNeighbor.
  destruct (neighborOf l n); [|done]. by rewrite Hd.
Qed.

(** What the scan leaves in [minDistance], [nextHop] and [hasChanges]. *)
Lemma scan_facts nodes n d ls b :
  let b' := fold_left (scanPure nodes n d) ls b in
  minDistance b' <= minDistance b ∧
  (∀ l h, l ∈ ls -> neighborOf l n = Some h ->
          minDistance b' <= weight l + viaNeighbor nodes h d) ∧
  (b' = b ∨
   (changed b' = true ∧ minDistance b' < minDistance b ∧
    ∃ l, l ∈ ls ∧ neighborOf l n = Some (bestHop b') ∧
         minDistance b' = weight l + viaNeighbor nodes (bestHop b') d)).
Proof.
  revert b. induction ls as [|l ls IH]; intros b; simpl.
  - split_and!; [lia| |by left]. intros l h Hl. inversion Hl.
  - specialize (IH (scanPure nodes n d b l)). simpl in IH.
    destruct IH as (Hle & Hall & Hcase).
    set (b1 := scanPure nodes n d b l) in *.
    set (b' := fold_left (scanPure nodes n d) ls b1) in *.
    assert (H1 : minDistance b1 <= minDistance b ∧
                 (∀ h, neighborOf l n = Some h ->
                       minDistance b1 <= weight l + viaNeighbor nodes h d) ∧
                 (b1 = b ∨ (changed b1 = true ∧ minDistance b1 < minDistance b ∧
                            neighborOf l n = Some (bestHop b1) ∧
                            minDistance b1 = weight l + viaNeighbor nodes (bestHop b1) d))).
    { subst b1. unfold scanPure. destruct (neighborOf l n) as [h|] eqn:Eh.
      - destruct (_ <? _) eqn:Elt; simpl.
        + apply Z.ltb_lt in Elt. split_and!; [lia| |right; split_and!; try done].
          intros h' [= <-]. lia.
        + apply Z.ltb_ge in Elt. split_and!; [lia| |by left].
          intros h' [= <-]. lia.
      - split_and!; [lia|done|by left]. }
    destruct H1 as (Hle1 & Hall1 & Hcase1).
    split_and!.
    + lia.
    + intros l' h Hl' Hn. apply elem_of_cons in Hl' as [->|Hl'].
      * specialize (Hall1 h Hn). lia.
      * by apply Hall.
    + destruct Hcase as [Heq|(Hc & Hlt & l' & Hl' & Hn & Hm)].
      * rewrite Heq. destruct Hcase1 as [Heq1|(Hc & Hlt & Hn & Hm)]; [by left|].
        right. split_and!; try done. exists l. split_and!; try done. by left.
      * right. split_and!; [done|lia|]. exists l'. split_and!; try done. by right.
Qed.

(** ** One relaxation step *)

Lemma relaxStep_spec ids links n d r :
  shaped ids (newNodes r) -> linked ids links ->
  n ∈ ids -> d ∈ ids -> n ≠ d ->
  let b := relaxBest links (newNodes r) n d (hasChanges r) in
  ∃ r', relaxStep links n d r = Done r' ∧
        shaped ids (newNodes r') ∧
        hasChanges r' = changed b ∧
        pauseRef r' = pauseRef r ∧
        passLog r' = passLog r ∧
        (∀ a c, dist (newNodes r') a c =
                if bool_decide (a = n ∧ c = d) then minDistance b
                else dist (newNodes r) a c) ∧
        (∀ a c, hop (newNodes r') a c =
                if bool_decide (a = n ∧ c = d) then bestHop b
                else hop (newNodes r) a c).
Proof.
  intros Hsh Hlk Hn Hd Hne b.
  assert (Hsome : is_Some (entryOf (newNodes r) n d)) by (apply Hsh; done).
  destruct Hsome as [cur Hcur].
  destruct (entryOf_findNode _ _ _ _ Hcur) as (x & Hx & Hlook).
  set (cur1 := {| distance := distance cur; nextHop := nextHop cur;
                  isNew := isNew cur; isProcessing := true;
                  calculated := calculated cur |}).
  set (nodes1 := setEntry (newNodes r) n d cur1).
  assert (Hsh1 : shaped ids nodes1) by (apply shaped_setEntry; eauto).
  assert (Hd1 : ∀ a c, dist nodes1 a c = dist (newNodes r) a c).
  { intros a c. unfold nodes1. rewrite dist_setEntry by eauto.
    destruct (bool_decide (a = n ∧ c = d)) eqn:E; [|done].
    apply bool_decide_eq_true in E as [-> ->]. unfold dist. by rewrite Hcur. }
  assert (Hh1 : ∀ a c, hop nodes1 a c = hop (newNodes r) a c).
  { intros a c. unfold nodes1. rewrite hop_setEntry by eauto.
    destruct (bool_decide (a = n ∧ c = d)) eqn:E; [|done].
    apply bool_decide_eq_true in E as [-> ->]. unfold hop. by rewrite Hcur. }
  assert (Hb : forOf links (scanLink nodes1 n d)
                 {| minDistance := distance cur; bestHop := nextHop cur;
                    changed := hasChanges r |} = Done b).
  { rewrite (scan_pure ids nodes1 links) by (try done; apply Hsh1).
    f_equal. rewrite scanPure_same_dist with (nodes := newNodes r) by done.
    unfold b, relaxBest, dist, hop. by rewrite Hcur. }
  unfold relaxStep. rewrite Hx. simpl. rewrite Hlook. simpl.
  fold cur1. fold nodes1. rewrite Hb. simpl.
  eexists. split; [reflexivity|]. simpl.
  assert (Hf1 : is_Some (findNode nodes1 n)) by (eapply shaped_findNode; eauto).
  split_and!; try done.
  - apply shaped_setEntry; [done|]. apply Hsh1. done.
  - intros a c. rewrite dist_setEntry by done. simpl.
    destruct (bool_decide (a = n ∧ c = d)); [done|apply Hd1].
  - intros a c. rewrite hop_setEntry by done. simpl.
    destruct (bool_decide (a = n ∧ c = d)); [done|apply Hh1].
Qed.

(** ** Walks *)

Section Walks.

Context (ids : list string) (links : list Link).
Hypothesis Hlinked : linked ids links.
Hypothesis Hpositive : positive links.

Lemma adj_ids a b w : adj links a b w -> a ∈ ids ∧ b ∈ ids ∧ a ≠ b.
Proof.
  destruct Hlinked as [Hl _]. intros (l & Hin & _ & H).
  destruct (Hl l Hin) as (Hf & Ht & Hne).
  destruct H as [[<- <-]|[<- <-]]; split_and!; done.
Qed.

Lemma adj_positive a b w : adj links a b w -> 1 <= w.
Proof. intros (l & Hin & <- & _). by apply Hpositive. Qed.

Lemma route_nonneg n vs d W : route links n vs d W -> 0 <= W.
Proof.
  intros H. induction H as [|a b vs c w W Ha _ IH]; [lia|].
  pose proof (adj_positive _ _ _ Ha). lia.
Qed.

Lemma route_ids n vs d W :
  n ∈ ids -> route links n vs d W -> d ∈ ids ∧ ∀ v, v ∈ vs -> v ∈ ids.
Proof.
  intros Hn H. induction H as [a|a b vs c w W Ha _ IH].
  - split; [done|]. intros v Hv. inversion Hv.
  - destruct (adj_ids _ _ _ Ha) as (_ & Hb & _).
    destruct (IH Hb) as [Hc Hvs]. split; [done|].
    intros v Hv. apply elem_of_cons in Hv as [->|Hv]; [done|by apply Hvs].
Qed.

Lemma route_one a b w : adj links a b w -> route links a [b] b w.
Proof.
  intros Ha. replace w with (w + 0) by lia.
  eapply route_step; [done|constructor].
Qed.

(** The end of a walk from any of its vertices is a walk, no heavier. *)
Lemma route_suffix a vs c W l1 v l2 :
  route links a vs c W -> vs = l1 ++ v :: l2 ->
  ∃ W', route links v l2 c W' ∧ W' <= W.
Proof.
  intros H. revert l1. induction H as [a|a b vs c w W Ha Hr IH]; intros l1 E.
  - by destruct l1.
  - pose proof (adj_positive _ _ _ Ha).
    destruct l1 as [|x l1]; simpl in E; injection E as E1 E2; subst.
    + exists W. split; [done|lia].
    + destruct (IH l1 eq_refl) as (W' & Hr' & Hle). exists W'. split; [done|lia].
Qed.

(** Every walk contains a walk without repeated vertex, no heavier. *)
Lemma route_simple a vs c W :
  route links a vs c W ->
  ∃ vs' W', route links a vs' c W' ∧ W' <= W ∧ NoDup (a :: vs') ∧
            ∀ v, v ∈ vs' -> v ∈ vs.
Proof.
  intros H. induction H as [a|a b vs c w W Ha Hr IH].
  - exists [], 0. split; [constructor|]. split; [lia|].
    split; [apply NoDup_singleton|]. intros v Hv. inversion Hv.
  - destruct IH as (vs' & W' & Hr' & Hle & Hnd & Hsub).
    pose proof (adj_positive _ _ _ Ha).
    pose proof (route_nonneg _ _ _ _ Hr').
    destruct (decide (a ∈ b :: vs')) as [Hin|Hnin].
    + apply list_elem_of_split in Hin as (l1 & l2 & E).
      assert (Hr2 : route links a (b :: vs') c (w + W')) by by constructor.
      destruct (route_suffix _ _ _ _ l1 a l2 Hr2 E) as (W2 & Hr3 & Hle2).
      exists l2, W2. split_and!; [done|lia| |].
      * rewrite E in Hnd. apply NoDup_app in Hnd as (_ & _ & Hnd). done.
      * intros v Hv. assert (Hv' : v ∈ b :: vs').
        { rewrite E. apply elem_of_app. right. by right. }
        apply elem_of_cons in Hv' as [->|Hv']; [by left|right; by apply Hsub].
    + exists (b :: vs'), (w + W'). split_and!; [by constructor|lia| |].
      * by constructor.
      * intros v Hv. apply elem_of_cons in Hv as [->|Hv]; [by left|right; by apply Hsub].
Qed.

(** A walk between nodes of the session needs at most [length ids - 1]
    links. *)
Lemma route_short n vs d W :
  n ∈ ids -> route links n vs d W ->
  ∃ vs' W', route links n vs' d W' ∧ W' <= W ∧ (S (length vs') <= length ids)%nat.
Proof.
  intros Hn Hr.
  destruct (route_simple _ _ _ _ Hr) as (vs' & W' & Hr' & Hle & Hnd & _).
  exists vs', W'. split_and!; try done.
  destruct (route_ids _ _ _ _ Hn Hr') as [_ Hvs].
  change (S (length vs')) with (length (n :: vs')).
  apply NoDup_incl_length; [by apply NoDup_ListNoDup|].
  intros v Hv. apply list_elem_of_In. apply list_elem_of_In in Hv.
  apply elem_of_cons in Hv as [->|Hv]; [done|by apply Hvs].
Qed.

End Walks.

(** ** Soundness of the entries *)

Lemma dist_finite ids nodes h d :
  shaped ids nodes -> dist nodes h d ≠ INFINITY -> h ∈ ids ∧ d ∈ ids ∧ h ≠ d.
Proof.
  intros [_ Hdom] Hne. apply Hdom. unfold dist in Hne.
  destruct (entryOf nodes h d); [eauto|done].
Qed.

Lemma sound_bounds ids links nodes n d :
  sound ids links nodes -> n ∈ ids -> d ∈ ids -> n ≠ d ->
  1 <= dist nodes n d <= INFINITY.
Proof.
  intros Hs Hn Hd Hne. destruct (Hs n d Hn Hd Hne) as [[-> _]|([? ?] & _)];
    unfold INFINITY in *; lia.
Qed.

Lemma viaNeighbor_sound ids links nodes h d :
  shaped ids nodes -> sound ids links nodes ->
  viaNeighbor nodes h d = dist nodes h d.
Proof.
  intros Hsh Hs. unfold viaNeighbor.
  destruct (dist nodes h d =? 0) eqn:E; [|done]. apply Z.eqb_eq in E.
  destruct (decide (dist nodes h d = INFINITY)) as [Hi|Hi]; [done|].
  destruct (dist_finite _ _ _ _ Hsh Hi) as (Hh & Hd & Hne).
  pose proof (sound_bounds _ _ _ _ _ Hs Hh Hd Hne). lia.
Qed.

Lemma sound_step ids links nodes nodes' n d c :
  shaped ids nodes -> linked ids links -> positive links ->
  sound ids links nodes -> n ∈ ids -> d ∈ ids -> n ≠ d ->
  let b := relaxBest links nodes n d c in
  (∀ a k, dist nodes' a k =
          if bool_decide (a = n ∧ k = d) then minDistance b else dist nodes a k) ->
  (∀ a k, hop nodes' a k =
          if bool_decide (a = n ∧ k = d) then bestHop b else hop nodes a k) ->
  sound ids links nodes' ∧ notAbove nodes' nodes.
Proof.
  intros Hsh Hlk Hp Hs Hn Hd Hne b Hdist Hhop.
  destruct (scan_facts nodes n d links
              {| minDistance := dist nodes n d; bestHop := hop nodes n d;
                 changed := c |}) as (Hle & Hall & Hcase).
  fold (relaxBest links nodes n d c) in Hle, Hall, Hcase. fold b in Hle, Hall, Hcase.
  simpl in Hle, Hcase.
  assert (Hmono : notAbove nodes' nodes).
  { intros a k. rewrite Hdist. destruct (bool_decide (a = n ∧ k = d)) eqn:E; [|lia].
    apply bool_decide_eq_true in E as [-> ->]. done. }
  assert (Hmono0 : ∀ h k, dist0 nodes' h k <= dist0 nodes h k).
  { intros h k. unfold dist0. destruct (bool_decide (h = k)); [lia|apply Hmono]. }
  assert (Hkeep : ∀ a k, dist nodes' a k = dist nodes a k ->
                         hop nodes' a k = hop nodes a k ->
                         entryOk links nodes a k -> entryOk links nodes' a k).
  { intros a k Ed Eh [[H1 H2]|(H1 & H2 & w & H3 & H4)].
    - left. by rewrite Ed, Eh.
    - right. rewrite Ed, Eh. split; [done|]. split; [done|].
      exists w. split; [done|].
      specialize (Hmono0 (hop nodes a k) k). lia. }
  split; [|done]. intros a k Ha Hk Hak.
  destruct (decide (a = n ∧ k = d)) as [[-> ->]|Hother].
  - destruct Hcase as [Heq|(Hc & Hlt & l & Hl & Hnb & Hm)].
    + apply Hkeep; [| |by apply Hs].
      * rewrite Hdist, bool_decide_eq_true_2 by done. by rewrite Heq.
      * rewrite Hhop, bool_decide_eq_true_2 by done. by rewrite Heq.
    + pose proof (sound_bounds _ _ _ _ _ Hs Hn Hd Hne) as Hold.
      pose proof (neighborOf_Some_adj _ _ _ _ Hl Hnb) as Hadj.
      pose proof (adj_positive _ Hp _ _ _ Hadj) as Hw.
      destruct (adj_ids _ _ Hlk _ _ _ Hadj) as (_ & Hh & Hnh).
      rewrite (viaNeighbor_sound ids links) in Hm by done.
      assert (Hfin : dist nodes (bestHop b) d ≠ INFINITY) by lia.
      destruct (dist_finite _ _ _ _ Hsh Hfin) as (_ & _ & Hhd).
      destruct (Hs _ _ Hh Hd Hhd) as [[Hi _]|(Hb1 & [vs Hvs] & _)]; [done|].
      right. rewrite Hdist, Hhop, !bool_decide_eq_true_2 by done.
      split_and!; [lia|lia| |].
      * exists (bestHop b :: vs). rewrite Hm. by constructor.
      * exists (weight l). split; [done|]. unfold dist0.
        rewrite bool_decide_eq_false_2 by done.
        rewrite Hdist, bool_decide_eq_false_2 by (intros [? _]; done). lia.
  - apply Hkeep; [| |by apply Hs].
    + by rewrite Hdist, bool_decide_eq_false_2.
    + by rewrite Hhop, bool_decide_eq_false_2.
Qed.

(** ** A pass that is not paused *)

Lemma readPause_quiet r : pauseRef r = [] -> readPause r = (false, r).
Proof. unfold readPause. by intros ->. Qed.

Lemma viaNeighbor_same nodes nodes' h d :
  (∀ a c, dist nodes' a c = dist nodes a c) ->
  viaNeighbor nodes' h d = viaNeighbor nodes h d.
Proof. intros H. unfold viaNeighbor. by rewrite H. Qed.

Section QuietPass.

Context (ids : list string) (links : list Link) (k : nat) (start : Run).
Hypothesis Hlinked : linked ids links.
Hypothesis Hpositive : positive links.
Hypothesis Hk : (1 <= k)%nat.
Hypothesis Hwithin : within k ids links (newNodes start).

Lemma pairStep_complete seen n d s :
  n ∈ ids -> d ∈ ids ->
  passInv ids links k start seen s ->
  ∃ s', pairStep links n d s = Done s' ∧
        passInv ids links k start (seen ++ [(n, d)]) s'.
Proof.
  intros Hn Hd (Hsh & Hs & Hq & Hlog & Hna & Hseen & Hfix).
  pose proof Hlinked as Hlk. pose proof Hpositive as Hp.
  unfold pairStep. rewrite readPause_quiet by done.
  destruct (decide (n = d)) as [->|Hne].
  - rewrite bool_decide_eq_false_2 by (intros H; by apply H).
    exists s. split; [done|]. split_and!; try done.
    + intros p vs W Hin. apply elem_of_app in Hin as [Hin|Hin]; [by apply Hseen|].
      apply list_elem_of_singleton in Hin as ->. done.
    + intros Hc. destruct (Hfix Hc) as (H1 & H2 & H3). split_and!; try done.
      intros p h w Hin. apply elem_of_app in Hin as [Hin|Hin]; [by apply H3|].
      apply list_elem_of_singleton in Hin as ->. done.
  - rewrite bool_decide_eq_true_2 by done.
    destruct (relaxStep_spec ids links n d s Hsh Hlk Hn Hd Hne)
      as (s' & Hrun & Hsh' & Hc' & Hq' & Hlog' & Hdist & Hhop).
    destruct (sound_step ids links (newNodes s) (newNodes s') n d (hasChanges s)
                Hsh Hlk Hp Hs Hn Hd Hne Hdist Hhop) as [Hs' Hna'].
    destruct (scan_facts (newNodes s) n d links
                {| minDistance := dist (newNodes s) n d;
                   bestHop := hop (newNodes s) n d;
                   changed := hasChanges s |}) as (Hle & Hall & Hcase).
    fold (relaxBest links (newNodes s) n d (hasChanges s)) in Hle, Hall, Hcase, Hc'.
    set (b := relaxBest links (newNodes s) n d (hasChanges s)) in *.
    simpl in Hle, Hcase.
    assert (Hnd : dist (newNodes s') n d = minDistance b).
    { by rewrite Hdist, bool_decide_eq_true_2. }
    exists s'. split; [done|]. split_and!; try done.
    + congruence.
    + congruence.
    + intros a c. specialize (Hna' a c). specialize (Hna a c). lia.
    + intros p vs W Hin Hpne Hr Hlen HW.
      apply elem_of_app in Hin as [Hin|Hin].
      { specialize (Hseen p vs W Hin Hpne Hr Hlen HW).
        specialize (Hna' p.1 p.2). lia. }
      apply list_elem_of_singleton in Hin as ->. simpl in *.
      inversion Hr as [|a h vs' c w W' Hadj Hr' E1 E2 E3 E4]; subst; [done|].
      pose proof (adj_positive _ Hp _ _ _ Hadj) as Hw.
      pose proof (route_nonneg _ Hp _ _ _ _ Hr') as HW'.
      destruct (adj_ids _ _ Hlk _ _ _ Hadj) as (_ & Hh & _).
      rewrite Hnd.
      destruct (decide (h = d)) as [->|Hhd].
      * assert (dist (newNodes start) n d <= w).
        { apply (Hwithin n d [d] w);
            [done|done|done|by apply route_one|simpl; lia|lia]. }
        specialize (Hna n d). lia.
      * assert (dist (newNodes start) h d <= W').
        { apply (Hwithin h d vs' W');
            [done|done|done|done|simpl in Hlen; lia|lia]. }
        destruct (adj_neighborOf _ _ _ _ _ Hlk Hadj) as (l & Hl & Hwl & Hnb).
        specialize (Hall l h Hl Hnb).
        rewrite (viaNeighbor_sound ids links) in Hall by done.
        specialize (Hna h d). lia.
    + intros Hc. rewrite Hc' in Hc.
      destruct Hcase as [Heq|(Hc2 & _)]; [|congruence].
      assert (Hcs : hasChanges s = false) by (rewrite Heq in Hc; done).
      destruct (Hfix Hcs) as (H1 & H2 & H3).
      assert (Hsame : ∀ a c, dist (newNodes s') a c = dist (newNodes start) a c).
      { intros a c. rewrite Hdist, <- H1.
        destruct (bool_decide (a = n ∧ c = d)) eqn:E; [|done].
        apply bool_decide_eq_true in E as [-> ->]. by rewrite Heq. }
      split_and!; [done| |].
      * intros a c. rewrite Hhop, <- H2.
        destruct (bool_decide (a = n ∧ c = d)) eqn:E; [|done].
        apply bool_decide_eq_true in E as [-> ->]. by rewrite Heq.
      * intros p h w Hin Hpne Hadj.
        apply elem_of_app in Hin as [Hin|Hin]; [by apply H3|].
        apply list_elem_of_singleton in Hin as ->. simpl in *.
        destruct (adj_neighborOf _ _ _ _ _ Hlk Hadj) as (l & Hl & Hwl & Hnb).
        specialize (Hall l h Hl Hnb).
        rewrite (viaNeighbor_same (newNodes start) (newNodes s)) in Hall by done.
        rewrite Heq in Hall. simpl in Hall. rewrite H1 in Hall. lia.
Qed.

(** A whole pass from [start] extends the walks matched by one link. *)
Lemma onePass_complete :
  shaped ids (newNodes start) -> sound ids links (newNodes start) ->
  pauseRef start = [] -> hasChanges start = false ->
  ∃ r', onePass links ids start = Done r' ∧
        shaped ids (newNodes r') ∧
        sound ids links (newNodes r') ∧
        pauseRef r' = [] ∧
        passLog r' = passLog start ∧
        notAbove (newNodes r') (newNodes start) ∧
        within (S k) ids links (newNodes r') ∧
        (hasChanges r' = false ->
         settled ids links (newNodes r') ∧
         (∀ a c, dist (newNodes r') a c = dist (newNodes start) a c) ∧
         (∀ a c, hop (newNodes r') a c = hop (newNodes start) a c)).
Proof.
  intros Hsh Hs Hq Hc.
  unfold onePass. rewrite forOf_nested.
  destruct (forOf_inv (passInv ids links k start)
              (fun p => pairStep links p.1 p.2) (list_prod ids ids) [] start)
    as (r' & Hrun & Hinv).
  - intros seen [n d] s Hin Hinv. simpl.
    apply list_elem_of_In, in_prod_iff in Hin as [Hn Hd].
    apply list_elem_of_In in Hn, Hd.
    by apply pairStep_complete.
  - split_and!; try done.
    + intros n d. lia.
    + intros p vs W Hin. inversion Hin.
    + intros _. split_and!; try done. intros p h w Hin. inversion Hin.
  - simpl in Hinv. destruct Hinv as (Hsh' & Hs' & Hq' & Hlog & Hna & Hseen & Hfix).
    assert (Hall : ∀ n d, n ∈ ids -> d ∈ ids -> (n, d) ∈ list_prod ids ids).
    { intros n d Hn Hd. apply list_elem_of_In, in_prod; by apply list_elem_of_In. }
    exists r'. split_and!; try done.
    + intros n d vs W Hn Hd Hne Hr Hlen HW.
      by apply (Hseen (n, d) vs W); try apply Hall.
    + intros Hc'. destruct (Hfix Hc') as (H1 & H2 & H3). split_and!; try done.
      intros n d h w Hn Hd Hne Hadj. rewrite H1.
      rewrite (viaNeighbor_same (newNodes start) (newNodes r')) by done.
      by apply (H3 (n, d)); try apply Hall.
Qed.

End QuietPass.

(** ** From the invariants to shortest paths *)

Lemma within_le k j ids links nodes :
  (j <= k)%nat -> within k ids links nodes -> within j ids links nodes.
Proof.
  intros Hjk H n d vs W Hn Hd Hne Hr Hlen HW.
  apply (H n d vs W); try done. lia.
Qed.

Lemma within_complete k ids links nodes :
  linked ids links -> positive links -> (length ids <= S k)%nat ->
  within k ids links nodes -> complete ids links nodes.
Proof.
  intros Hlk Hp Hk H n d vs W Hn Hd Hne Hr HW.
  destruct (route_short _ _ Hlk Hp _ _ _ _ Hn Hr) as (vs' & W' & Hr' & Hle & Hlen).
  assert (dist nodes n d <= W'); [|lia].
  apply (H n d vs' W'); try done; lia.
Qed.

Lemma settled_complete ids links nodes :
  shaped ids nodes -> linked ids links -> positive links ->
  sound ids links nodes -> within 1 ids links nodes ->
  settled ids links nodes -> complete ids links nodes.
Proof.
  intros Hsh Hlk Hp Hs H1 Hset n d vs W Hn Hd Hne Hr.
  induction Hr as [a|a h vs c w W Hadj Hr IH]; intros HW; [done|].
  pose proof (adj_positive _ Hp _ _ _ Hadj) as Hw.
  pose proof (route_nonneg _ Hp _ _ _ _ Hr) as HW'.
  destruct (adj_ids _ _ Hlk _ _ _ Hadj) as (_ & Hh & _).
  destruct (decide (h = c)) as [->|Hhc].
  - assert (dist nodes a c <= w); [|lia].
    apply (H1 a c [c] w); [done|done|done|by apply route_one|simpl; lia|lia].
  - assert (dist nodes h c <= W) by (apply IH; try done; lia).
    specialize (Hset a c h w Hn Hd Hne Hadj).
    rewrite (viaNeighbor_sound ids links) in Hset by done. lia.
Qed.

(** At the end of a run: the entries of reachable pairs are shortest
    distances with a next hop on a shortest walk, and the other entries are
    untouched. *)
Lemma sound_complete_shortest ids links nodes n d :
  shaped ids nodes -> linked ids links -> positive links ->
  sound ids links nodes -> complete ids links nodes ->
  n ∈ ids -> d ∈ ids -> n ≠ d ->
  ((∃ vs W, route links n vs d W ∧ W < INFINITY) ->
   shortest links n d (dist nodes n d) ∧
   ∃ w, adj links n (hop nodes n d) w ∧
        dist nodes n d = w + dist0 nodes (hop nodes n d) d) ∧
  (¬ reachable links n d ->
   dist nodes n d = INFINITY ∧ hop nodes n d = "-").
Proof.
  intros Hsh Hlk Hp Hs Hc Hn Hd Hne. split.
  - intros (vs & W & Hr & HW).
    pose proof (Hc n d vs W Hn Hd Hne Hr HW) as Hle.
    destruct (Hs n d Hn Hd Hne) as [[Hi _]|(Hb & [vs0 Hr0] & w & Hadj & Hhop)]; [lia|].
    split.
    + split; [by exists vs0|]. intros vs' W' Hr'.
      destruct (decide (W' < INFINITY)) as [HW'|HW']; [|lia].
      by apply (Hc n d vs').
    + exists w. split; [done|].
      pose proof (adj_positive _ Hp _ _ _ Hadj) as Hw.
      destruct (adj_ids _ _ Hlk _ _ _ Hadj) as (_ & Hh & _).
      unfold dist0 in *. destruct (bool_decide (hop nodes n d = d)) eqn:E.
      * apply bool_decide_eq_true in E. rewrite E in Hadj.
        assert (dist nodes n d <= w); [|lia].
        apply (Hc n d [d] w); [done|done|done|by apply route_one|lia].
      * apply bool_decide_eq_false in E.
        destruct (Hs _ _ Hh Hd E) as [[Hi _]|(Hb' & [vs1 Hr1] & _)]; [lia|].
        assert (dist nodes n d <= w + dist nodes (hop nodes n d) d); [|lia].
        apply (Hc n d (hop nodes n d :: vs1)); [done|done|done|by constructor|lia].
  - intros Hnr. destruct (Hs n d Hn Hd Hne) as [H|(_ & [vs0 Hr0] & _)]; [done|].
    exfalso. apply Hnr. by exists vs0, (dist nodes n d).
Qed.

(** ** The relaxation loop, not paused *)

Lemma whileLoop_complete ids links :
  linked ids links -> positive links ->
  ∀ fuel k r,
    (1 <= k)%nat -> (1 <= fuel)%nat -> (length ids + 1 <= fuel + k)%nat ->
    shaped ids (newNodes r) -> sound ids links (newNodes r) ->
    within k ids links (newNodes r) -> pauseRef r = [] ->
    (hasChanges r = false -> settled ids links (newNodes r)) ->
    ∃ r' p, whileLoop fuel links ids (Z.of_nat (length ids) - 1) (Z.of_nat k) r
            = Done (r', p) ∧
            shaped ids (newNodes r') ∧ sound ids links (newNodes r') ∧
            complete ids links (newNodes r') ∧ pauseRef r' = [].
Proof.
  intros Hlk Hp fuel. induction fuel as [|fuel IH];
    intros k r Hk Hfuel Hbudget Hsh Hs Hwithin Hq Hset; [lia|].
  simpl. destruct (hasChanges r && (Z.of_nat k <=? Z.of_nat (length ids) - 1)) eqn:E.
  - apply andb_true_iff in E as [Hc Hpass]. apply Z.leb_le in Hpass.
    destruct (onePass_complete ids links k (withChanges r false))
      as (r1 & Hrun & Hsh1 & Hs1 & Hq1 & _ & _ & Hw1 & Hfix); try done.
    rewrite Hrun. simpl.
    replace (Z.of_nat k + 1) with (Z.of_nat (S k)) by lia.
    apply IH; try done; try lia.
    simpl. intros Hc1. by destruct (Hfix Hc1).
  - exists r, (Z.of_nat k). split; [done|]. split_and!; try done.
    apply andb_false_iff in E as [Hc|Hpass].
    + apply (settled_complete ids links); try done; [|by apply Hset].
      by apply (within_le k).
    + apply Z.leb_gt in Hpass. apply (within_complete k); try done. lia.
Qed.

(** ** The initialisation phase *)

Lemma initLink_spec ids nodes l :
  shaped ids nodes -> from l ∈ ids -> to l ∈ ids -> from l ≠ to l ->
  ∃ nodes', initLink l nodes = Some nodes' ∧
            shaped ids nodes' ∧
            (∀ a c, dist nodes' a c =
                    if bool_decide (a = to l ∧ c = from l)
                       || bool_decide (a = from l ∧ c = to l)
                    then weight l else dist nodes a c) ∧
            (∀ a c, hop nodes' a c =
                    if bool_decide (a = to l ∧ c = from l) then from l
                    else if bool_decide (a = from l ∧ c = to l) then to l
                    else hop nodes a c).
Proof.
  intros Hsh Hf Ht Hne.
  destruct (shaped_findNode _ _ _ Hsh Hf) as [x Hx].
  destruct (shaped_findNode _ _ _ Hsh Ht) as [y Hy].
  destruct (findNode_Some _ _ _ Hx) as [Ex _].
  destruct (findNode_Some _ _ _ Hy) as [Ey _].
  unfold initLink. rewrite Hx, Hy, Ex, Ey.
  eexists. split; [reflexivity|].
  set (e1 := {| distance := weight l; nextHop := to l; isNew := true;
                isProcessing := false; calculated := true |}).
  set (e2 := {| distance := weight l; nextHop := from l; isNew := true;
                isProcessing := false; calculated := true |}).
  assert (Hsh1 : shaped ids (setEntry nodes (from l) (to l) e1)).
  { apply shaped_setEntry; [done|]. apply Hsh. done. }
  assert (Hf1 : is_Some (findNode (setEntry nodes (from l) (to l) e1) (to l))).
  { by eapply shaped_findNode. }
  split_and!.
  - apply shaped_setEntry; [done|]. apply Hsh1. done.
  - intros a c. rewrite dist_setEntry by done. simpl.
    destruct (bool_decide (a = to l ∧ c = from l)); [done|]. simpl.
    rewrite dist_setEntry by eauto. done.
  - intros a c. rewrite hop_setEntry by done. simpl.
    destruct (bool_decide (a = to l ∧ c = from l)); [done|].
    rewrite hop_setEntry by eauto. done.
Qed.

Lemma adj_snoc seen l a b w :
  adj (seen ++ [l]) a b w ↔
  adj seen a b w ∨ (weight l = w ∧ ((from l = a ∧ to l = b) ∨ (from l = b ∧ to l = a))).
Proof.
  unfold adj. split.
  - intros (l' & Hin & Hw & H). apply elem_of_app in Hin as [Hin|Hin].
    + left. eauto.
    + apply list_elem_of_singleton in Hin as ->. by right.
  - intros [(l' & Hin & Hw & H)|[Hw H]].
    + exists l'. split_and!; try done. apply elem_of_app. by left.
    + exists l. split_and!; try done. apply elem_of_app. right. by constructor.
Qed.

Lemma initStep_quiet ids links seen l s :
  from l ∈ ids -> to l ∈ ids -> from l ≠ to l ->
  initInv ids seen s ->
  ∃ s', initStep links l s = Done s' ∧ initInv ids (seen ++ [l]) s' ∧
        hasChanges s' = hasChanges s ∧ passLog s' = passLog s.
Proof.
  intros Hf Ht Hne (Hsh & Hq & Hinv).
  unfold initStep. rewrite readPause_quiet by done.
  destruct (initLink_spec ids (newNodes s) l Hsh Hf Ht Hne)
    as (nodes' & -> & Hsh' & Hdist & Hhop).
  eexists. split; [reflexivity|]. split; [|done].
  split; [done|]. split; [done|]. simpl.
  intros n d. rewrite Hdist, Hhop.
  destruct (bool_decide (n = to l ∧ d = from l)) eqn:E1.
  { apply bool_decide_eq_true in E1 as [-> ->]. left. exists (weight l).
    split_and!; try done. apply adj_snoc. right. split; [done|]. by right. }
  destruct (bool_decide (n = from l ∧ d = to l)) eqn:E2.
  { apply bool_decide_eq_true in E2 as [-> ->]. left. exists (weight l).
    split_and!; try done. apply adj_snoc. right. split; [done|]. by left. }
  simpl. apply bool_decide_eq_false in E1, E2.
  destruct (Hinv n d) as [(w & Ha & Hd & Hh)|(Hno & Hd & Hh)].
  - left. exists w. split_and!; try done. apply adj_snoc. by left.
  - right. split_and!; try done. intros w Ha. apply adj_snoc in Ha as [Ha|[_ Ha]].
    + by apply (Hno w).
    + destruct Ha as [[<- <-]|[<- <-]]; [by apply E2|by apply E1].
Qed.

Lemma init_quiet ids links shown nodes :
  linked ids links -> shaped ids nodes -> fresh nodes ->
  ∃ s, initPhase nodes links shown [] = Done s ∧
       initInv ids links s ∧ hasChanges s = true ∧ passLog s = [].
Proof.
  intros [Hl _] Hsh Hfresh. unfold initPhase.
  destruct (forOf_inv (fun seen s => initInv ids seen s ∧ hasChanges s = true
                                     ∧ passLog s = [])
              (initStep links) links []
              {| newNodes := nodes; hasChanges := true; pauseRef := [];
                 passLog := []; stateLinks := shown |}) as (s & Hrun & Hinv).
  - intros seen l s Hin (Hinv & Hc & Hlog).
    destruct (Hl l Hin) as (Hf & Ht & Hne).
    destruct (initStep_quiet ids links seen l s Hf Ht Hne Hinv)
      as (s' & Hs' & Hinv' & Hc' & Hlog').
    exists s'. split; [done|]. split; [done|]. split; congruence.
  - split; [|done]. split; [done|]. split; [done|]. simpl. intros n d. right.
    destruct (Hfresh n d) as [Hd Hh]. split; [|done].
    intros w (l & Hin & _). inversion Hin.
  - exists s. done.
Qed.

Lemma initInv_sound ids links s :
  linked ids links -> positive links -> belowSentinel links ->
  initInv ids links s ->
  sound ids links (newNodes s) ∧ within 1 ids links (newNodes s).
Proof.
  intros Hlk Hp Hb (Hsh & Hq & Hinv). split.
  - intros n d Hn Hd Hne. destruct (Hinv n d) as [(w & Ha & Hdist & Hhop)|(_ & H)].
    + right. rewrite Hdist, Hhop.
      pose proof (adj_positive _ Hp _ _ _ Ha) as Hw.
      assert (w < INFINITY) by (destruct Ha as (l & Hl & <- & _); by apply Hb).
      split_and!; try done.
      * exists [d]. by apply route_one.
      * exists w. split; [done|]. unfold dist0. rewrite bool_decide_eq_true_2 by done. lia.
    + by left.
  - intros n d vs W Hn Hd Hne Hr Hlen HW.
    inversion Hr as [|a h vs' c w W' Hadj Hr' E1 E2 E3 E4]; subst; [done|].
    destruct vs' as [|? ?]; [|simpl in Hlen; lia].
    inversion Hr'; subst.
    destruct (Hinv n d) as [(w' & Ha & Hdist & _)|(Hno & _)].
    + destruct Hlk as [_ Huniq]. rewrite (Huniq n d w w') by done. lia.
    + by destruct (Hno w).
Qed.

(** ** A whole run that is not paused *)

Lemma converge_quiet ids links shown nodes :
  linked ids links -> positive links -> belowSentinel links ->
  shaped ids nodes -> fresh nodes ->
  ∃ r p, converge nodes links shown [] = Done (r, p) ∧
         shaped ids (newNodes r) ∧ sound ids links (newNodes r) ∧
         complete ids links (newNodes r).
Proof.
  intros Hlk Hp Hb Hsh Hfresh.
  destruct (init_quiet ids links shown nodes Hlk Hsh Hfresh)
    as (s & Hinit & Hinv & Hc & Hlog).
  destruct (initInv_sound ids links s Hlk Hp Hb Hinv) as [Hs Hw].
  destruct Hinv as (Hsh' & Hq & _).
  assert (Hlen : length nodes = length ids).
  { destruct Hsh as [<- _]. by rewrite length_map. }
  assert (Hids : map id nodes = ids) by apply Hsh.
  destruct (whileLoop_complete ids links Hlk Hp (S (length nodes)) 1 s)
    as (r & p & Hrun & Hsh2 & Hs2 & Hc2 & _); try done; try lia.
  { intros Hc'. congruence. }
  exists r, p. split_and!; try done.
  unfold converge. rewrite Hinit, Hids. rewrite <- Hlen in Hrun. exact Hrun.
Qed.

(** ** What [handleSetupComplete] builds *)

Lemma nodeName_inj i j :
  (i < 191)%nat -> (j < 191)%nat -> nodeName i = nodeName j -> i = j.
Proof.
  intros Hi Hj H. unfold nodeName in H. injection H as H.
  apply (f_equal nat_of_ascii) in H.
  rewrite !nat_ascii_embedding in H by lia. lia.
Qed.

Lemma elem_of_nodeNames N n :
  n ∈ nodeNames N ↔ ∃ i, (i < N)%nat ∧ n = nodeName i.
Proof.
  unfold nodeNames. rewrite list_elem_of_In, in_map_iff. split.
  - intros (i & <- & Hi). apply in_seq in Hi. exists i. split; [lia|done].
  - intros (i & Hi & ->). exists i. split; [done|]. apply in_seq. lia.
Qed.

Ltac same_decision :=
  match goal with
  | |- (if bool_decide ?P then _ else _) = (if bool_decide ?Q then _ else _) =>
      rewrite (bool_decide_ext P Q); [reflexivity|]
  end.

Lemma baselineTable_lookup ids self d :
  baselineTable ids self !! d =
  if bool_decide (d ∈ ids ∧ d ≠ self) then Some baseline else None.
Proof.
  unfold baselineTable. induction ids as [|x ids IH].
  - rewrite filter_nil. change (list_to_map (map _ [])) with (∅ : gmap string Entry).
    rewrite lookup_empty.
    rewrite bool_decide_eq_false_2; [done|]. intros [H _]. inversion H.
  - rewrite filter_cons. destruct (decide (x ≠ self)) as [Hx|Hx].
    + simpl. destruct (decide (d = x)) as [->|Hd].
      * rewrite lookup_insert_eq. rewrite bool_decide_eq_true_2; [done|].
        split; [by left|done].
      * rewrite lookup_insert_ne by done. simpl in IH. rewrite IH.
        same_decision. rewrite elem_of_cons. naive_solver.
    + simpl in IH. rewrite IH. same_decision. rewrite elem_of_cons.
      apply dec_stable in Hx. naive_solver.
Qed.

Lemma findNode_tabulate (T : string -> gmap string Entry) ids n :
  findNode (map (fun m => {| id := m; routingTable := T m |}) ids) n =
  if bool_decide (n ∈ ids) then Some {| id := n; routingTable := T n |} else None.
Proof.
  unfold findNode. induction ids as [|x ids IH].
  - rewrite bool_decide_eq_false_2; [done|]. intros H. inversion H.
  - cbn [map List.find id]. destruct (bool_decide (x = n)) eqn:E.
    + apply bool_decide_eq_true in E as ->.
      rewrite bool_decide_eq_true_2; [done|by left].
    + apply bool_decide_eq_false in E. rewrite IH.
      same_decision. rewrite elem_of_cons. naive_solver.
Qed.

Lemma entryOf_newNodesOf N n d :
  entryOf (newNodesOf N) n d =
  if bool_decide (n ∈ nodeNames N ∧ d ∈ nodeNames N ∧ n ≠ d)
  then Some baseline else None.
Proof.
  unfold entryOf, newNodesOf. rewrite findNode_tabulate.
  destruct (bool_decide (n ∈ nodeNames N)) eqn:E; simpl.
  - apply bool_decide_eq_true in E. rewrite baselineTable_lookup.
    same_decision. naive_solver.
  - apply bool_decide_eq_false in E.
    rewrite bool_decide_eq_false_2; [done|]. naive_solver.
Qed.

Lemma newNodesOf_shaped N : shaped (nodeNames N) (newNodesOf N).
Proof.
  split.
  - unfold newNodesOf. rewrite map_map. simpl. apply map_id.
  - intros n d. rewrite entryOf_newNodesOf.
    destruct (bool_decide _) eqn:E.
    + apply bool_decide_eq_true in E. split; [done|eauto].
    + apply bool_decide_eq_false in E. split; [intros [? ?]; done|done].
Qed.

Lemma newNodesOf_fresh N : fresh (newNodesOf N).
Proof.
  intros n d. unfold dist, hop. rewrite entryOf_newNodesOf.
  by destruct (bool_decide _).
Qed.

Lemma elem_of_newLinks N distances l :
  l ∈ newLinks N distances ↔
  ∃ i j, (j < i < N)%nat ∧ cell distances i j ≠ INFINITY ∧
         l = {| from := nodeName j; to := nodeName i; weight := cell distances i j |}.
Proof.
  unfold newLinks, linksOfRow. rewrite list_elem_of_In, in_flat_map. split.
  - intros (i & Hi & Hl). apply in_seq in Hi. apply in_flat_map in Hl as (j & Hj & Hl).
    apply in_seq in Hj. destruct (cell distances i j =? INFINITY) eqn:E; [done|].
    apply Z.eqb_neq in E. destruct Hl as [<-|[]]. exists i, j. split_and!; try done; lia.
  - intros (i & j & Hij & Hc & ->). exists i. split; [apply in_seq; lia|].
    apply in_flat_map. exists j. split; [apply in_seq; lia|].
    apply Z.eqb_neq in Hc. rewrite Hc. by left.
Qed.

Lemma newLinks_linked N distances :
  (N <= 191)%nat -> linked (nodeNames N) (newLinks N distances).
Proof.
  intros HN. split.
  - intros l Hl. apply elem_of_newLinks in Hl as (i & j & Hij & _ & ->). simpl.
    split_and!.
    + apply elem_of_nodeNames. exists j. split; [lia|done].
    + apply elem_of_nodeNames. exists i. split; [lia|done].
    + intros E. apply nodeName_inj in E; lia.
  - intros a b w w' (l & Hl & Hw & H) (l' & Hl' & Hw' & H').
    apply elem_of_newLinks in Hl as (i & j & Hij & _ & ->).
    apply elem_of_newLinks in Hl' as (i' & j' & Hij' & _ & ->).
    simpl in *. subst w w'.
    assert (i = i' ∧ j = j') as [-> ->]; [|done].
    destruct H as [[<- <-]|[<- <-]], H' as [[E1 E2]|[E1 E2]];
      apply nodeName_inj in E1; apply nodeName_inj in E2; lia.
Qed.

Lemma newLinks_positive N distances :
  (∀ i j, (j < i < N)%nat -> cell distances i j = INFINITY ∨ 1 <= cell distances i j) ->
  positive (newLinks N distances).
Proof.
  intros H l Hl. apply elem_of_newLinks in Hl as (i & j & Hij & Hc & ->). simpl.
  destruct (H i j Hij); done.
Qed.

Lemma newLinks_below N distances :
  (∀ i j, (j < i < N)%nat -> cell distances i j <= INFINITY) ->
  belowSentinel (newLinks N distances).
Proof.
  intros H l Hl. apply elem_of_newLinks in Hl as (i & j & Hij & Hc & ->). simpl.
  specialize (H i j Hij). lia.
Qed.

(** ** Relaxation under any pause schedule *)

Lemma evolves_refl ids links r : shaped ids (newNodes r) -> evolves ids links r r.
Proof.
  intros Hsh. split_and!; try done.
  - intros n d. lia.
  - intros H1 H2. congruence.
Qed.

Lemma evolves_trans ids links r1 r2 r3 :
  evolves ids links r1 r2 -> evolves ids links r2 r3 -> evolves ids links r1 r3.
Proof.
  intros (Hsh2 & Hlog2 & Hna2 & Hs2 & Hc2 & Hq2 & Hd2)
         (Hsh3 & Hlog3 & Hna3 & Hs3 & Hc3 & Hq3 & Hd3).
  split_and!; try done.
  - congruence.
  - intros n d. specialize (Hna2 n d). specialize (Hna3 n d). lia.
  - auto.
  - auto.
  - intros Hc. destruct (hasChanges r2) eqn:E2; [rewrite Hc3 in Hc; done|].
    destruct (Hq2 eq_refl) as [H1 H2]. destruct (Hq3 Hc) as [H3 H4].
    split; intros a c; [by rewrite H3|by rewrite H4].
  - intros Hc1 Hc3'. destruct (hasChanges r2) eqn:E2.
    + destruct (Hd2 Hc1 eq_refl) as (a & c & Hlt). exists a, c.
      specialize (Hna3 a c). lia.
    + destruct (Hd3 eq_refl Hc3') as (a & c & Hlt). exists a, c.
      destruct (Hq2 eq_refl) as [H1 _]. rewrite <- H1. done.
Qed.

Lemma readPause_nodes r :
  newNodes (readPause r).2 = newNodes r ∧
  hasChanges (readPause r).2 = hasChanges r ∧
  passLog (readPause r).2 = passLog r ∧
  stateLinks (readPause r).2 = stateLinks r.
Proof. unfold readPause. by destruct (pauseRef r). Qed.

Lemma relaxStep_evolves ids links n d r :
  shaped ids (newNodes r) -> linked ids links ->
  n ∈ ids -> d ∈ ids -> n ≠ d ->
  ∃ r', relaxStep links n d r = Done r' ∧ evolves ids links r r'.
Proof.
  intros Hsh Hlk Hn Hd Hne.
  destruct (relaxStep_spec ids links n d r Hsh Hlk Hn Hd Hne)
    as (r' & Hrun & Hsh' & Hc' & _ & Hlog' & Hdist & Hhop).
  destruct (scan_facts (newNodes r) n d links
              {| minDistance := dist (newNodes r) n d;
                 bestHop := hop (newNodes r) n d;
                 changed := hasChanges r |}) as (Hle & _ & Hcase).
  fold (relaxBest links (newNodes r) n d (hasChanges r)) in Hle, Hcase, Hc'.
  set (b := relaxBest links (newNodes r) n d (hasChanges r)) in *.
  simpl in Hle, Hcase.
  exists r'. split; [done|]. split_and!; try done.
  - intros a c. rewrite Hdist. destruct (bool_decide (a = n ∧ c = d)) eqn:E; [|lia].
    apply bool_decide_eq_true in E as [-> ->]. done.
  - intros Hp Hs.
    by destruct (sound_step ids links (newNodes r) (newNodes r') n d (hasChanges r)).
  - intros Hc. rewrite Hc'. destruct Hcase as [->|[? _]]; done.
  - intros Hc. rewrite Hc' in Hc. destruct Hcase as [Heq|[? _]]; [|congruence].
    split; intros a c; [rewrite Hdist|rewrite Hhop];
      (destruct (bool_decide (a = n ∧ c = d)) eqn:E; [|done]);
      apply bool_decide_eq_true in E as [-> ->]; by rewrite Heq.
  - intros Hc Hct. rewrite Hc' in Hct.
    destruct Hcase as [Heq|(_ & Hlt & _)].
    + rewrite Heq in Hct. simpl in Hct. congruence.
    + exists n, d. by rewrite Hdist, bool_decide_eq_true_2.
Qed.

Lemma pairStep_evolves ids links n d r :
  shaped ids (newNodes r) -> linked ids links -> n ∈ ids -> d ∈ ids ->
  ∃ r', pairStep links n d r = Done r' ∧ evolves ids links r r'.
Proof.
  intros Hsh Hlk Hn Hd. unfold pairStep.
  destruct (readPause_nodes r) as (E1 & E2 & E3 & E4).
  destruct (readPause r) as [paused r1]. simpl in *.
  assert (Hskip : evolves ids links r r1).
  { split_and!; rewrite ?E1, ?E2, ?E3; try done.
    - intros a c. lia.
    - congruence. }
  destruct paused; [by exists r1|].
  destruct (decide (n = d)) as [->|Hne].
  - rewrite bool_decide_eq_false_2 by (intros H; by apply H). by exists r1.
  - rewrite bool_decide_eq_true_2 by done.
    destruct (relaxStep_evolves ids links n d r1) as (r' & Hrun & Hev);
      try done; [by rewrite E1|].
    exists r'. split; [done|]. by apply (evolves_trans _ _ _ r1).
Qed.

Lemma onePass_evolves ids links r :
  shaped ids (newNodes r) -> linked ids links ->
  ∃ r', onePass links ids r = Done r' ∧ evolves ids links r r'.
Proof.
  intros Hsh Hlk. unfold onePass. rewrite forOf_nested.
  destruct (forOf_inv (fun _ s => evolves ids links r s)
              (fun p => pairStep links p.1 p.2) (list_prod ids ids) [] r)
    as (r' & Hrun & Hinv).
  - intros _ [n d] s Hin Hev. simpl.
    apply list_elem_of_In, in_prod_iff in Hin as [Hn Hd].
    apply list_elem_of_In in Hn, Hd.
    destruct (pairStep_evolves ids links n d s) as (s' & Hs' & Hev');
      try done; [apply Hev|].
    exists s'. split; [done|]. by apply (evolves_trans _ _ _ s).
  - by apply evolves_refl.
  - by exists r'.
Qed.

Lemma stopsAtFirstQuiet_cons log : stopsAtFirstQuiet log -> stopsAtFirstQuiet (true :: log).
Proof.
  intros H [|i] Hi; [done|]. simpl. apply H. simpl in Hi. lia.
Qed.

(** The relaxation loop under any pause schedule: it ends, after at most
    [maxPasses + 1 - pass] passes, the last of which is the only one that
    may have found nothing to change. *)
Lemma whileLoop_any ids links maxPasses :
  linked ids links ->
  ∀ fuel pass r,
    shaped ids (newNodes r) ->
    (Z.to_nat (maxPasses + 1 - pass) < fuel)%nat ->
    ∃ r' p log,
      whileLoop fuel links ids maxPasses pass r = Done (r', p) ∧
      shaped ids (newNodes r') ∧
      notAbove (newNodes r') (newNodes r) ∧
      (positive links -> sound ids links (newNodes r) -> sound ids links (newNodes r')) ∧
      passLog r' = passLog r ++ log ∧
      p = pass + Z.of_nat (length log) ∧
      (length log <= Z.to_nat (maxPasses + 1 - pass))%nat ∧
      stopsAtFirstQuiet log.
Proof.
  intros Hlk fuel. induction fuel as [|fuel IH]; intros pass r Hsh Hfuel; [lia|].
  simpl. destruct (hasChanges r && (pass <=? maxPasses)) eqn:E.
  - apply andb_true_iff in E as [Hc Hpass]. apply Z.leb_le in Hpass.
    destruct (onePass_evolves ids links (withChanges r false))
      as (r1 & Hrun & Hsh1 & Hlog1 & Hna1 & Hs1 & _); try done.
    rewrite Hrun. simpl.
    destruct (IH (pass + 1) (withLog r1 (passLog r1 ++ [hasChanges r1])))
      as (r' & p & log & Hrun' & Hsh' & Hna' & Hs' & Hlog' & Hp & Hlen & Hstop);
      [done|lia|].
    exists r', p, (hasChanges r1 :: log). split; [done|].
    simpl in *. split_and!; try done.
    + intros n d. specialize (Hna1 n d). specialize (Hna' n d). lia.
    + auto.
    + rewrite Hlog', Hlog1, <- app_assoc. done.
    + lia.
    + lia.
    + destruct log as [|c log].
      * intros i Hi. simpl in Hi. lia.
      * destruct (hasChanges r1) eqn:E1; [by apply stopsAtFirstQuiet_cons|].
        exfalso. revert Hrun'. destruct fuel as [|fuel']; [done|]. simpl.
        rewrite E1. simpl. intros [= <- <-]. simpl in Hlog'.
        apply (f_equal length) in Hlog'. rewrite !length_app in Hlog'.
        simpl in Hlog'. lia.
  - exists r, pass, []. split; [done|]. rewrite app_nil_r. simpl.
    split_and!; try done; try lia.
    + intros n d. lia.
    + intros i Hi. simpl in Hi. lia.
Qed.

(** ** Initialisation under any pause schedule *)

Lemma initLink_sound ids links nodes l nodes' :
  shaped ids nodes -> linked ids links -> positive links -> belowSentinel links ->
  l ∈ links -> initLink l nodes = Some nodes' ->
  sound ids links nodes -> directOnly nodes ->
  sound ids links nodes' ∧ directOnly nodes'.
Proof.
  intros Hsh Hlk Hp Hb Hl Hrun Hs Hdir.
  destruct Hlk as [Hends Huniq]. destruct (Hends l Hl) as (Hf & Ht & Hne).
  destruct (initLink_spec ids nodes l Hsh Hf Ht Hne)
    as (nodes2 & Hrun2 & _ & Hdist & Hhop).
  rewrite Hrun in Hrun2. injection Hrun2 as <-.
  pose proof (Hp l Hl) as Hw1. pose proof (Hb l Hl) as Hw2.
  split.
  - intros a c Ha Hc Hac. unfold entryOk. rewrite Hdist, Hhop.
    destruct (bool_decide (a = to l ∧ c = from l)) eqn:E1.
    { apply bool_decide_eq_true in E1 as [-> ->]. simpl. right.
      assert (Hadj : adj links (to l) (from l) (weight l)).
      { exists l. split_and!; try done. by right. }
      split_and!; try done.
      - exists [from l]. by apply route_one.
      - exists (weight l). split; [done|]. unfold dist0.
        rewrite bool_decide_eq_true_2 by done. lia. }
    destruct (bool_decide (a = from l ∧ c = to l)) eqn:E2.
    { apply bool_decide_eq_true in E2 as [-> ->]. simpl. right.
      assert (Hadj : adj links (from l) (to l) (weight l)).
      { exists l. split_and!; try done. by left. }
      split_and!; try done.
      - exists [to l]. by apply route_one.
      - exists (weight l). split; [done|]. unfold dist0.
        rewrite bool_decide_eq_true_2 by done. lia. }
    simpl. destruct (Hs a c Ha Hc Hac) as [H|(H1 & H2 & w & H3 & H4)]; [by left|].
    right. split; [done|]. split; [done|]. exists w. split; [done|].
    assert (Hh : hop nodes a c = c) by (apply Hdir; lia).
    rewrite Hh in H4 |- *. unfold dist0 in H4 |- *.
    rewrite bool_decide_eq_true_2 in H4 |- * by done. lia.
  - intros a c. rewrite Hdist, Hhop.
    destruct (bool_decide (a = to l ∧ c = from l)) eqn:E1.
    { apply bool_decide_eq_true in E1 as [-> ->]. done. }
    destruct (bool_decide (a = from l ∧ c = to l)) eqn:E2.
    { apply bool_decide_eq_true in E2 as [-> ->]. done. }
    simpl. apply Hdir.
Qed.

(** What the initialisation phase, paused or not, leaves behind. *)
Lemma initPhase_any ids links shown nodes pauses :
  linked ids links -> shaped ids nodes ->
  ∃ s, initPhase nodes links shown pauses = Done s ∧
       shaped ids (newNodes s) ∧ hasChanges s = true ∧ passLog s = [] ∧
       (∀ n d, (∀ w, ¬ adj links n d w) ->
               dist (newNodes s) n d = dist nodes n d) ∧
       (positive links -> belowSentinel links -> fresh nodes ->
        sound ids links (newNodes s) ∧ directOnly (newNodes s)).
Proof.
  intros Hlk Hsh. unfold initPhase.
  destruct (forOf_inv
              (fun _ s => shaped ids (newNodes s) ∧ hasChanges s = true ∧
                          passLog s = [] ∧
                          (∀ n d, (∀ w, ¬ adj links n d w) ->
                                  dist (newNodes s) n d = dist nodes n d) ∧
                          (positive links -> belowSentinel links -> fresh nodes ->
                           sound ids links (newNodes s) ∧ directOnly (newNodes s)))
              (initStep links) links []
              {| newNodes := nodes; hasChanges := true; pauseRef := pauses;
                 passLog := []; stateLinks := shown |}) as (s & Hrun & Hinv).
  - intros _ l s Hl (Hsh' & Hc & Hlog & Hkeep & Hsound). unfold initStep.
    destruct (readPause_nodes s) as (E1 & E2 & E3 & _).
    destruct (readPause s) as [paused s1]. simpl in *.
    destruct paused.
    { exists s1. split; [done|]. rewrite E1, E2, E3. done. }
    destruct Hlk as [Hends Huniq]. destruct (Hends l Hl) as (Hf & Ht & Hne).
    rewrite E1.
    destruct (initLink_spec ids (newNodes s) l Hsh' Hf Ht Hne)
      as (nodes' & Hrun' & Hsh2 & Hdist & Hhop).
    rewrite Hrun'. eexists. split; [reflexivity|]. simpl.
    rewrite E2, E3. split_and!; try done.
    + intros n d Hno. rewrite Hdist, <- Hkeep by done.
      destruct (bool_decide (n = to l ∧ d = from l)) eqn:E4.
      { apply bool_decide_eq_true in E4 as [-> ->]. exfalso.
        apply (Hno (weight l)). exists l. split_and!; try done. by right. }
      destruct (bool_decide (n = from l ∧ d = to l)) eqn:E5; [|done].
      apply bool_decide_eq_true in E5 as [-> ->]. exfalso.
      apply (Hno (weight l)). exists l. split_and!; try done. by left.
    + intros Hp Hb Hfr. destruct (Hsound Hp Hb Hfr) as [Hs Hdir].
      by apply (initLink_sound ids links (newNodes s) l).
  - simpl. split_and!; try done. intros Hp Hb Hfr. split.
    + intros n d _ _ _. left. apply Hfr.
    + intros n d Hne. by destruct (Hfr n d).
  - by exists s.
Qed.

(** ** A whole run under any pause schedule *)

Lemma converge_any ids links shown nodes pauses :
  linked ids links -> shaped ids nodes ->
  ∃ r p, converge nodes links shown pauses = Done (r, p) ∧
         shaped ids (newNodes r) ∧
         p = 1 + Z.of_nat (length (passLog r)) ∧
         Z.of_nat (length (passLog r)) <= Z.max 0 (Z.of_nat (length nodes) - 1) ∧
         stopsAtFirstQuiet (passLog r) ∧
         (∀ n d, (∀ w, ¬ adj links n d w) ->
                 dist (newNodes r) n d <= dist nodes n d) ∧
         (positive links -> belowSentinel links -> fresh nodes ->
          sound ids links (newNodes r)).
Proof.
  intros Hlk Hsh.
  destruct (initPhase_any ids links shown nodes pauses Hlk Hsh)
    as (s & Hinit & Hsh1 & Hc & Hlog & Hkeep & Hsound).
  assert (Hids : map id nodes = ids) by apply Hsh.
  destruct (whileLoop_any ids links (Z.of_nat (length nodes) - 1) Hlk
              (S (length nodes)) 1 s Hsh1)
    as (r & p & log & Hrun & Hsh2 & Hna & Hs2 & Hlog2 & Hp & Hlen & Hstop); [lia|].
  rewrite Hlog in Hlog2. simpl in Hlog2. subst log.
  exists r, p.
  split; [unfold converge; rewrite Hinit, Hids; exact Hrun|].
  split; [done|]. split; [lia|]. split; [lia|]. split; [done|]. split.
  - intros n d Hno. specialize (Hna n d). rewrite <- (Hkeep n d Hno). done.
  - intros Hp' Hb Hfr. apply Hs2; [done|]. by destruct (Hsound Hp' Hb Hfr).
Qed.

(** ** Checking walks by computation *)

Lemma weightBetween_adj links a b w :
  weightBetween links a b = Some w -> adj links a b w.
Proof.
  unfold weightBetween. destruct (List.find _ links) as [l|] eqn:E; [|done].
  intros [= <-]. apply find_some in E as [Hin Hb]. exists l.
  split; [by apply list_elem_of_In|]. split; [done|].
  apply orb_true_iff in Hb as [Hb|Hb]; apply andb_true_iff in Hb as [H1 H2];
    apply bool_decide_eq_true in H1, H2; [by left|by right].
Qed.

Lemma last_cons_shift (a b : string) vs : List.last (b :: vs) a = List.last vs b.
Proof.
  revert a b. induction vs as [|c vs IH]; intros a b; [done|].
  change (List.last (b :: c :: vs) a) with (List.last (c :: vs) a).
  rewrite IH. symmetry. apply IH.
Qed.

Lemma walkWeight_route links a vs W :
  walkWeight links a vs = Some W -> route links a vs (List.last vs a) W.
Proof.
  revert a W. induction vs as [|b vs IH]; intros a W; simpl.
  - intros [= <-]. constructor.
  - destruct (weightBetween links a b) as [w|] eqn:Ew; [|done]. simpl.
    destruct (walkWeight links b vs) as [W'|] eqn:EW; [|done]. simpl.
    intros [= <-]. apply weightBetween_adj in Ew.
    change (route links a (b :: vs) (List.last (b :: vs) a) (w + W')).
    rewrite last_cons_shift. apply route_step; [done|by apply IH].
Qed.

(** ** Sessions started by the form *)

Lemma runSession_unfold nodeCount distances pauses :
  runSession nodeCount distances pauses =
  '(r, _) ← converge (newNodesOf (Z.to_nat nodeCount))
                     (newLinks (Z.to_nat nodeCount) distances)
                     (newLinks (Z.to_nat nodeCount) distances) pauses;
  Done (Network.mkState false (newNodes r) (stateLinks r) None None false false 0
          "Simulation complete").
Proof. reflexivity. Qed.

Lemma session_wellformed nodeCount distances :
  validSession nodeCount distances ->
  linked (nodeNames (Z.to_nat nodeCount)) (newLinks (Z.to_nat nodeCount) distances) ∧
  positive (newLinks (Z.to_nat nodeCount) distances).
Proof.
  intros (Hn & _ & Hw). split.
  - apply newLinks_linked. lia.
  - by apply newLinks_positive.
Qed.

Lemma session_below nodeCount distances :
  weightsBelowSentinel nodeCount distances ->
  belowSentinel (newLinks (Z.to_nat nodeCount) distances).
Proof. apply newLinks_below. Qed.

(** The cells below the diagonal of a three-node matrix. *)
Lemma cells3 (P : nat -> nat -> Prop) :
  P 1%nat 0%nat -> P 2%nat 0%nat -> P 2%nat 1%nat ->
  ∀ i j, (j < i < 3)%nat -> P i j.
Proof.
  intros H10 H20 H21 i j Hij.
  assert (i = 1 ∨ i = 2)%nat as [-> | ->] by lia.
  - assert (j = 0)%nat as -> by lia. done.
  - assert (j = 0 ∨ j = 1)%nat as [-> | ->] by lia; done.
Qed.

Lemma nodeNames3 n :
  n ∈ nodeNames 3 -> n = "A" ∨ n = "B" ∨ n = "C".
Proof.
  intros H. apply elem_of_nodeNames in H as (i & Hi & ->).
  assert (i = 0 ∨ i = 1 ∨ i = 2)%nat as [-> | [-> | ->]] by lia; auto.
Qed.

Lemma scenario_valid : validSession 3 scenario.
Proof.
  split; [lia|]. split; [split; [done|repeat constructor]|].
  change (Z.to_nat 3) with 3%nat.
  apply (cells3 (fun i j => cell scenario i j = INFINITY ∨ 1 <= cell scenario i j));
    vm_compute; auto; right; discriminate.
Qed.

Lemma scenario_weights : weightsBelowSentinel 3 scenario.
Proof.
  unfold weightsBelowSentinel. change (Z.to_nat 3) with 3%nat.
  apply (cells3 (fun i j => cell scenario i j <= INFINITY)); vm_compute; discriminate.
Qed.

Lemma scenario_distances :
  distancesBelowSentinel (nodeNames (Z.to_nat 3)) (newLinks (Z.to_nat 3) scenario).
Proof.
  assert (Hchk : ∀ n vs d W,
             walkWeight (newLinks 3 scenario) n vs = Some W ->
             List.last vs n = d -> W < INFINITY ->
             ∃ vs W, route (newLinks (Z.to_nat 3) scenario) n vs d W ∧ W < INFINITY).
  { intros n vs d W HW <- Hlt. exists vs, W. split; [|done].
    by apply walkWeight_route. }
  intros n d Hn Hd _.
  apply nodeNames3 in Hn as [-> | [-> | ->]];
    apply nodeNames3 in Hd as [-> | [-> | ->]].
  - by apply (Hchk "A" [] "A" 0).
  - by apply (Hchk "A" ["B"] "B" 2).
  - by apply (Hchk "A" ["B"; "C"] "C" 5).
  - by apply (Hchk "B" ["A"] "A" 2).
  - by apply (Hchk "B" [] "B" 0).
  - by apply (Hchk "B" ["C"] "C" 3).
  - by apply (Hchk "C" ["B"; "A"] "A" 5).
  - by apply (Hchk "C" ["B"] "B" 3).
  - by apply (Hchk "C" [] "C" 0).
Qed.

Lemma scenario_run :
  ∃ st, runSession 3 scenario [] = Done st ∧ scenarioRoutes (Network.nodes st).
Proof.
  eexists. split; [vm_compute; reflexivity|]. by vm_compute.
Qed.

Lemma sound_bounded ids links nodes :
  shaped ids nodes -> sound ids links nodes -> bounded nodes.
Proof.
  intros Hsh Hs n d.
  destruct (decide (dist nodes n d = INFINITY)) as [->|Hne]; [lia|].
  destruct (dist_finite _ _ _ _ Hsh Hne) as (Hn & Hd & Hnd).
  pose proof (sound_bounds _ _ _ _ _ Hs Hn Hd Hnd). lia.
Qed.

Lemma sound_unreachable ids links nodes :
  sound ids links nodes -> unreachableKept ids links nodes.
Proof.
  intros Hs n d Hn Hd Hne Hnr.
  destruct (Hs n d Hn Hd Hne) as [H|(_ & [vs Hr] & _)]; [done|].
  exfalso. apply Hnr. by exists vs, (dist nodes n d).
Qed.


Lemma findNode_mapTables f nodes n :
  findNode (mapTables f nodes) n =
  (fun x => {| id := id x; routingTable := f <$> routingTable x |}) <$> findNode nodes n.
Proof.
  unfold findNode, mapTables. induction nodes as [|x nodes IH]; [done|].
  cbn [map List.find id]. destruct (bool_decide (id x = n)); [done|apply IH].
Qed.

Lemma entryOf_mapTables f nodes n d :
  entryOf (mapTables f nodes) n d = f <$> entryOf nodes n d.
Proof.
  unfold entryOf. rewrite findNode_mapTables.
  destruct (findNode nodes n) as [x|]; [|done]. simpl. apply lookup_fmap.
Qed.

(** ** The fuel of the relaxation loop is enough

    [converge] gives the [while] loop one unit of fuel more than there are
    nodes. Whatever the session, the loop is never cut short: a run either
    completes or throws. *)

Create HintDb fuel.

Lemma bind_fuel {A B} (m : Outcome A) (f : A -> Outcome B) :
  m ≠ OutOfFuel -> (∀ a, f a ≠ OutOfFuel) -> (m ≫= f) ≠ OutOfFuel.
Proof. intros Hm Hf. destruct m; simpl; [apply Hf|done|done]. Qed.

Lemma orThrow_fuel {A} (o : option A) : orThrow o ≠ OutOfFuel.
Proof. by destruct o. Qed.

Lemma forOf_fuel {A S} (xs : list A) (body : A -> S -> Outcome S) s :
  (∀ x s, body x s ≠ OutOfFuel) -> forOf xs body s ≠ OutOfFuel.
Proof.
  intros Hbody. revert s. induction xs as [|x xs IH]; intros s; simpl; [done|].
  apply bind_fuel; [apply Hbody|apply IH].
Qed.

#[local] Hint Resolve bind_fuel orThrow_fuel forOf_fuel : fuel.

Lemma scanLink_fuel nodes n d l b : scanLink nodes n d l b ≠ OutOfFuel.
Proof.
  unfold scanLink. destruct (_ || _); [|done].
  apply bind_fuel; [auto with fuel|]. intros x. by destruct (_ <? _).
Qed.

#[local] Hint Resolve scanLink_fuel : fuel.

Lemma relaxStep_fuel links n d r : relaxStep links n d r ≠ OutOfFuel.
Proof.
  unfold relaxStep. apply bind_fuel; [auto with fuel|]. intros x.
  apply bind_fuel; [auto with fuel|]. intros cur.
  apply bind_fuel; [auto with fuel|]. done.
Qed.

#[local] Hint Resolve relaxStep_fuel : fuel.

Lemma pairStep_fuel links n d r : pairStep links n d r ≠ OutOfFuel.
Proof.
  unfold pairStep. destruct (readPause r) as [[] r1]; [done|].
  destruct (bool_decide _); [auto with fuel|done].
Qed.

Lemma initStep_fuel links l r : initStep links l r ≠ OutOfFuel.
Proof.
  unfold initStep. destruct (readPause r) as [[] r1]; [done|].
  by destruct (initLink l (newNodes r1)).
Qed.

#[local] Hint Resolve pairStep_fuel initStep_fuel : fuel.

Lemma onePass_fuel links ids r : onePass links ids r ≠ OutOfFuel.
Proof. unfold onePass. auto with fuel. Qed.

#[local] Hint Resolve onePass_fuel : fuel.

Lemma whileLoop_fuel links ids maxPasses fuel :
  ∀ pass r, (Z.to_nat (maxPasses + 1 - pass) < fuel)%nat ->
            whileLoop fuel links ids maxPasses pass r ≠ OutOfFuel.
Proof.
  induction fuel as [|fuel IH]; intros pass r Hfuel; [lia|]. simpl.
  destruct (hasChanges r && (pass <=? maxPasses)) eqn:E; [|done].
  apply andb_true_iff in E as [_ Hpass]. apply Z.leb_le in Hpass.
  apply bind_fuel; [auto with fuel|]. intros r1. apply IH. lia.
Qed.

Lemma converge_fuel nodes links shown pauses :
  converge nodes links shown pauses ≠ OutOfFuel.
Proof.
  unfold converge, initPhase. apply bind_fuel; [auto with fuel|].
  intros r0. apply whileLoop_fuel. lia.
Qed.

Lemma updateRoutingTables_fuel render current pauses :
  updateRoutingTables render current pauses ≠ OutOfFuel.
Proof.
  unfold updateRoutingTables. destruct (Network.isProcessing render); [done|].
  apply bind_fuel; [apply converge_fuel|]. by intros [r p].
Qed.

(** ** The scenarios, by computation *)

Lemma cells2 (P : nat -> nat -> Prop) :
  P 1%nat 0%nat -> ∀ i j, (j < i < 2)%nat -> P i j.
Proof.
  intros H10 i j Hij. assert (i = 1)%nat as -> by lia.
  assert (j = 0)%nat as -> by lia. done.
Qed.

Lemma scenario_linked :
  linked (nodeNames 3) (newLinks 3 scenario).
Proof. apply newLinks_linked. lia. Qed.


(** * The properties stated by the specification *)

(** C1 (as amended). In every valid session whose link weights and
    shortest-path distances stay below the sentinel 999999, the unpaused
    convergence run completes, every reachable pair holds the true
    shortest-path distance, and its next hop is a neighbour [h] with
    [distance n d = weight (n,h) + distance h d] (the distance of a node to
    itself counting as 0). In the three-node graph A-B 2, B-C 3 the run
    yields A->B 2 via B, A->C 5 via B, B->C 3 via C and C->A 5 via B. *)
Theorem C1_converged_routes_are_shortest nodeCount distances :
  validSession nodeCount distances ->
  weightsBelowSentinel nodeCount distances ->
  distancesBelowSentinel (nodeNames (Z.to_nat nodeCount))
                         (newLinks (Z.to_nat nodeCount) distances) ->
  (∃ st, runSession nodeCount distances [] = Done st ∧
         routesCorrect (nodeNames (Z.to_nat nodeCount))
                       (newLinks (Z.to_nat nodeCount) distances)
                       (Network.nodes st)) ∧
  (∃ st, runSession 3 scenario [] = Done st ∧ scenarioRoutes (Network.nodes st)).
Proof.
  intros Hvalid Hweights Hshort. split; [|exact scenario_run].
  destruct (session_wellformed _ _ Hvalid) as [Hlk Hp].
  pose proof (session_below _ _ Hweights) as Hb.
  set (N := Z.to_nat nodeCount) in *.
  destruct (converge_quiet (nodeNames N) (newLinks N distances)
              (newLinks N distances) (newNodesOf N) Hlk Hp Hb
              (newNodesOf_shaped N) (newNodesOf_fresh N))
    as (r & p & Hrun & Hsh & Hs & Hc).
  eexists. split.
  - rewrite runSession_unfold. fold N. rewrite Hrun. reflexivity.
  - simpl. intros n d Hn Hd Hne Hreach.
    destruct (sound_complete_shortest (nodeNames N) (newLinks N distances)
                (newNodes r) n d Hsh Hlk Hp Hs Hc Hn Hd Hne) as [H _].
    apply H. by apply Hshort.
Qed.

Lemma C1_witness :
  validSession 3 scenario ∧
  weightsBelowSentinel 3 scenario ∧
  distancesBelowSentinel (nodeNames (Z.to_nat 3)) (newLinks (Z.to_nat 3) scenario) ∧
  (∃ st, runSession 3 scenario [] = Done st ∧
         routesCorrect (nodeNames (Z.to_nat 3)) (newLinks (Z.to_nat 3) scenario)
                       (Network.nodes st)).
Proof.
  split; [exact scenario_valid|]. split; [exact scenario_weights|].
  split; [exact scenario_distances|].
  exact (proj1 (C1_converged_routes_are_shortest 3 scenario
                  scenario_valid scenario_weights scenario_distances)).
Defined.

(** C1 as stated fails: with A-B and B-C both of weight 600000 the session
    is valid and C is reachable from A, but the run leaves A->C at the
    sentinel with no next hop, because 1200000 is not below 999999. *)
Lemma C1_counterexample :
  validSession 3 heavy ∧
  ∃ st, runSession 3 heavy [] = Done st ∧
        lineOf (Network.nodes st) "A" "C" = (INFINITY, "-") ∧
        ¬ routesCorrect (nodeNames (Z.to_nat 3)) (newLinks (Z.to_nat 3) heavy)
                        (Network.nodes st).
Proof.
  split.
  { split; [lia|]. split; [split; [done|repeat constructor]|].
    change (Z.to_nat 3) with 3%nat.
    apply (cells3 (fun i j => cell heavy i j = INFINITY ∨ 1 <= cell heavy i j));
      vm_compute; auto; right; discriminate. }
  eexists. split; [vm_compute; reflexivity|]. split; [by vm_compute|].
  intros H.
  destruct (H "A" "C") as [_ (w & Hadj & _)].
  - apply elem_of_nodeNames. exists 0%nat. split; [simpl; lia|done].
  - apply elem_of_nodeNames. exists 2%nat. split; [simpl; lia|done].
  - done.
  - exists ["B"; "C"], 1200000.
    by apply (walkWeight_route (newLinks 3 heavy) "A" ["B"; "C"]).
  - destruct Hadj as (l & Hl & _ & Hends).
    apply elem_of_newLinks in Hl as (i & j & Hij & _ & ->).
    change (Z.to_nat 3) with 3%nat in Hij.
    assert (Hname : ∀ k, (k < 3)%nat -> nodeName k ≠ "-").
    { intros k Hk. assert (k = 0 ∨ k = 1 ∨ k = 2)%nat as [-> | [-> | ->]] by lia;
        discriminate. }
    vm_compute in Hends. destruct Hends as [[_ E]|[E _]].
    + apply (Hname i); [lia|done].
    + apply (Hname j); [lia|done].
Qed.

(** C2 (evaluation of the code). After the scenario has converged, raising
    A-B from 2 to 10 with eight clicks on "+" and letting the engine run
    after each leaves A->C at 5 via B, while a fresh session with A-B at 10
    ends with A->C at 13 via B. The engine started by an edit is the closure
    of the render in which the click happened: it runs on the old links and
    publishes them again, so the link is back at weight 2 while the edit box
    shows 10. Even on the edited links the kept distances would stay, since
    relaxation only lowers them. *)
Theorem C2_edit_is_not_reflected :
  ∃ st st' restarted,
    runSession 3 scenario [] = Done st ∧
    pressPlus 8
      (handleLinkClick {| from := "A"; to := "B"; weight := 2 |} (afterComplete st))
    = Done st' ∧
    runSession 3 scenarioEdited [] = Done restarted ∧
    Network.editWeight st' = Some 10 ∧
    lineOf (Network.nodes st') "A" "C" = (5, "B") ∧
    lineOf (Network.nodes restarted) "A" "C" = (13, "B") ∧
    weightBetween (Network.links st') "A" "B" = Some 2 ∧
    weightBetween (Network.links restarted) "A" "B" = Some 10 ∧
    let queued := applyEdit {| from := "A"; to := "B"; weight := 2 |} 10
                    (handleLinkClick {| from := "A"; to := "B"; weight := 2 |}
                                     (afterComplete st)) in
    ∃ r p, converge (Network.nodes queued) (Network.links queued)
                    (Network.links queued) [] = Done (r, p) ∧
           lineOf (newNodes r) "A" "B" = (10, "B") ∧
           lineOf (newNodes r) "A" "C" = (5, "B").
Proof.
  eexists. eexists. eexists.
  split; [vm_compute; reflexivity|]. split; [vm_compute; reflexivity|].
  split; [vm_compute; reflexivity|].
  split; [by vm_compute|]. split; [by vm_compute|]. split; [by vm_compute|].
  split; [by vm_compute|]. split; [by vm_compute|].
  eexists. eexists. split; [vm_compute; reflexivity|]. by vm_compute.
Qed.

(** C3 (evaluation of the code). An accepted [handleWeightChange] queues the
    new weight on the edited link but does not reset the tables: every
    routing entry keeps its distance and next hop and only has its three
    flags cleared. After the scenario has converged and A-B is raised to 10,
    the state handed to the restarted engine still holds A->B 2 via B and
    A->C 5 via B, where the reset of [restartSimulation] puts the
    baseline. *)
Theorem C3_edit_keeps_the_distances :
  (∀ sel newWeight st n d,
      entryOf (Network.nodes (applyEdit sel newWeight st)) n d
      = clearFlags <$> entryOf (Network.nodes st) n d) ∧
  (∀ sel newWeight st n d,
      lineOf (Network.nodes (applyEdit sel newWeight st)) n d
      = lineOf (Network.nodes st) n d) ∧
  (∃ st, runSession 3 scenario [] = Done st ∧
         let clicked := handleLinkClick {| from := "A"; to := "B"; weight := 2 |}
                                        (afterComplete st) in
         let queued := applyEdit {| from := "A"; to := "B"; weight := 2 |} 10 clicked in
         editAccepted clicked = true ∧
         Network.links queued = [ {| from := "A"; to := "B"; weight := 10 |};
                                  {| from := "B"; to := "C"; weight := 3 |} ] ∧
         lineOf (Network.nodes queued) "A" "B" = (2, "B") ∧
         lineOf (Network.nodes queued) "A" "C" = (5, "B") ∧
         entryOf (Network.nodes queued) "A" "C" ≠ Some baseline ∧
         entryOf (restartTables (Network.nodes clicked)) "A" "C" = Some baseline).
Proof.
  split_and!.
  - intros. apply entryOf_mapTables.
  - intros sel newWeight st n d. unfold lineOf, dist, hop. simpl.
    rewrite entryOf_mapTables. by destruct (entryOf (Network.nodes st) n d).
  - eexists. split; [vm_compute; reflexivity|]. by vm_compute.
Qed.

(** C4. Under any pause schedule a run of [updateRoutingTables] on a
    well-formed session of [N] nodes completes: the relaxation loop executes
    at most [N - 1] passes, no pass is executed after a pass that ended with
    [hasChanges] unset, and in both cases the run ends with [isProcessing]
    cleared and the status 'Simulation complete'. A pass ends with
    [hasChanges] unset exactly when it changed no distance. *)
Theorem C4_passes_bounded ids render current pauses :
  Network.isProcessing render = false ->
  (1 <= length (Network.nodes render))%nat ->
  shaped ids (Network.nodes render) ->
  linked ids (Network.links render) ->
  (∃ r p st,
      converge (Network.nodes render) (Network.links render)
               (Network.links current) pauses = Done (r, p) ∧
      updateRoutingTables render current pauses = Done st ∧
      Network.nodes st = newNodes r ∧
      Network.isProcessing st = false ∧
      Network.currentPass st = 0 ∧
      Network.currentNodeStatus st = "Simulation complete" ∧
      p = 1 + Z.of_nat (length (passLog r)) ∧
      Z.of_nat (length (passLog r))
      <= Z.of_nat (length (Network.nodes render)) - 1 ∧
      stopsAtFirstQuiet (passLog r)) ∧
  (∀ r0, shaped ids (newNodes r0) ->
         ∃ r1, onePass (Network.links render) ids (withChanges r0 false) = Done r1 ∧
               (hasChanges r1 = false ↔
                ∀ a c, dist (newNodes r1) a c = dist (newNodes r0) a c)).
Proof.
  intros Hidle Hsize Hsh Hlk. split.
  - destruct (converge_any ids (Network.links render) (Network.links current)
                (Network.nodes render) pauses Hlk Hsh)
      as (r & p & Hrun & _ & Hp & Hlen & Hstop & _).
    exists r, p. eexists. split; [done|]. split.
    + unfold updateRoutingTables. rewrite Hidle, Hrun. reflexivity.
    + simpl. split_and!; try done. lia.
  - intros r0 Hsh0.
    destruct (onePass_evolves ids (Network.links render) (withChanges r0 false))
      as (r1 & Hrun & _ & _ & Hna & _ & _ & Hsame & Hdown); [done|done|].
    exists r1. split; [done|]. simpl in *. split.
    + intros Hc. by destruct (Hsame Hc).
    + intros Heq. destruct (hasChanges r1) eqn:E; [|done].
      destruct (Hdown eq_refl eq_refl) as (a & c & Hlt). rewrite Heq in Hlt. lia.
Qed.

Lemma C4_witness :
  let st := handleSetupComplete 3 scenario initialState in
  Network.isProcessing st = false ∧
  (1 <= length (Network.nodes st))%nat ∧
  shaped (nodeNames 3) (Network.nodes st) ∧
  linked (nodeNames 3) (Network.links st) ∧
  ∃ r p st',
    converge (Network.nodes st) (Network.links st) (Network.links st) [] = Done (r, p) ∧
    updateRoutingTables st st [] = Done st' ∧
    Network.nodes st' = newNodes r ∧
    Network.isProcessing st' = false ∧
    Network.currentPass st' = 0 ∧
    Network.currentNodeStatus st' = "Simulation complete" ∧
    p = 1 + Z.of_nat (length (passLog r)) ∧
    Z.of_nat (length (passLog r)) <= Z.of_nat (length (Network.nodes st)) - 1 ∧
    stopsAtFirstQuiet (passLog r).
Proof.
  assert (Hsize : (1 <= length (newNodesOf 3))%nat) by (simpl; lia).
  split; [reflexivity|]. split; [exact Hsize|].
  split; [exact (newNodesOf_shaped 3)|]. split; [exact scenario_linked|].
  exact (proj1 (C4_passes_bounded (nodeNames 3)
                  (handleSetupComplete 3 scenario initialState)
                  (handleSetupComplete 3 scenario initialState) []
                  eq_refl Hsize (newNodesOf_shaped 3) scenario_linked)).
Defined.



(** C6 (evaluation of the code). When the pause flag is found set at the
    head of a loop, the engine waits and then goes on with the next
    iteration: the link or the pair at hand is skipped, not resumed. With
    the flag set when the loop reaches the link B-C of the scenario, that
    link is never initialised and the run ends with B->C and C->B
    unreachable. *)
Theorem C6_resume_skips_the_unit_of_work :
  (∀ links link r ps, pauseRef r = true :: ps ->
                      initStep links link r = Done (withPauses r ps)) ∧
  (∀ links n d r ps, pauseRef r = true :: ps ->
                     pairStep links n d r = Done (withPauses r ps)) ∧
  (∃ st st',
      runSession 3 scenario [] = Done st ∧
      runSession 3 scenario [false; true] = Done st' ∧
      lineOf (Network.nodes st) "B" "C" = (3, "C") ∧
      lineOf (Network.nodes st') "B" "C" = (INFINITY, "-") ∧
      lineOf (Network.nodes st') "C" "B" = (INFINITY, "-") ∧
      Network.currentNodeStatus st' = "Simulation complete").
Proof.
  split_and!.
  - intros links link r ps H. unfold initStep, readPause. by rewrite H.
  - intros links n d r ps H. unfold pairStep, readPause. by rewrite H.
  - eexists. eexists. split; [vm_compute; reflexivity|].
    split; [vm_compute; reflexivity|]. by vm_compute.
Qed.




(** C8 (as amended). In every valid session whose link weights are below
    the sentinel, under any pause schedule, the run completes with every
    pair that no walk connects still at the sentinel with the none marker
    and with no stored distance above the sentinel; every write of the
    initialisation phase and of a relaxation step keeps the distances at or
    below the sentinel; and a candidate built from a neighbour's sentinel
    never replaces the best distance of a scan. *)
Theorem C8_sentinel_never_contaminates nodeCount distances pauses :
  validSession nodeCount distances ->
  weightsBelowSentinel nodeCount distances ->
  let ids := nodeNames (Z.to_nat nodeCount) in
  let links := newLinks (Z.to_nat nodeCount) distances in
  (∃ st, runSession nodeCount distances pauses = Done st ∧
         unreachableKept ids links (Network.nodes st) ∧
         bounded (Network.nodes st)) ∧
  (∀ nodes l, shaped ids nodes -> bounded nodes -> l ∈ links ->
              ∃ nodes', initLink l nodes = Some nodes' ∧ bounded nodes') ∧
  (∀ r n d, shaped ids (newNodes r) -> bounded (newNodes r) ->
            n ∈ ids -> d ∈ ids -> n ≠ d ->
            ∃ r', relaxStep links n d r = Done r' ∧ bounded (newNodes r')) ∧
  (∀ nodes n d l h b, shaped ids nodes -> l ∈ links ->
                      neighborOf l n = Some h ->
                      viaNeighbor nodes h d = INFINITY ->
                      minDistance b <= INFINITY ->
                      scanLink nodes n d l b = Done b).
Proof.
  intros Hvalid Hweights ids links.
  destruct (session_wellformed _ _ Hvalid) as [Hlk Hp].
  pose proof (session_below _ _ Hweights) as Hb.
  fold ids links in Hlk, Hp, Hb.
  split_and!.
  - destruct (converge_any ids links links (newNodesOf (Z.to_nat nodeCount)) pauses
                Hlk (newNodesOf_shaped _))
      as (r & p & Hrun & Hsh & _ & _ & _ & _ & Hs).
    specialize (Hs Hp Hb (newNodesOf_fresh _)).
    eexists. split.
    + rewrite runSession_unfold. fold links. rewrite Hrun. reflexivity.
    + simpl. split; [by apply sound_unreachable|by apply (sound_bounded ids links)].
  - intros nodes l Hsh Hbd Hl.
    destruct Hlk as [Hends _]. destruct (Hends l Hl) as (Hf & Ht & Hne).
    destruct (initLink_spec ids nodes l Hsh Hf Ht Hne) as (nodes' & Hrun & _ & Hdist & _).
    exists nodes'. split; [done|]. intros a c. rewrite Hdist.
    destruct (_ || _); [|apply Hbd]. specialize (Hb l Hl). lia.
  - intros r n d Hsh Hbd Hn Hd Hne.
    destruct (relaxStep_evolves ids links n d r Hsh Hlk Hn Hd Hne)
      as (r' & Hrun & _ & _ & Hna & _).
    exists r'. split; [done|]. intros a c.
    specialize (Hna a c). specialize (Hbd a c). lia.
  - intros nodes n d l h b Hsh Hl Hnb Hvia Hmin.
    rewrite (scanLink_pure ids nodes links) by (try done; apply Hsh).
    unfold scanPure. rewrite Hnb, Hvia.
    specialize (Hp l Hl).
    destruct (weight l + INFINITY <? minDistance b) eqn:E; [|done].
    apply Z.ltb_lt in E. lia.
Qed.

Lemma C8_witness :
  validSession 3 scenario ∧ weightsBelowSentinel 3 scenario ∧
  ∃ st, runSession 3 scenario [false; true] = Done st ∧
        unreachableKept (nodeNames (Z.to_nat 3)) (newLinks (Z.to_nat 3) scenario)
                        (Network.nodes st) ∧
        bounded (Network.nodes st).
Proof.
  split; [exact scenario_valid|]. split; [exact scenario_weights|].
  exact (proj1 (C8_sentinel_never_contaminates 3 scenario [false; true]
                  scenario_valid scenario_weights)).
Defined.

(** C8 as stated fails: a link of weight 2000000 between two nodes is a
    positive integer weight, and the initialisation phase stores it as a
    distance above the sentinel. *)
Lemma C8_counterexample :
  validSession 2 overSentinel ∧
  ∃ st, runSession 2 overSentinel [] = Done st ∧
        dist (Network.nodes st) "A" "B" = 2000000 ∧
        ¬ bounded (Network.nodes st).
Proof.
  split.
  { split; [lia|]. split; [split; [done|repeat constructor]|].
    change (Z.to_nat 2) with 2%nat.
    apply (cells2 (fun i j => cell overSentinel i j = INFINITY
                              ∨ 1 <= cell overSentinel i j)).
    vm_compute. right. discriminate. }
  eexists. split; [vm_compute; reflexivity|]. split; [by vm_compute|].
  intros H. specialize (H "A" "B"). vm_compute in H. by apply H.
Qed.






(** * Further properties of the code *)

(** ** Runs on tables that already hold distances *)
(** ** Tables that hold walk weights *)

Lemma sound_realizable ids links nodes :
  sound ids links nodes -> realizable ids links nodes.
Proof.
  intros Hs n d Hn Hd Hne. destruct (Hs n d Hn Hd Hne) as [[H _]|(H1 & H2 & _)];
    [by left|by right].
Qed.

Lemma realizable_bounds ids links nodes n d :
  realizable ids links nodes -> n ∈ ids -> d ∈ ids -> n ≠ d ->
  1 <= dist nodes n d <= INFINITY.
Proof.
  intros Hr Hn Hd Hne. destruct (Hr n d Hn Hd Hne) as [->|([? ?] & _)];
    unfold INFINITY in *; lia.
Qed.

Lemma viaNeighbor_realizable ids links nodes h d :
  shaped ids nodes -> realizable ids links nodes ->
  viaNeighbor nodes h d = dist nodes h d.
Proof.
  intros Hsh Hr. unfold viaNeighbor.
  destruct (dist nodes h d =? 0) eqn:E; [|done]. apply Z.eqb_eq in E.
  destruct (decide (dist nodes h d = INFINITY)) as [Hi|Hi]; [done|].
  destruct (dist_finite _ _ _ _ Hsh Hi) as (Hh & Hd & Hne).
  pose proof (realizable_bounds _ _ _ _ _ Hr Hh Hd Hne). lia.
Qed.

Lemma realizable_step ids links nodes nodes' n d c :
  shaped ids nodes -> linked ids links -> positive links ->
  realizable ids links nodes -> n ∈ ids -> d ∈ ids -> n ≠ d ->
  (∀ a k, dist nodes' a k =
          if bool_decide (a = n ∧ k = d)
          then minDistance (relaxBest links nodes n d c) else dist nodes a k) ->
  realizable ids links nodes'.
Proof.
  intros Hsh Hlk Hp Hr Hn Hd Hne Hdist.
  destruct (scan_facts nodes n d links
              {| minDistance := dist nodes n d; bestHop := hop nodes n d;
                 changed := c |}) as (Hle & _ & Hcase).
  fold (relaxBest links nodes n d c) in Hle, Hcase.
  set (b := relaxBest links nodes n d c) in *. simpl in Hle, Hcase.
  intros a k Ha Hk Hak. rewrite Hdist.
  destruct (bool_decide (a = n ∧ k = d)) eqn:E; [|by apply Hr].
  apply bool_decide_eq_true in E as [-> ->].
  destruct Hcase as [Heq|(_ & Hlt & l & Hl & Hnb & Hm)].
  - rewrite Heq. simpl. by apply Hr.
  - pose proof (realizable_bounds _ _ _ _ _ Hr Hn Hd Hne) as Hold.
    pose proof (neighborOf_Some_adj _ _ _ _ Hl Hnb) as Hadj.
    pose proof (adj_positive _ Hp _ _ _ Hadj) as Hw.
    destruct (adj_ids _ _ Hlk _ _ _ Hadj) as (_ & Hh & _).
    rewrite (viaNeighbor_realizable ids links) in Hm by done.
    assert (Hfin : dist nodes (bestHop b) d ≠ INFINITY) by lia.
    destruct (dist_finite _ _ _ _ Hsh Hfin) as (_ & _ & Hhd).
    destruct (Hr _ _ Hh Hd Hhd) as [Hi|(Hb1 & [vs Hvs])]; [done|].
    right. split; [lia|]. exists (bestHop b :: vs). rewrite Hm. by constructor.
Qed.

Section Rerun.

Context (ids : list string) (links : list Link) (k : nat) (start : Run).
Hypothesis Hlinked : linked ids links.
Hypothesis Hpositive : positive links.
Hypothesis Hk : (1 <= k)%nat.
Hypothesis Hwithin : within k ids links (newNodes start).

Lemma pairStep_rerun seen n d s :
  n ∈ ids -> d ∈ ids ->
  rerunInv ids links k start seen s ->
  ∃ s', pairStep links n d s = Done s' ∧
        rerunInv ids links k start (seen ++ [(n, d)]) s'.
Proof.
  intros Hn Hd (Hsh & Hr & Hq & Hna & Hsl & Hseen).
  pose proof Hlinked as Hlk. pose proof Hpositive as Hp.
  unfold pairStep. rewrite readPause_quiet by done.
  destruct (decide (n = d)) as [->|Hne].
  - rewrite bool_decide_eq_false_2 by (intros H; by apply H).
    exists s. split; [done|]. split_and!; try done.
    intros p vs W Hin. apply elem_of_app in Hin as [Hin|Hin]; [by apply Hseen|].
    apply list_elem_of_singleton in Hin as ->. done.
  - rewrite bool_decide_eq_true_2 by done.
    destruct (relaxStep_spec ids links n d s Hsh Hlk Hn Hd Hne)
      as (s' & Hrun & Hsh' & Hc' & Hq' & Hlog' & Hdist & Hhop).
    pose proof (realizable_step ids links (newNodes s) (newNodes s') n d (hasChanges s)
                  Hsh Hlk Hp Hr Hn Hd Hne Hdist) as Hr'.
    destruct (scan_facts (newNodes s) n d links
                {| minDistance := dist (newNodes s) n d;
                   bestHop := hop (newNodes s) n d;
                   changed := hasChanges s |}) as (Hle & Hall & _).
    fold (relaxBest links (newNodes s) n d (hasChanges s)) in Hle, Hall.
    set (b := relaxBest links (newNodes s) n d (hasChanges s)) in *.
    simpl in Hle.
    assert (Hnd : dist (newNodes s') n d = minDistance b).
    { by rewrite Hdist, bool_decide_eq_true_2. }
    assert (Hna' : notAbove (newNodes s') (newNodes s)).
    { intros a c. rewrite Hdist. destruct (bool_decide (a = n ∧ c = d)) eqn:E; [|lia].
      apply bool_decide_eq_true in E as [-> ->]. done. }
    exists s'. split; [done|]. split; [done|]. split; [done|].
    split; [congruence|]. split.
    { intros a c. specialize (Hna' a c). specialize (Hna a c). lia. }
    split.
    { intros _. revert Hrun. unfold relaxStep.
      destruct (orThrow (findNode (newNodes s) n)) as [x| |]; simpl; try done.
      destruct (orThrow (routingTable x !! d)) as [cur| |]; simpl; try done.
      destruct (forOf links _ _) as [b0| |]; simpl; try done.
      by intros [= <-]. }
    intros p vs W Hin Hpne Hrt Hlen HW.
    apply elem_of_app in Hin as [Hin|Hin].
    { specialize (Hseen p vs W Hin Hpne Hrt Hlen HW).
      specialize (Hna' p.1 p.2). lia. }
    apply list_elem_of_singleton in Hin as ->. simpl in *.
    inversion Hrt as [|a h vs' c w W' Hadj Hrt' E1 E2 E3 E4]; subst; [done|].
    pose proof (adj_positive _ Hp _ _ _ Hadj) as Hw.
    pose proof (route_nonneg _ Hp _ _ _ _ Hrt') as HW'.
    destruct (adj_ids _ _ Hlk _ _ _ Hadj) as (_ & Hh & _).
    rewrite Hnd.
    destruct (decide (h = d)) as [->|Hhd].
    + assert (dist (newNodes start) n d <= w).
      { apply (Hwithin n d [d] w);
          [done|done|done|by apply route_one|simpl; lia|lia]. }
      specialize (Hna n d). lia.
    + assert (dist (newNodes start) h d <= W').
      { apply (Hwithin h d vs' W');
          [done|done|done|done|simpl in Hlen; lia|lia]. }
      destruct (adj_neighborOf _ _ _ _ _ Hlk Hadj) as (l & Hl & Hwl & Hnb).
      specialize (Hall l h Hl Hnb).
      rewrite (viaNeighbor_realizable ids links) in Hall by done.
      specialize (Hna h d). lia.
Qed.

(** An unpaused pass over tables of walk weights extends the walks matched
    by one link. *)
Lemma onePass_rerun :
  shaped ids (newNodes start) -> realizable ids links (newNodes start) ->
  pauseRef start = [] ->
  ∃ r', onePass links ids start = Done r' ∧
        shaped ids (newNodes r') ∧
        realizable ids links (newNodes r') ∧
        pauseRef r' = [] ∧
        notAbove (newNodes r') (newNodes start) ∧
        (stateLinks start = links -> stateLinks r' = links) ∧
        within (S k) ids links (newNodes r').
Proof.
  intros Hsh Hr Hq.
  unfold onePass. rewrite forOf_nested.
  destruct (forOf_inv (rerunInv ids links k start)
              (fun p => pairStep links p.1 p.2) (list_prod ids ids) [] start)
    as (r' & Hrun & Hinv).
  - intros seen [n d] s Hin Hinv. simpl.
    apply list_elem_of_In, in_prod_iff in Hin as [Hn Hd].
    apply list_elem_of_In in Hn, Hd.
    by apply pairStep_rerun.
  - split_and!; try done.
    + intros n d. lia.
    + intros p vs W Hin. inversion Hin.
  - simpl in Hinv. destruct Hinv as (Hsh' & Hr' & Hq' & Hna & Hsl & Hseen).
    exists r'. split_and!; try done.
    intros n d vs W Hn Hd Hne Hrt Hlen HW.
    apply (Hseen (n, d) vs W); try done.
    apply list_elem_of_In, in_prod; by apply list_elem_of_In.
Qed.

End Rerun.

Lemma within_same k ids links nodes nodes' :
  (∀ a c, dist nodes' a c = dist nodes a c) ->
  within k ids links nodes -> within k ids links nodes'.
Proof.
  intros Hd H n d vs W Hn Hdd Hne Hr Hlen HW. rewrite Hd. by apply (H n d vs W).
Qed.

Lemma complete_within k ids links nodes :
  complete ids links nodes -> within k ids links nodes.
Proof. intros H n d vs W Hn Hd Hne Hr _ HW. by apply (H n d vs W). Qed.

Lemma complete_same ids links nodes nodes' :
  (∀ a c, dist nodes' a c = dist nodes a c) ->
  complete ids links nodes -> complete ids links nodes'.
Proof.
  intros Hd H n d vs W Hn Hdd Hne Hr HW. rewrite Hd. by apply (H n d vs W).
Qed.

(** A pass over converged tables finds nothing to change. *)
Lemma onePass_converged ids links r :
  linked ids links -> positive links ->
  converged ids links (newNodes r) -> pauseRef r = [] -> hasChanges r = false ->
  ∃ r', onePass links ids r = Done r' ∧
        hasChanges r' = false ∧
        (∀ a c, dist (newNodes r') a c = dist (newNodes r) a c) ∧
        (∀ a c, hop (newNodes r') a c = hop (newNodes r) a c) ∧
        converged ids links (newNodes r') ∧
        pauseRef r' = [] ∧
        (stateLinks r = links -> stateLinks r' = links).
Proof.
  intros Hlk Hp (Hsh & Hr & Hc) Hq Hch.
  destruct (onePass_rerun ids links 1 r Hlk Hp (le_n 1)
              (complete_within 1 _ _ _ Hc) Hsh Hr Hq)
    as (r' & Hrun & Hsh' & Hr' & Hq' & Hna & Hsl & _).
  destruct (onePass_evolves ids links r Hsh Hlk)
    as (r2 & Hrun2 & _ & _ & _ & _ & _ & Hsame & Hdown).
  rewrite Hrun in Hrun2. injection Hrun2 as <-.
  assert (Hquiet : hasChanges r' = false).
  { destruct (hasChanges r') eqn:E; [|done]. exfalso.
    destruct (Hdown Hch eq_refl) as (a & c & Hlt).
    assert (Hpair : a ∈ ids ∧ c ∈ ids ∧ a ≠ c).
    { destruct (decide (dist (newNodes r) a c = INFINITY)) as [Hi|Hi].
      - apply (dist_finite ids (newNodes r')); [done|lia].
      - by apply (dist_finite ids (newNodes r)). }
    destruct Hpair as (Ha & Hcc & Hac).
    pose proof (realizable_bounds _ _ _ _ _ Hr Ha Hcc Hac) as Hb.
    destruct (Hr' a c Ha Hcc Hac) as [Hi|(Hb' & vs & Hvs)]; [lia|].
    pose proof (Hc a c vs _ Ha Hcc Hac Hvs). lia. }
  destruct (Hsame Hquiet) as [Hd Hh].
  exists r'. repeat (split; [done|]). split; [|done].
  split; [done|]. split; [done|].
  by apply (complete_same ids links (newNodes r)).
Qed.

Lemma bump (k j : nat) : (k + S j = S (k + j))%nat.
Proof. lia. Qed.

(** An unpaused pass that changes no distance has reached every walk. *)
Lemma quiet_pass_complete ids links k r r' :
  linked ids links -> positive links -> (1 <= k)%nat ->
  within k ids links (newNodes r) ->
  shaped ids (newNodes r) -> realizable ids links (newNodes r) ->
  pauseRef r = [] ->
  onePass links ids r = Done r' ->
  (∀ a c, dist (newNodes r') a c = dist (newNodes r) a c) ->
  complete ids links (newNodes r').
Proof.
  intros Hlk Hp Hk Hw Hsh Hr Hq Hrun Hsame.
  assert (Hall : ∀ j, within (k + j) ids links (newNodes r')).
  { induction j as [|j IH].
    - rewrite Nat.add_0_r. by apply (within_same k ids links (newNodes r)).
    - assert (Hwj : within (k + j) ids links (newNodes r)).
      { apply (within_same (k + j) ids links (newNodes r')); [|done].
        intros a c. by rewrite Hsame. }
      destruct (onePass_rerun ids links (k + j) r Hlk Hp ltac:(lia) Hwj Hsh Hr Hq)
        as (r2 & Hrun2 & _ & _ & _ & _ & _ & Hw2).
      rewrite Hrun in Hrun2. injection Hrun2 as <-. by rewrite bump. }
  apply (within_complete (k + length ids)); [done|done|lia|apply Hall].
Qed.

(** The relaxation loop, not paused, over tables of walk weights: it ends
    on converged tables, and its last pass, if any, changed nothing. *)
Lemma whileLoop_rerun ids links :
  linked ids links -> positive links ->
  ∀ fuel k r,
    (1 <= k)%nat -> (1 <= fuel)%nat -> (length ids + 1 <= fuel + k)%nat ->
    shaped ids (newNodes r) -> realizable ids links (newNodes r) ->
    within k ids links (newNodes r) -> pauseRef r = [] ->
    (hasChanges r = false -> complete ids links (newNodes r)) ->
    ∃ r' p log,
      whileLoop fuel links ids (Z.of_nat (length ids) - 1) (Z.of_nat k) r
      = Done (r', p) ∧
      converged ids links (newNodes r') ∧ pauseRef r' = [] ∧
      passLog r' = passLog r ++ log ∧
      (log = [] ∨ last log = Some false) ∧
      (hasChanges r = true -> (k < length ids)%nat -> log ≠ []) ∧
      (stateLinks r = links -> stateLinks r' = links).
Proof.
  intros Hlk Hp fuel. induction fuel as [|fuel IH];
    intros k r Hk Hfuel Hbudget Hsh Hr Hw Hq Hdone; [lia|].
  simpl. destruct (hasChanges r && (Z.of_nat k <=? Z.of_nat (length ids) - 1)) eqn:E.
  - apply andb_true_iff in E as [Hc Hpass]. apply Z.leb_le in Hpass.
    destruct (onePass_rerun ids links k (withChanges r false) Hlk Hp Hk Hw Hsh Hr Hq)
      as (r1 & Hrun & Hsh1 & Hr1 & Hq1 & Hna1 & Hsl1 & Hw1).
    destruct (onePass_evolves ids links (withChanges r false) Hsh Hlk)
      as (r1' & Hrun' & _ & Hlog1 & _ & _ & _ & Hsame & _).
    rewrite Hrun in Hrun'. injection Hrun' as <-.
    rewrite Hrun. simpl.
    replace (Z.of_nat k + 1) with (Z.of_nat (S k)) by lia.
    destruct (IH (S k) (withLog r1 (passLog r1 ++ [hasChanges r1])))
      as (r' & p & log & Hrun2 & Hconv & Hq' & Hlog' & Hlast & Hne & Hsl');
      try done; try lia.
    { simpl. intros Hc1. destruct (Hsame Hc1) as [Hd _].
      by apply (quiet_pass_complete ids links k (withChanges r false)). }
    exists r', p, (hasChanges r1 :: log). split; [done|]. split; [done|].
    split; [done|]. simpl in *. split.
    { rewrite Hlog', Hlog1, <- app_assoc. done. }
    split; [|split; [done|auto]].
    right. destruct Hlast as [->|Hlast].
    + destruct (hasChanges r1) eqn:E1; [|done]. exfalso.
      destruct (decide (S k < length ids)%nat) as [Hlt|Hge].
      * by apply (Hne eq_refl Hlt).
      * assert (Hcomp : complete ids links (newNodes r)).
        { apply (within_complete k); [done|done|lia|done]. }
        destruct (onePass_converged ids links (withChanges r false) Hlk Hp)
          as (r3 & Hrun3 & Hc3 & _); try done.
        rewrite Hrun in Hrun3. injection Hrun3 as <-. congruence.
    + destruct log as [|c log]; [done|]. by rewrite last_cons, Hlast.
  - exists r, (Z.of_nat k), []. split; [done|]. rewrite app_nil_r.
    split; [|split; [done|split; [done|split; [by left|split; [|done]]]]].
    + split; [done|split; [done|]].
      apply andb_false_iff in E as [Hc|Hpass].
      * by apply Hdone.
      * apply Z.leb_gt in Hpass. apply (within_complete k); [done|done|lia|done].
    + intros Hc Hlt. apply andb_false_iff in E as [Hc'|Hpass]; [congruence|].
      apply Z.leb_gt in Hpass. lia.
Qed.

(** ** The initialisation phase on tables that already hold distances *)

Lemma init_rerun ids links shown nodes :
  linked ids links -> shaped ids nodes ->
  ∃ s, initPhase nodes links shown [] = Done s ∧
       shaped ids (newNodes s) ∧ pauseRef s = [] ∧
       hasChanges s = true ∧ passLog s = [] ∧
       (∀ n d w, adj links n d w ->
                 dist (newNodes s) n d = w ∧ hop (newNodes s) n d = d) ∧
       (∀ n d, (∀ w, ¬ adj links n d w) ->
               dist (newNodes s) n d = dist nodes n d ∧
               hop (newNodes s) n d = hop nodes n d) ∧
       stateLinks s = match links with [] => shown | _ => links end.
Proof.
  intros [Hl Huniq] Hsh. unfold initPhase.
  destruct (forOf_inv
              (fun seen s =>
                 shaped ids (newNodes s) ∧ pauseRef s = [] ∧
                 hasChanges s = true ∧ passLog s = [] ∧
                 (∀ n d, (∃ w, adj seen n d w ∧ dist (newNodes s) n d = w
                               ∧ hop (newNodes s) n d = d)
                         ∨ ((∀ w, ¬ adj seen n d w) ∧
                            dist (newNodes s) n d = dist nodes n d ∧
                            hop (newNodes s) n d = hop nodes n d)) ∧
                 stateLinks s = match seen with [] => shown | _ => links end)
              (initStep links) links []
              {| newNodes := nodes; hasChanges := true; pauseRef := [];
                 passLog := []; stateLinks := shown |}) as (s & Hrun & Hinv).
  - intros seen l s Hin (Hsh' & Hq & Hc & Hlog & Hinv & Hsl).
    destruct (Hl l Hin) as (Hf & Ht & Hne).
    unfold initStep. rewrite readPause_quiet by done.
    destruct (initLink_spec ids (newNodes s) l Hsh' Hf Ht Hne)
      as (nodes' & -> & Hsh2 & Hdist & Hhop).
    eexists. split; [reflexivity|]. simpl.
    split; [done|]. split; [done|]. split; [done|]. split; [done|]. split.
    + intros n d. rewrite Hdist, Hhop.
      destruct (bool_decide (n = to l ∧ d = from l)) eqn:E1.
      { apply bool_decide_eq_true in E1 as [-> ->]. left. exists (weight l).
        split_and!; try done. apply adj_snoc. right. split; [done|]. by right. }
      destruct (bool_decide (n = from l ∧ d = to l)) eqn:E2.
      { apply bool_decide_eq_true in E2 as [-> ->]. left. exists (weight l).
        split_and!; try done. apply adj_snoc. right. split; [done|]. by left. }
      simpl. apply bool_decide_eq_false in E1, E2.
      destruct (Hinv n d) as [(w & Ha & Hd & Hh)|(Hno & Hd & Hh)].
      * left. exists w. split_and!; try done. apply adj_snoc. by left.
      * right. split_and!; try done. intros w Ha.
        apply adj_snoc in Ha as [Ha|[_ Ha]].
        -- by apply (Hno w).
        -- destruct Ha as [[<- <-]|[<- <-]]; [by apply E2|by apply E1].
    + by destruct seen.
  - simpl. split_and!; try done. intros n d. right. split; [|done].
    intros w (l & Hin & _). inversion Hin.
  - exists s. split; [done|].
    destruct Hinv as (Hsh' & Hq & Hc & Hlog & Hinv & Hsl).
    split; [done|]. split; [done|]. split; [done|]. split; [done|].
    split; [|split; [|done]].
    + intros n d w Ha. destruct (Hinv n d) as [(w' & Ha' & Hd & Hh)|(Hno & _)].
      * split; [|done]. rewrite Hd. by apply (Huniq n d).
      * by destruct (Hno w).
    + intros n d Hno. destruct (Hinv n d) as [(w' & Ha' & _)|(_ & H)]; [|done].
      by destruct (Hno w').
Qed.

Lemma init_realizable ids links nodes nodes' :
  linked ids links -> positive links -> belowSentinel links ->
  realizable ids links nodes ->
  (∀ n d w, adj links n d w -> dist nodes' n d = w) ->
  (∀ n d, (∀ w, ¬ adj links n d w) -> dist nodes' n d = dist nodes n d) ->
  realizable ids links nodes' ∧ within 1 ids links nodes'.
Proof.
  intros Hlk Hp Hb Hr Hadj Hno. split.
  - intros n d Hn Hd Hne.
    destruct (weightBetween links n d) as [w|] eqn:E.
    + apply weightBetween_adj in E. right. rewrite (Hadj n d w E).
      pose proof (adj_positive _ Hp _ _ _ E) as Hw.
      assert (w < INFINITY) by (destruct E as (l & Hl & <- & _); by apply Hb).
      split; [lia|]. exists [d]. by apply route_one.
    + rewrite (Hno n d); [by apply Hr|].
      intros w (l & Hin & Hw & Hends).
      unfold weightBetween in E. apply fmap_None in E.
      apply list_elem_of_In in Hin.
      pose proof (find_none _ _ E l Hin) as Hf. simpl in Hf.
      destruct Hends as [[H1 H2]|[H1 H2]];
        rewrite (bool_decide_eq_true_2 _ H1), (bool_decide_eq_true_2 _ H2) in Hf;
        simpl in Hf; [done|].
      by rewrite orb_true_r in Hf.
  - intros n d vs W Hn Hd Hne Hrt Hlen HW.
    inversion Hrt as [|a h vs' c w W' Ha Hr' E1 E2 E3 E4]; subst; [done|].
    destruct vs' as [|? ?]; [|simpl in Hlen; lia].
    inversion Hr'; subst. rewrite (Hadj n d w Ha). lia.
Qed.

(** ** A whole run, not paused, on tables that already hold distances *)

Lemma converge_rerun ids links shown nodes :
  linked ids links -> positive links -> belowSentinel links ->
  shaped ids nodes -> realizable ids links nodes -> (2 <= length ids)%nat ->
  (links = [] -> shown = links) ->
  ∃ r p, converge nodes links shown [] = Done (r, p) ∧
         converged ids links (newNodes r) ∧
         last (passLog r) = Some false ∧
         stateLinks r = links.
Proof.
  intros Hlk Hp Hb Hsh Hr Hsize Hshown.
  destruct (init_rerun ids links shown nodes Hlk Hsh)
    as (s & Hinit & Hsh' & Hq & Hc & Hlog & Hadj & Hno & Hsl).
  destruct (init_realizable ids links nodes (newNodes s) Hlk Hp Hb Hr)
    as [Hr' Hw].
  { intros n d w Ha. by destruct (Hadj n d w Ha). }
  { intros n d H. by destruct (Hno n d H). }
  assert (Hlen : length nodes = length ids).
  { destruct Hsh as [<- _]. by rewrite length_map. }
  assert (Hids : map id nodes = ids) by apply Hsh.
  destruct (whileLoop_rerun ids links Hlk Hp (S (length nodes)) 1 s)
    as (r & p & log & Hrun & Hconv & _ & Hlog' & Hlast & Hne & Hsl');
    try done; try lia.
  { intros Hc'. congruence. }
  exists r, p. split.
  { unfold converge. rewrite Hinit, Hids. rewrite <- Hlen in Hrun. exact Hrun. }
  split; [done|]. rewrite Hlog', Hlog. simpl. split.
  - destruct Hlast as [->|Hlast]; [|done]. exfalso. apply Hne; [done|lia|done].
  - apply Hsl'. rewrite Hsl. destruct links; [by apply Hshown|done].
Qed.

(** ** Converged tables *)

Lemma route_snoc links a vs b W c w :
  route links a vs b W -> adj links b c w ->
  route links a (vs ++ [c]) c (W + w).
Proof.
  intros Hr Ha. induction Hr as [a|a b' vs b w' W' Hab Hr IH].
  - simpl. replace (0 + w) with (w + 0) by lia.
    apply route_step; [done|constructor].
  - simpl. replace (w' + W' + w) with (w' + (W' + w)) by lia.
    apply route_step; [done|by apply IH].
Qed.

Lemma route_reverse links a vs c W :
  route links a vs c W -> ∃ vs', route links c vs' a W ∧ length vs' = length vs.
Proof.
  induction 1 as [a|a b vs c w W Hab Hr (vs' & Hr' & Hlen)].
  - exists []. split; [constructor|done].
  - exists (vs' ++ [a]). split.
    + replace (w + W) with (W + w) by lia.
      apply (route_snoc links c vs' b W a w); [done|by apply adj_sym].
    + rewrite length_app. simpl. lia.
Qed.

Lemma converged_le ids links t1 t2 n d :
  converged ids links t1 -> converged ids links t2 ->
  n ∈ ids -> d ∈ ids -> n ≠ d -> dist t1 n d <= dist t2 n d.
Proof.
  intros (_ & Hr1 & Hc1) (_ & Hr2 & _) Hn Hd Hne.
  destruct (Hr2 n d Hn Hd Hne) as [->|(Hb & vs & Hvs)].
  - by apply (realizable_bounds ids links).
  - apply (Hc1 n d vs); try done. lia.
Qed.

Lemma converged_unique ids links t1 t2 :
  converged ids links t1 -> converged ids links t2 ->
  ∀ a c, dist t1 a c = dist t2 a c.
Proof.
  intros H1 H2 a c.
  destruct (decide (a ∈ ids ∧ c ∈ ids ∧ a ≠ c)) as [(Ha & Hc & Hne)|Hno].
  - pose proof (converged_le ids links t1 t2 a c H1 H2 Ha Hc Hne).
    pose proof (converged_le ids links t2 t1 a c H2 H1 Ha Hc Hne). lia.
  - destruct H1 as (Hs1 & _), H2 as (Hs2 & _).
    destruct (decide (dist t1 a c = INFINITY)) as [E1|E1];
      [|by destruct Hno; apply (dist_finite ids t1)].
    destruct (decide (dist t2 a c = INFINITY)) as [E2|E2];
      [|by destruct Hno; apply (dist_finite ids t2)].
    congruence.
Qed.

Lemma converged_same ids links nodes nodes' :
  shaped ids nodes' -> (∀ a c, dist nodes' a c = dist nodes a c) ->
  converged ids links nodes -> converged ids links nodes'.
Proof.
  intros Hsh Hd (_ & Hr & Hc). split; [done|]. split.
  - intros n d Hn Hdd Hne. rewrite Hd. by apply Hr.
  - by apply (complete_same ids links nodes).
Qed.

Lemma dist_mapTables f nodes :
  (∀ e, distance (f e) = distance e) ->
  ∀ a c, dist (mapTables f nodes) a c = dist nodes a c.
Proof.
  intros Hf a c. unfold dist. rewrite entryOf_mapTables.
  destruct (entryOf nodes a c); simpl; [apply Hf|done].
Qed.

Lemma hop_mapTables f nodes :
  (∀ e, nextHop (f e) = nextHop e) ->
  ∀ a c, hop (mapTables f nodes) a c = hop nodes a c.
Proof.
  intros Hf a c. unfold hop. rewrite entryOf_mapTables.
  destruct (entryOf nodes a c); simpl; [apply Hf|done].
Qed.

Lemma shaped_mapTables f ids nodes :
  shaped ids nodes -> shaped ids (mapTables f nodes).
Proof.
  intros [Hids Hdom]. split.
  - rewrite <- Hids. unfold mapTables. rewrite map_map. done.
  - intros n d. rewrite entryOf_mapTables, <- Hdom.
    rewrite fmap_is_Some. done.
Qed.

(** ** What every run keeps, paused or not *)

Lemma forOf_keeps {A S} (P : S -> Prop) (body : A -> S -> Outcome S) xs :
  (∀ x s s', body x s = Done s' -> P s -> P s') ->
  ∀ s s', forOf xs body s = Done s' -> P s -> P s'.
Proof.
  intros Hstep. induction xs as [|x xs IH]; intros s s'; simpl.
  - by intros [= <-].
  - destruct (body x s) as [s1| |] eqn:E; simpl; [|done|done].
    intros Hrun HP. apply (IH s1 s'); [done|]. by apply (Hstep x s s1).
Qed.

Lemma calm_setEntry nodes n d e :
  calm nodes -> isProcessing e = false -> calm (setEntry nodes n d e).
Proof.
  intros Hc He m k e'. rewrite entryOf_setEntry.
  destruct (bool_decide (m = n ∧ k = d)); [|apply Hc].
  destruct (findNode nodes n); [|done]. by intros [= <-].
Qed.

Lemma readPause_kept links shown s :
  kept links shown s -> kept links shown (readPause s).2.
Proof.
  intros [Hc Hl]. destruct (readPause_nodes s) as (E1 & _ & _ & E4).
  split; [by rewrite E1|by rewrite E4].
Qed.

Lemma initStep_kept links shown l s s' :
  initStep links l s = Done s' -> kept links shown s -> kept links shown s'.
Proof.
  unfold initStep. intros Hrun Hk. apply (readPause_kept links shown) in Hk.
  destruct (readPause s) as [paused s1]. simpl in Hk.
  destruct paused; [by injection Hrun as <-|].
  destruct (initLink l (newNodes s1)) as [ns|] eqn:E;
    [|by injection Hrun as <-].
  injection Hrun as <-. destruct Hk as [Hc Hl]. split; [|done]. simpl.
  unfold initLink in E.
  destruct (findNode (newNodes s1) (from l)) as [x|]; [|done].
  destruct (findNode (newNodes s1) (to l)) as [y|]; [|done].
  injection E as <-. by repeat apply calm_setEntry.
Qed.

Lemma relaxStep_kept links shown n d s s' :
  relaxStep links n d s = Done s' -> kept links shown s -> kept links shown s'.
Proof.
  unfold relaxStep. intros Hrun [Hc Hl].
  destruct (findNode (newNodes s) n) as [x|] eqn:Ex; [|done]. simpl in Hrun.
  destruct (routingTable x !! d) as [cur|] eqn:Ecur; [|done]. simpl in Hrun.
  destruct (forOf links _ _) as [b| |]; [|done|done]. simpl in Hrun.
  injection Hrun as <-. split; [|done]. simpl.
  intros m k e'. rewrite !entryOf_setEntry.
  destruct (bool_decide (m = n ∧ k = d)); [|apply Hc].
  destruct (findNode (setEntry _ _ _ _) n); [|done]. by intros [= <-].
Qed.

Lemma pairStep_kept links shown n d s s' :
  pairStep links n d s = Done s' -> kept links shown s -> kept links shown s'.
Proof.
  unfold pairStep. intros Hrun Hk. apply (readPause_kept links shown) in Hk.
  destruct (readPause s) as [paused s1]. simpl in Hk.
  destruct paused; [by injection Hrun as <-|].
  destruct (bool_decide (n ≠ d)); [|by injection Hrun as <-].
  by apply (relaxStep_kept links shown n d s1).
Qed.

Lemma onePass_kept links shown ids s s' :
  onePass links ids s = Done s' -> kept links shown s -> kept links shown s'.
Proof.
  unfold onePass. apply (forOf_keeps (kept links shown)). intros n s1 s2.
  apply (forOf_keeps (kept links shown)). intros d. apply pairStep_kept.
Qed.

Lemma whileLoop_kept links shown ids maxPasses fuel :
  ∀ pass s s' p,
    whileLoop fuel links ids maxPasses pass s = Done (s', p) ->
    kept links shown s -> kept links shown s'.
Proof.
  induction fuel as [|fuel IH]; intros pass s s' p; simpl; [done|].
  destruct (hasChanges s && (pass <=? maxPasses)); [|by intros [= <- _]].
  destruct (onePass links ids (withChanges s false)) as [s1| |] eqn:E;
    simpl; [|done|done].
  intros Hrun Hk. apply (IH _ _ _ _ Hrun).
  by apply (onePass_kept links shown ids (withChanges s false) s1) in E.
Qed.

Lemma converge_kept nodes links shown pauses r p :
  converge nodes links shown pauses = Done (r, p) ->
  calm nodes ->
  calm (newNodes r) ∧ (shown = links -> stateLinks r = links).
Proof.
  unfold converge, initPhase. intros Hrun Hc.
  destruct (forOf links (initStep links) _) as [s0| |] eqn:E; [|done|done].
  change (whileLoop (S (length nodes)) links (map id nodes)
            (Z.of_nat (length nodes) - 1) 1 s0 = Done (r, p)) in Hrun.
  assert (Hk0 : kept links shown s0).
  { apply (forOf_keeps (kept links shown) (initStep links) links
             (initStep_kept links shown) _ _ E). by split. }
  exact (whileLoop_kept links shown _ _ _ _ _ _ _ Hrun Hk0).
Qed.

Lemma newNodesOf_calm N : calm (newNodesOf N).
Proof.
  intros n d e. rewrite entryOf_newNodesOf.
  destruct (bool_decide _); [by intros [= <-]|done].
Qed.

Lemma calm_mapTables f nodes :
  (∀ e, isProcessing (f e) = isProcessing e) -> calm nodes -> calm (mapTables f nodes).
Proof.
  intros Hf Hc n d e. rewrite entryOf_mapTables.
  destruct (entryOf nodes n d) as [e0|] eqn:E; [|done].
  intros [= <-]. rewrite Hf. by apply (Hc n d).
Qed.

(** ** Sessions, edits and restarts that are not paused *)

Lemma fresh_realizable ids links nodes :
  fresh nodes -> realizable ids links nodes.
Proof. intros Hf n d _ _ _. left. by destruct (Hf n d). Qed.

Lemma length_nodeNames N : length (nodeNames N) = N.
Proof. unfold nodeNames. by rewrite length_map, length_seq. Qed.

Lemma rerun_ready ids render current :
  readyState ids render ->
  (Network.links render = [] -> Network.links current = []) ->
  ∃ r p,
    converge (Network.nodes render) (Network.links render)
             (Network.links current) [] = Done (r, p) ∧
    updateRoutingTables render current [] =
    Done (Network.mkState (Network.isSetup current) (newNodes r)
            (Network.links render)
            (Network.selectedLink current) (Network.editWeight current)
            false (Network.isPaused current) 0 "Simulation complete") ∧
    converged ids (Network.links render) (newNodes r) ∧
    last (passLog r) = Some false.
Proof.
  intros (Hidle & Hsize & Hlk & Hp & Hb & Hsh & Hr) Hshown.
  destruct (converge_rerun ids (Network.links render) (Network.links current)
              (Network.nodes render) Hlk Hp Hb Hsh Hr Hsize)
    as (r & p & Hrun & Hconv & Hlast & Hsl).
  { intros E. rewrite E. by apply Hshown. }
  exists r, p. split; [done|]. split; [|done].
  unfold updateRoutingTables. rewrite Hidle, Hrun. simpl. by rewrite Hsl.
Qed.

Lemma session_ready nodeCount distances :
  validSession nodeCount distances ->
  weightsBelowSentinel nodeCount distances ->
  readyState (nodeNames (Z.to_nat nodeCount))
             (handleSetupComplete nodeCount distances initialState).
Proof.
  intros Hvalid Hweights.
  destruct (session_wellformed _ _ Hvalid) as [Hlk Hp].
  pose proof (session_below _ _ Hweights) as Hb.
  destruct Hvalid as (Hn & _).
  split; [done|]. split; [rewrite length_nodeNames; lia|].
  split; [done|]. split; [done|]. split; [done|].
  split; [apply newNodesOf_shaped|].
  apply fresh_realizable, newNodesOf_fresh.
Qed.

Lemma session_converged nodeCount distances :
  validSession nodeCount distances ->
  weightsBelowSentinel nodeCount distances ->
  ∃ r p st,
    converge (newNodesOf (Z.to_nat nodeCount))
             (newLinks (Z.to_nat nodeCount) distances)
             (newLinks (Z.to_nat nodeCount) distances) [] = Done (r, p) ∧
    runSession nodeCount distances [] = Done st ∧
    Network.nodes st = newNodes r ∧
    Network.links st = newLinks (Z.to_nat nodeCount) distances ∧
    Network.selectedLink st = None ∧
    last (passLog r) = Some false ∧
    convergedState (nodeNames (Z.to_nat nodeCount)) st.
Proof.
  intros Hvalid Hweights.
  pose proof (session_ready _ _ Hvalid Hweights) as Hready.
  destruct (rerun_ready _ _ (handleSetupComplete nodeCount distances initialState)
              Hready) as (r & p & Hrun & Hst & Hconv & Hlast); [done|].
  exists r, p. eexists. split; [exact Hrun|]. split; [exact Hst|].
  simpl. split; [done|]. split; [done|]. split; [done|]. split; [done|].
  destruct Hready as (_ & Hsize & Hlk & Hp & Hb & _).
  destruct Hconv as (Hsh & Hr & Hc). by repeat (split; [done|]).
Qed.

Lemma edit_run ids st sel ew change :
  convergedState ids st ->
  Network.selectedLink st = Some sel -> Network.editWeight st = Some ew ->
  ∃ st', handleWeightChange change st [] = Done st' ∧
         Network.selectedLink st' = Some sel ∧
         Network.editWeight st' = Some (Z.max 1 (ew + change)) ∧
         Network.links st' = Network.links st ∧
         (∀ a c, dist (Network.nodes st') a c = dist (Network.nodes st) a c) ∧
         convergedState ids st'.
Proof.
  intros [Hready Hc] Hsel Hew.
  destruct (rerun_ready ids st (applyEdit sel (Z.max 1 (ew + change)) st) Hready)
    as (r & p & Hrun & Hst & Hconv & _).
  { simpl. by intros ->. }
  eexists. split.
  { unfold handleWeightChange. rewrite Hsel, Hew.
    destruct Hready as (-> & _). simpl. exact Hst. }
  simpl. split; [done|]. split; [done|]. split; [done|].
  destruct Hready as (Hidle & Hsize & Hlk & Hp & Hb & Hsh & Hr).
  split.
  - apply (converged_unique ids (Network.links st)); [done|].
    split; [done|]. split; done.
  - destruct Hconv as (Hsh' & Hr' & Hc'). by repeat (split; [done|]).
Qed.

Lemma afterComplete_converged ids st :
  convergedState ids st -> convergedState ids (afterComplete st).
Proof.
  intros ((Hidle & Hsize & Hlk & Hp & Hb & Hsh & Hr) & Hc).
  assert (Hd : ∀ a c, dist (mapTables clearIsNew (Network.nodes st)) a c
                      = dist (Network.nodes st) a c)
    by (by apply dist_mapTables).
  destruct (converged_same ids (Network.links st) (Network.nodes st)
              (mapTables clearIsNew (Network.nodes st))) as (Hs' & Hr' & Hc');
    [by apply shaped_mapTables|done|split; [done|split; done]|].
  by repeat (split; [done|]).
Qed.

Lemma pressPlus_run ids k :
  ∀ st sel ew,
    convergedState ids st ->
    Network.selectedLink st = Some sel -> Network.editWeight st = Some ew ->
    1 <= ew ->
    ∃ st', pressPlus k st = Done st' ∧
           Network.editWeight st' = Some (ew + Z.of_nat k) ∧
           Network.links st' = Network.links st ∧
           (∀ a c, dist (Network.nodes st') a c = dist (Network.nodes st) a c) ∧
           convergedState ids st'.
Proof.
  induction k as [|k IH]; intros st sel ew Hconv Hsel Hew Hpos.
  - exists st. simpl. split; [done|]. split; [by rewrite Z.add_0_r|]. done.
  - destruct (edit_run ids st sel ew 1 Hconv Hsel Hew)
      as (st1 & Hrun & Hsel1 & Hew1 & Hl1 & Hd1 & Hconv1).
    destruct (IH (afterComplete st1) sel (ew + 1))
      as (st' & Hrun' & Hew' & Hl' & Hd' & Hconv'); try done; try lia.
    { by apply afterComplete_converged. }
    { simpl. rewrite Hew1. f_equal. lia. }
    exists st'. split; [simpl; by rewrite Hrun|].
    split; [rewrite Hew'; f_equal; lia|]. split; [by rewrite Hl'|].
    split; [|done]. intros a c. rewrite Hd'. simpl.
    rewrite dist_mapTables by done. apply Hd1.
Qed.

Lemma restart_run ids st :
  readyState ids st ->
  ∃ st', restartSimulation st [] = Done st' ∧
         Network.links st' = Network.links st ∧
         Network.selectedLink st' = None ∧
         Network.isPaused st' = false ∧
         convergedState ids st'.
Proof.
  intros Hready.
  destruct (rerun_ready ids st (restartQueued st) Hready)
    as (r & p & Hrun & Hst & Hconv & _); [done|].
  eexists. split.
  { unfold restartSimulation. destruct Hready as (-> & _). simpl. exact Hst. }
  simpl. split; [done|]. split; [done|]. split; [done|].
  destruct Hready as (Hidle & Hsize & Hlk & Hp & Hb & Hsh & Hr).
  destruct Hconv as (Hsh' & Hr' & Hc'). by repeat (split; [done|]).
Qed.

Lemma converged_symmetric_le ids links nodes n d :
  converged ids links nodes -> n ∈ ids -> d ∈ ids -> n ≠ d ->
  dist nodes n d <= dist nodes d n.
Proof.
  intros (_ & Hr & Hc) Hn Hd Hne.
  assert (Hne' : d ≠ n) by done.
  destruct (Hr d n Hd Hn Hne') as [->|(Hb & vs & Hvs)].
  - by apply (realizable_bounds ids links).
  - destruct (route_reverse _ _ _ _ _ Hvs) as (vs' & Hvs' & _).
    apply (Hc n d vs'); try done. lia.
Qed.

Lemma converged_offer ids links nodes n d h w :
  linked ids links -> positive links -> converged ids links nodes ->
  n ∈ ids -> d ∈ ids -> n ≠ d -> adj links n h w ->
  w + dist0 nodes h d < INFINITY ->
  dist nodes n d <= w + dist0 nodes h d.
Proof.
  intros Hlk Hp (_ & Hr & Hc) Hn Hd Hne Ha Hlt.
  destruct (adj_ids ids links Hlk _ _ _ Ha) as (_ & Hh & _).
  pose proof (adj_positive links Hp _ _ _ Ha) as Hw.
  unfold dist0 in *. destruct (bool_decide (h = d)) eqn:E.
  - apply bool_decide_eq_true in E as ->.
    apply (Hc n d [d]); try done.
    apply route_step; [done|constructor].
  - apply bool_decide_eq_false in E.
    destruct (Hr h d Hh Hd E) as [Hi|(Hb & vs & Hvs)]; [lia|].
    apply (Hc n d (h :: vs)); try done. by apply route_step.
Qed.

Lemma rowOf_calm nodes n d e :
  calm nodes -> entryOf nodes n d = Some e ->
  rowOf nodes n d =
  Some (if distance e =? INFINITY then Infinite else Number (distance e), nextHop e).
Proof.
  intros Hc He. unfold rowOf, distanceCell, nextCell. rewrite He. simpl.
  by rewrite (Hc n d e He).
Qed.

Lemma scenario_positive : positive (newLinks 3 scenario).
Proof. exact (proj2 (session_wellformed 3 scenario scenario_valid)). Qed.

Lemma scenario_below : belowSentinel (newLinks 3 scenario).
Proof. exact (session_below 3 scenario scenario_weights). Qed.

Lemma scenarioDone_links : Network.links scenarioDone = newLinks 3 scenario.
Proof. by vm_compute. Qed.

Lemma scenarioDone_converged : convergedState (nodeNames 3) scenarioDone.
Proof.
  destruct (session_converged 3 scenario scenario_valid scenario_weights)
    as (r & p & st & _ & Hrun & _ & _ & _ & _ & Hconv).
  unfold scenarioDone. rewrite Hrun. by apply (afterComplete_converged (nodeNames 3)).
Qed.

Lemma scenarioDone_tables :
  converged (nodeNames 3) (newLinks 3 scenario) (Network.nodes scenarioDone).
Proof.
  destruct scenarioDone_converged as ((_ & _ & _ & _ & _ & Hsh & Hr) & Hc).
  rewrite scenarioDone_links in Hr, Hc. split; [done|]. split; done.
Qed.

Lemma A_in_scenario : "A" ∈ nodeNames 3.
Proof. apply elem_of_nodeNames. exists 0%nat. split; [lia|done]. Qed.

Lemma C_in_scenario : "C" ∈ nodeNames 3.
Proof. apply elem_of_nodeNames. exists 2%nat. split; [lia|done]. Qed.

Lemma scenarioDone_AB :
  {| from := "A"; to := "B"; weight := 2 |} ∈ Network.links scenarioDone.
Proof.
  rewrite scenarioDone_links. apply elem_of_newLinks. exists 1%nat, 0%nat.
  split; [lia|]. split; [by vm_compute|reflexivity].
Qed.

Lemma realizable_same ids links nodes nodes' :
  (∀ a c, dist nodes' a c = dist nodes a c) ->
  realizable ids links nodes -> realizable ids links nodes'.
Proof. intros Hd Hr n d Hn Hdd Hne. rewrite Hd. by apply Hr. Qed.

Lemma length_newNodesOf N : length (newNodesOf N) = N.
Proof. unfold newNodesOf. by rewrite length_map, length_nodeNames. Qed.

Lemma handleLinkClick_converged ids l st :
  convergedState ids st -> convergedState ids (handleLinkClick l st).
Proof.
  intros Hconv. unfold handleLinkClick.
  destruct (negb (Network.isProcessing st)); done.
Qed.


(** ** The form *)

Lemma cell_setCell m a b v i j :
  (a < length m)%nat -> (b < length (nth a m []))%nat ->
  cell (setCell m a b v) i j =
  if bool_decide (i = a ∧ j = b) then v else cell m i j.
Proof.
  intros Ha Hb. unfold cell, setCell. rewrite !nth_lookup, list_lookup_insert.
  destruct (decide (a = i ∧ (a < length m)%nat)) as [[<- _]|Hno].
  - simpl. rewrite list_lookup_insert, <- !nth_lookup.
    destruct (decide (b = j ∧ (b < length (nth a m []))%nat)) as [[<- _]|Hno].
    + by rewrite bool_decide_eq_true_2.
    + rewrite bool_decide_eq_false_2; [by rewrite !nth_lookup|].
      intros [_ ->]. by apply Hno.
  - rewrite bool_decide_eq_false_2; [done|]. intros [-> _]. by apply Hno.
Qed.

Lemma squareMatrix_row n m a :
  squareMatrix n m -> (a < n)%nat -> length (nth a m []) = n.
Proof.
  intros [Hlen Hrows] Ha. rewrite Forall_forall in Hrows. apply Hrows.
  apply list_elem_of_In, nth_In. lia.
Qed.

Lemma squareMatrix_setCell n m a b v :
  squareMatrix n m -> (a < n)%nat -> squareMatrix n (setCell m a b v).
Proof.
  intros Hsq Ha. pose proof (squareMatrix_row n m a Hsq Ha) as Hrow.
  destruct Hsq as [Hlen Hrows]. unfold setCell. split.
  - by rewrite length_insert.
  - apply Forall_insert; [done|]. by rewrite length_insert.
Qed.

Lemma handleDistanceChange_spec n m a b v :
  squareMatrix n m -> (a < n)%nat -> (b < n)%nat ->
  squareMatrix n (handleDistanceChange m a b v) ∧
  ∀ i j, cell (handleDistanceChange m a b v) i j =
         if bool_decide ((i = a ∧ j = b) ∨ (i = b ∧ j = a)) then v
         else cell m i j.
Proof.
  intros Hsq Ha Hb. unfold handleDistanceChange.
  pose proof (squareMatrix_setCell n m a b v Hsq Ha) as Hsq1.
  split; [by apply squareMatrix_setCell|].
  intros i j. rewrite cell_setCell.
  - rewrite cell_setCell.
    + destruct (bool_decide (i = b ∧ j = a)) eqn:E1;
        destruct (bool_decide (i = a ∧ j = b)) eqn:E2;
        destruct (bool_decide ((i = a ∧ j = b) ∨ (i = b ∧ j = a))) eqn:E3;
        try done;
        apply bool_decide_eq_true in E1 || apply bool_decide_eq_false in E1;
        apply bool_decide_eq_true in E2 || apply bool_decide_eq_false in E2;
        apply bool_decide_eq_true in E3 || apply bool_decide_eq_false in E3;
        tauto.
    + destruct Hsq as [-> _]. done.
    + by rewrite (squareMatrix_row n m a Hsq Ha).
  - destruct Hsq1 as [-> _]. done.
  - by rewrite (squareMatrix_row n _ b Hsq1 Hb).
Qed.

Lemma cell_fresh n i j : cell (freshDistances n) i j = INFINITY.
Proof.
  unfold cell, freshDistances.
  destruct (decide (i < n)%nat) as [Hi|Hi].
  - rewrite (nth_repeat_lt _ _ Hi). apply nth_repeat.
  - rewrite (nth_overflow (repeat (repeat INFINITY n) n) [])
      by (rewrite repeat_length; lia).
    by destruct j.
Qed.

Lemma squareMatrix_fresh n : squareMatrix n (freshDistances n).
Proof.
  unfold freshDistances. split; [apply repeat_length|].
  apply Forall_forall. intros row Hin. apply list_elem_of_In, repeat_spec in Hin.
  subst. apply repeat_length.
Qed.

Lemma parseWeight_nonzero v : parseWeight v ≠ 0.
Proof.
  destruct v as [v|]; simpl; [|done]. destruct (v =? 0) eqn:E; [done|].
  by apply Z.eqb_neq in E.
Qed.

(** The invariant of the form together with the range of its cells. *)
Lemma formStep_ok (P : Z -> Prop) ev f f' :
  P INFINITY ->
  (∀ i j v, ev = TypeWeight i j v -> P (parseWeight v)) ->
  formOk f -> (∀ i j, P (cell (Setup.distances f) i j)) ->
  formStep ev f = Some f' ->
  formOk f' ∧ ∀ i j, P (cell (Setup.distances f') i j).
Proof.
  intros HP Hev (n & Hn & Hcount & Hsq & Hsym & Hnz & Hdiag) Hcells.
  destruct ev as [v| |a b v]; simpl.
  - destruct (Setup.step f =? 0); [|done]. intros [= <-]. unfold typeCount.
    destruct (bool_decide _); [split; [by exists n|done]|].
    destruct v as [v|]; simpl.
    + assert ((0 <? Z.min 8 (Z.max 2 v)) = true) as -> by (apply Z.ltb_lt; lia).
      split; [|intros i j; by rewrite cell_fresh].
      exists (Z.to_nat (Z.min 8 (Z.max 2 v))). simpl.
      split; [lia|]. split; [left; f_equal; lia|].
      split; [apply squareMatrix_fresh|].
      split; [intros i j; by rewrite !cell_fresh|].
      split; [intros i j; by rewrite cell_fresh|].
      intros i. by rewrite cell_fresh.
    + split; [|done]. exists n. simpl. split; [done|]. split; [by right|]. done.
  - destruct (Setup.step f =? 0); [|done]. intros [= <-]. simpl.
    split; [by exists n|done].
  - destruct (Setup.nodeCount f) as [c|] eqn:Ec; [|done].
    destruct (negb (Setup.step f =? 0) && bool_decide (b < a < Z.to_nat c)%nat)
      eqn:E; [|done].
    intros [= <-]. apply andb_true_iff in E as [_ E].
    apply bool_decide_eq_true in E.
    assert (c = Z.of_nat n) as -> by (destruct Hcount as [H|H]; congruence).
    rewrite Nat2Z.id in E.
    destruct (handleDistanceChange_spec n (Setup.distances f) a b (parseWeight v))
      as [Hsq' Hcell]; [done|lia|lia|].
    simpl. split.
    + exists n. simpl. rewrite Ec. split; [done|]. split; [by left|].
      split; [done|]. split; [|split].
      * intros i j. rewrite !Hcell, Hsym.
        destruct (bool_decide ((i = a ∧ j = b) ∨ (i = b ∧ j = a))) eqn:E1;
          destruct (bool_decide ((j = a ∧ i = b) ∨ (j = b ∧ i = a))) eqn:E2;
          try done;
          apply bool_decide_eq_true in E1 || apply bool_decide_eq_false in E1;
          apply bool_decide_eq_true in E2 || apply bool_decide_eq_false in E2;
          tauto.
      * intros i j. rewrite Hcell. destruct (bool_decide _); [|done].
        apply parseWeight_nonzero.
      * intros i. rewrite Hcell. rewrite bool_decide_eq_false_2; [done|]. lia.
    + intros i j. rewrite Hcell. destruct (bool_decide _); [|done].
      by apply (Hev a b v).
Qed.

Lemma runForm_ok (P : Z -> Prop) evs :
  P INFINITY ->
  (∀ i j v, TypeWeight i j v ∈ evs -> P (parseWeight v)) ->
  ∀ f f', formOk f -> (∀ i j, P (cell (Setup.distances f) i j)) ->
          runForm evs f = Some f' ->
          formOk f' ∧ ∀ i j, P (cell (Setup.distances f') i j).
Proof.
  intros HP. induction evs as [|ev evs IH]; intros Hev f f' Hok Hcells; simpl.
  - by intros [= <-].
  - destruct (formStep ev f) as [f1|] eqn:E; [|done]. simpl. intros Hrun.
    destruct (formStep_ok P ev f f1 HP) as [Hok1 Hcells1]; try done.
    { intros i j v ->. apply (Hev i j v). by left. }
    apply (IH ltac:(intros i j v H; apply (Hev i j v); by right) f1 f'); done.
Qed.

Lemma mountedForm_ok : formOk mountedForm.
Proof.
  exists 4%nat. simpl. split; [lia|]. split; [by left|].
  split; [apply squareMatrix_fresh|].
  split; [intros i j; by rewrite !cell_fresh|].
  split; [intros i j; by rewrite cell_fresh|].
  intros i. by rewrite cell_fresh.
Qed.

Lemma scenario_square : squareMatrix 3 scenario.
Proof. split; [done|]. by repeat constructor. Qed.

Lemma scenarioTyped_sensible : Forall sensible scenarioTyped.
Proof. repeat constructor; simpl; unfold INFINITY; lia. Qed.

(** ** The flags a relaxation step leaves *)

Lemma relaxStep_entry ids links n d r :
  shaped ids (newNodes r) -> linked ids links ->
  n ∈ ids -> d ∈ ids -> n ≠ d ->
  let b := relaxBest links (newNodes r) n d (hasChanges r) in
  ∃ r' cur, relaxStep links n d r = Done r' ∧
            entryOf (newNodes r) n d = Some cur ∧
            ∀ m k, entryOf (newNodes r') m k =
                   if bool_decide (m = n ∧ k = d)
                   then Some {| distance := minDistance b; nextHop := bestHop b;
                                isNew := negb (minDistance b =? distance cur);
                                isProcessing := false; calculated := true |}
                   else entryOf (newNodes r) m k.
Proof.
  intros Hsh Hlk Hn Hd Hne b.
  assert (Hsome : is_Some (entryOf (newNodes r) n d)) by (apply Hsh; done).
  destruct Hsome as [cur Hcur].
  destruct (entryOf_findNode _ _ _ _ Hcur) as (x & Hx & Hlook).
  set (cur1 := {| distance := distance cur; nextHop := nextHop cur;
                  isNew := isNew cur; isProcessing := true;
                  calculated := calculated cur |}).
  set (nodes1 := setEntry (newNodes r) n d cur1).
  assert (Hsh1 : shaped ids nodes1) by (apply shaped_setEntry; eauto).
  assert (Hd1 : ∀ a c, dist nodes1 a c = dist (newNodes r) a c).
  { intros a c. unfold nodes1. rewrite dist_setEntry by eauto.
    destruct (bool_decide (a = n ∧ c = d)) eqn:E; [|done].
    apply bool_decide_eq_true in E as [-> ->]. unfold dist. by rewrite Hcur. }
  assert (Hb : forOf links (scanLink nodes1 n d)
                 {| minDistance := distance cur; bestHop := nextHop cur;
                    changed := hasChanges r |} = Done b).
  { rewrite (scan_pure ids nodes1 links) by (try done; apply Hsh1).
    f_equal. rewrite scanPure_same_dist with (nodes := newNodes r) by done.
    unfold b, relaxBest, dist, hop. by rewrite Hcur. }
  unfold relaxStep. rewrite Hx. simpl. rewrite Hlook. simpl.
  fold cur1. fold nodes1. rewrite Hb. simpl.
  eexists. exists cur. split; [reflexivity|]. split; [done|]. simpl.
  assert (Hf1 : is_Some (findNode nodes1 n)) by (eapply shaped_findNode; eauto).
  destruct Hf1 as [y Hy].
  intros m k. rewrite entryOf_setEntry, Hy.
  destruct (bool_decide (m = n ∧ k = d)) eqn:E; [done|].
  unfold nodes1. rewrite entryOf_setEntry, E. done.
Qed.

(** ** A run that is paused at every loop head *)

Lemma forOf_paused {A} (body : A -> Run -> Outcome Run) xs :
  (∀ x s ps, pauseRef s = true :: ps -> body x s = Done (withPauses s ps)) ->
  ∀ s rest, pauseRef s = repeat true (length xs) ++ rest ->
            forOf xs body s = Done (withPauses s rest).
Proof.
  intros Hbody. induction xs as [|x xs IH]; intros s rest Hp; simpl in *.
  - destruct s. simpl in *. by subst.
  - rewrite (Hbody x s _ Hp). simpl. by rewrite (IH (withPauses s _) rest).
Qed.

Lemma initStep_paused links l s ps :
  pauseRef s = true :: ps -> initStep links l s = Done (withPauses s ps).
Proof. intros Hp. unfold initStep, readPause. by rewrite Hp. Qed.

Lemma pairStep_paused links n d s ps :
  pauseRef s = true :: ps -> pairStep links n d s = Done (withPauses s ps).
Proof. intros Hp. unfold pairStep, readPause. by rewrite Hp. Qed.

Lemma onePass_paused links ids s rest :
  pauseRef s = repeat true (length ids * length ids) ++ rest ->
  onePass links ids s = Done (withPauses s rest).
Proof.
  intros Hp. unfold onePass. rewrite forOf_nested.
  apply (forOf_paused (fun p => pairStep links p.1 p.2)).
  - intros [n d] s' ps. apply pairStep_paused.
  - by rewrite length_prod.
Qed.

(** ** The form, the engine and the handlers *)

(** X1. [handleDistanceChange] of the form, on a square matrix and two
    indices inside it: the matrix stays square, the two mirror cells hold
    the new value, and no other cell has changed. *)
Theorem handleDistanceChange_writes_both_cells n m a b v :
  squareMatrix n m -> (a < n)%nat -> (b < n)%nat ->
  let m' := handleDistanceChange m a b v in
  squareMatrix n m' ∧ cell m' a b = v ∧ cell m' b a = v ∧
  ∀ i j, ¬ (i = a ∧ j = b) -> ¬ (i = b ∧ j = a) -> cell m' i j = cell m i j.
Proof.
  intros Hsq Ha Hb m'.
  destruct (handleDistanceChange_spec n m a b v Hsq Ha Hb) as [Hsq' Hcell].
  split; [done|]. subst m'. split; [|split].
  - rewrite Hcell, bool_decide_eq_true_2; [done|]. by left.
  - rewrite Hcell, bool_decide_eq_true_2; [done|]. by right.
  - intros i j H1 H2. rewrite Hcell, bool_decide_eq_false_2; [done|]. tauto.
Qed.

Lemma handleDistanceChange_writes_both_cells_witness :
  squareMatrix 3 scenario ∧ (2 < 3)%nat ∧ (0 < 3)%nat ∧
  let m' := handleDistanceChange scenario 2 0 7 in
  squareMatrix 3 m' ∧ cell m' 2 0 = 7 ∧ cell m' 0 2 = 7 ∧
  ∀ i j, ¬ (i = 2%nat ∧ j = 0%nat) -> ¬ (i = 0%nat ∧ j = 2%nat) ->
         cell m' i j = cell scenario i j.
Proof.
  split; [exact scenario_square|]. split; [lia|]. split; [lia|].
  exact (handleDistanceChange_writes_both_cells 3 scenario 2 0 7
           scenario_square ltac:(lia) ltac:(lia)).
Defined.

(** X2. Whatever is typed into the form, in whatever order the page
    allows: the count is [NaN] or lies between 2 and 8, and the matrix is
    square of the size of the last count that was a number, symmetric,
    free of zeros and holds the sentinel on its diagonal. *)
Theorem form_keeps_its_matrix_well_formed evs f :
  runForm evs mountedForm = Some f -> formOk f.
Proof.
  intros Hrun.
  destruct (runForm_ok (fun _ => True) evs I ltac:(done) mountedForm f
              mountedForm_ok ltac:(done) Hrun) as [Hok _].
  done.
Qed.

Lemma form_keeps_its_matrix_well_formed_witness :
  runForm scenarioTyped mountedForm = Some (Setup.mkForm (Some 3) scenario 1) ∧
  formOk (Setup.mkForm (Some 3) scenario 1).
Proof.
  split; [reflexivity|].
  exact (form_keeps_its_matrix_well_formed scenarioTyped
           (Setup.mkForm (Some 3) scenario 1) eq_refl).
Defined.

(** X3. From the form to the tables. When every weight typed is a number
    from 0 to the sentinel or the field is left empty, and the count is a
    number when "Start Simulation" is pressed, the form hands over a valid
    session with weights below the sentinel, and the run of that session,
    not paused, completes with converged tables. *)
Theorem sensible_form_starts_a_converging_session evs f n :
  runForm evs mountedForm = Some f -> Forall sensible evs ->
  Setup.nodeCount f = Some n ->
  validSession n (Setup.distances f) ∧
  weightsBelowSentinel n (Setup.distances f) ∧
  ∃ st, runSession n (Setup.distances f) [] = Done st ∧
        convergedState (nodeNames (Z.to_nat n)) st.
Proof.
  intros Hrun Hsens Hn.
  destruct (runForm_ok (fun z => 1 <= z <= INFINITY) evs) with
    (f := mountedForm) (f' := f) as [(k & Hk & Hcount & Hsq & _) Hcells];
    try done.
  - intros i j v Hin. rewrite Forall_forall in Hsens.
    specialize (Hsens _ Hin). destruct v as [v|]; simpl in *; [|done].
    destruct (v =? 0) eqn:E; [done|]. apply Z.eqb_neq in E. lia.
  - apply mountedForm_ok.
  - intros i j. simpl. by rewrite cell_fresh.
  - assert (n = Z.of_nat k) as -> by (destruct Hcount as [H|H]; congruence).
    assert (Hvalid : validSession (Z.of_nat k) (Setup.distances f)).
    { split; [lia|]. rewrite Nat2Z.id. split; [done|].
      intros i j _. right. apply Hcells. }
    assert (Hbelow : weightsBelowSentinel (Z.of_nat k) (Setup.distances f)).
    { intros i j _. apply Hcells. }
    split; [done|]. split; [done|].
    destruct (session_converged _ _ Hvalid Hbelow)
      as (r & p & st & _ & Hst & _ & _ & _ & _ & Hconv).
    by exists st.
Qed.

Lemma sensible_form_starts_a_converging_session_witness :
  runForm scenarioTyped mountedForm = Some (Setup.mkForm (Some 3) scenario 1) ∧
  Forall sensible scenarioTyped ∧
  Setup.nodeCount (Setup.mkForm (Some 3) scenario 1) = Some 3 ∧
  validSession 3 scenario ∧
  weightsBelowSentinel 3 scenario ∧
  ∃ st, runSession 3 scenario [] = Done st ∧
        convergedState (nodeNames (Z.to_nat 3)) st.
Proof.
  split; [reflexivity|]. split; [exact scenarioTyped_sensible|].
  split; [reflexivity|].
  exact (sensible_form_starts_a_converging_session scenarioTyped
           (Setup.mkForm (Some 3) scenario 1) 3 eq_refl scenarioTyped_sensible
           eq_refl).
Defined.

(** X4. The initialisation phase of [updateRoutingTables], not paused, on
    any tables of the right shape: every pair joined by a link ends with
    the weight of the link and the neighbour as next hop, whatever the
    entry held before, and every other entry is left as it was. The phase
    leaves [hasChanges] set and runs no pass. *)
Theorem init_phase_writes_the_links ids links shown nodes :
  linked ids links -> shaped ids nodes ->
  ∃ s, initPhase nodes links shown [] = Done s ∧
       (∀ n d w, adj links n d w -> lineOf (newNodes s) n d = (w, d)) ∧
       (∀ n d, (∀ w, ¬ adj links n d w) ->
               lineOf (newNodes s) n d = lineOf nodes n d) ∧
       hasChanges s = true ∧ passLog s = [].
Proof.
  intros Hlk Hsh.
  destruct (init_rerun ids links shown nodes Hlk Hsh)
    as (s & Hrun & _ & _ & Hc & Hlog & Hadj & Hno & _).
  exists s. split; [done|]. unfold lineOf. split; [|split; [|done]].
  - intros n d w Ha. by destruct (Hadj n d w Ha) as [-> ->].
  - intros n d H. by destruct (Hno n d H) as [-> ->].
Qed.

Lemma init_phase_writes_the_links_witness :
  linked (nodeNames 3) (newLinks 3 scenario) ∧
  shaped (nodeNames 3) (Network.nodes scenarioDone) ∧
  ∃ s, initPhase (Network.nodes scenarioDone) (newLinks 3 scenario) [] [] = Done s ∧
       (∀ n d w, adj (newLinks 3 scenario) n d w -> lineOf (newNodes s) n d = (w, d)) ∧
       (∀ n d, (∀ w, ¬ adj (newLinks 3 scenario) n d w) ->
               lineOf (newNodes s) n d = lineOf (Network.nodes scenarioDone) n d) ∧
       hasChanges s = true ∧ passLog s = [].
Proof.
  split; [exact scenario_linked|].
  split; [exact (proj1 scenarioDone_tables)|].
  exact (init_phase_writes_the_links (nodeNames 3) (newLinks 3 scenario) []
           (Network.nodes scenarioDone) scenario_linked (proj1 scenarioDone_tables)).
Defined.

(** X5. The stop test of the relaxation loop is exact. On tables whose
    distances are weights of walks and that already match every direct
    link, a pass that is not paused ends with [hasChanges] unset exactly
    when the tables had converged, and it then leaves every distance and
    next hop as it was. *)
Theorem quiet_pass_iff_converged ids links r :
  linked ids links -> positive links ->
  shaped ids (newNodes r) -> realizable ids links (newNodes r) ->
  within 1 ids links (newNodes r) -> pauseRef r = [] ->
  ∃ r', onePass links ids (withChanges r false) = Done r' ∧
        (hasChanges r' = false ↔ complete ids links (newNodes r)) ∧
        (hasChanges r' = false ->
         ∀ a c, lineOf (newNodes r') a c = lineOf (newNodes r) a c).
Proof.
  intros Hlk Hp Hsh Hr Hw Hq.
  destruct (onePass_evolves ids links (withChanges r false) Hsh Hlk)
    as (r' & Hrun & _ & _ & _ & _ & _ & Hsame & _).
  exists r'. split; [done|]. split; [split|].
  - intros Hc. destruct (Hsame Hc) as [Hd _].
    apply (complete_same ids links (newNodes r')); [by intros a c; rewrite Hd|].
    by apply (quiet_pass_complete ids links 1 (withChanges r false) r').
  - intros Hc.
    destruct (onePass_converged ids links (withChanges r false) Hlk Hp)
      as (r2 & Hrun2 & Hq2 & _); try done.
    rewrite Hrun in Hrun2. by injection Hrun2 as <-.
  - intros Hc a c. destruct (Hsame Hc) as [Hd Hh]. unfold lineOf.
    by rewrite Hd, Hh.
Qed.

Lemma quiet_pass_iff_converged_witness :
  linked (nodeNames 3) (newLinks 3 scenario) ∧
  positive (newLinks 3 scenario) ∧
  (let r := mkRun (Network.nodes scenarioDone) true [] [] [] in
   shaped (nodeNames 3) (newNodes r) ∧
   realizable (nodeNames 3) (newLinks 3 scenario) (newNodes r) ∧
   within 1 (nodeNames 3) (newLinks 3 scenario) (newNodes r) ∧
   pauseRef r = [] ∧
   ∃ r', onePass (newLinks 3 scenario) (nodeNames 3) (withChanges r false) = Done r' ∧
         (hasChanges r' = false ↔
          complete (nodeNames 3) (newLinks 3 scenario) (newNodes r)) ∧
         (hasChanges r' = false ->
          ∀ a c, lineOf (newNodes r') a c = lineOf (newNodes r) a c)).
Proof.
  split; [exact scenario_linked|]. split; [exact scenario_positive|].
  split; [exact (proj1 scenarioDone_tables)|].
  split; [exact (proj1 (proj2 scenarioDone_tables))|].
  split; [exact (complete_within 1 _ _ _ (proj2 (proj2 scenarioDone_tables)))|].
  split; [reflexivity|].
  exact (quiet_pass_iff_converged (nodeNames 3) (newLinks 3 scenario)
           (mkRun (Network.nodes scenarioDone) true [] [] [])
           scenario_linked scenario_positive
           (proj1 scenarioDone_tables) (proj1 (proj2 scenarioDone_tables))
           (complete_within 1 _ _ _ (proj2 (proj2 scenarioDone_tables)))
           eq_refl).
Defined.

(** X6. In a valid session with weights below the sentinel, the run that
    is not paused never stops because the budget of [N - 1] passes is
    used up: it executes at least one pass and at most [N - 1], every pass
    but the last ends with [hasChanges] set, the last one with [hasChanges]
    unset, and the tables it leaves have converged on the links of the
    session, which are also the links it publishes. *)
Theorem unpaused_session_ends_on_a_quiet_pass nodeCount distances :
  validSession nodeCount distances ->
  weightsBelowSentinel nodeCount distances ->
  let N := Z.to_nat nodeCount in
  ∃ r p, converge (newNodesOf N) (newLinks N distances) (newLinks N distances) []
         = Done (r, p) ∧
         last (passLog r) = Some false ∧
         stopsAtFirstQuiet (passLog r) ∧
         (1 <= length (passLog r) <= N - 1)%nat ∧
         p = 1 + Z.of_nat (length (passLog r)) ∧
         converged (nodeNames N) (newLinks N distances) (newNodes r) ∧
         stateLinks r = newLinks N distances.
Proof.
  intros Hvalid Hweights N.
  destruct (session_converged _ _ Hvalid Hweights)
    as (r & p & st & Hrun & Hst & Hnodes & Hlinks & _ & Hlast & Hconv).
  fold N in Hrun, Hlinks, Hconv.
  destruct (session_wellformed _ _ Hvalid) as [Hlk _]. fold N in Hlk.
  destruct (converge_any (nodeNames N) (newLinks N distances) (newLinks N distances)
              (newNodesOf N) [] Hlk (newNodesOf_shaped N))
    as (r2 & p2 & Hrun2 & _ & Hp & Hlen & Hstop & _).
  rewrite Hrun in Hrun2. injection Hrun2 as <- <-.
  rewrite length_newNodesOf in Hlen.
  exists r, p. split; [done|]. split; [done|]. split; [done|]. split.
  { destruct (passLog r); [done|]. simpl in *. lia. }
  split; [done|].
  rewrite runSession_unfold in Hst. fold N in Hst. rewrite Hrun in Hst.
  injection Hst as <-. simpl in *. split; [|done].
  destruct Hconv as ((_ & _ & _ & _ & _ & Hsh & Hr) & Hc).
  rewrite Hlinks in Hr, Hc. split; [done|]. split; done.
Qed.

Lemma unpaused_session_ends_on_a_quiet_pass_witness :
  validSession 3 scenario ∧ weightsBelowSentinel 3 scenario ∧
  ∃ r p, converge (newNodesOf 3) (newLinks 3 scenario) (newLinks 3 scenario) []
         = Done (r, p) ∧
         last (passLog r) = Some false ∧
         stopsAtFirstQuiet (passLog r) ∧
         (1 <= length (passLog r) <= 3 - 1)%nat ∧
         p = 1 + Z.of_nat (length (passLog r)) ∧
         converged (nodeNames 3) (newLinks 3 scenario) (newNodes r) ∧
         stateLinks r = newLinks 3 scenario.
Proof.
  split; [exact scenario_valid|]. split; [exact scenario_weights|].
  exact (unpaused_session_ends_on_a_quiet_pass 3 scenario
           scenario_valid scenario_weights).
Defined.

(** X7. Converged tables are symmetric: the distance stored at [n] for [d]
    is the distance stored at [d] for [n]. *)
Theorem converged_tables_are_symmetric ids links nodes n d :
  converged ids links nodes -> n ∈ ids -> d ∈ ids ->
  dist nodes n d = dist nodes d n.
Proof.
  intros Hconv Hn Hd. destruct (decide (n = d)) as [->|Hne]; [done|].
  pose proof (converged_symmetric_le ids links nodes n d Hconv Hn Hd Hne).
  assert (Hne' : d ≠ n) by done.
  pose proof (converged_symmetric_le ids links nodes d n Hconv Hd Hn Hne').
  lia.
Qed.

Lemma converged_tables_are_symmetric_witness :
  converged (nodeNames 3) (newLinks 3 scenario) (Network.nodes scenarioDone) ∧
  "A" ∈ nodeNames 3 ∧ "C" ∈ nodeNames 3 ∧
  dist (Network.nodes scenarioDone) "A" "C" = dist (Network.nodes scenarioDone) "C" "A".
Proof.
  split; [exact scenarioDone_tables|].
  split; [exact A_in_scenario|]. split; [exact C_in_scenario|].
  exact (converged_tables_are_symmetric (nodeNames 3) (newLinks 3 scenario)
           (Network.nodes scenarioDone) "A" "C" scenarioDone_tables
           A_in_scenario C_in_scenario).
Defined.

(** X8. Converged tables satisfy the distance-vector equation: no
    neighbour offers a pair a distance below the sentinel that is less than
    the stored one, and every stored distance below the sentinel is the
    weight of a link to a neighbour plus the distance stored at that
    neighbour (0 when the neighbour is the destination). *)
Theorem converged_tables_satisfy_the_equation ids links nodes n d :
  linked ids links -> positive links -> converged ids links nodes ->
  n ∈ ids -> d ∈ ids -> n ≠ d ->
  (∀ h w, adj links n h w -> w + dist0 nodes h d < INFINITY ->
          dist nodes n d <= w + dist0 nodes h d) ∧
  (dist nodes n d < INFINITY ->
   ∃ h w, adj links n h w ∧ dist nodes n d = w + dist0 nodes h d).
Proof.
  intros Hlk Hp Hconv Hn Hd Hne. split.
  - intros h w. by apply (converged_offer ids links).
  - intros Hfin. pose proof Hconv as (_ & Hr & Hc).
    destruct (Hr n d Hn Hd Hne) as [Hi|(Hb & vs & Hvs)]; [lia|].
    inversion Hvs as [|a h vs' c w W' Ha Hr' E1 E2 E3 E4]; subst; [done|].
    exists h, w. split; [done|].
    pose proof (adj_positive links Hp _ _ _ Ha) as Hw.
    pose proof (route_nonneg links Hp _ _ _ _ Hr') as HW.
    destruct (adj_ids ids links Hlk _ _ _ Ha) as (_ & Hh & _).
    assert (Hle : dist0 nodes h d <= W').
    { unfold dist0. destruct (bool_decide (h = d)) eqn:E; [done|].
      apply bool_decide_eq_false in E. apply (Hc h d vs'); try done. lia. }
    pose proof (converged_offer ids links nodes n d h w Hlk Hp Hconv Hn Hd Hne Ha).
    lia.
Qed.

Lemma converged_tables_satisfy_the_equation_witness :
  linked (nodeNames 3) (newLinks 3 scenario) ∧
  positive (newLinks 3 scenario) ∧
  converged (nodeNames 3) (newLinks 3 scenario) (Network.nodes scenarioDone) ∧
  "A" ∈ nodeNames 3 ∧ "C" ∈ nodeNames 3 ∧ "A" ≠ "C" ∧
  (∀ h w, adj (newLinks 3 scenario) "A" h w ->
          w + dist0 (Network.nodes scenarioDone) h "C" < INFINITY ->
          dist (Network.nodes scenarioDone) "A" "C"
          <= w + dist0 (Network.nodes scenarioDone) h "C") ∧
  (dist (Network.nodes scenarioDone) "A" "C" < INFINITY ->
   ∃ h w, adj (newLinks 3 scenario) "A" h w ∧
          dist (Network.nodes scenarioDone) "A" "C"
          = w + dist0 (Network.nodes scenarioDone) h "C").
Proof.
  split; [exact scenario_linked|]. split; [exact scenario_positive|].
  split; [exact scenarioDone_tables|].
  split; [exact A_in_scenario|]. split; [exact C_in_scenario|].
  split; [done|].
  exact (converged_tables_satisfy_the_equation (nodeNames 3) (newLinks 3 scenario)
           (Network.nodes scenarioDone) "A" "C" scenario_linked scenario_positive
           scenarioDone_tables A_in_scenario C_in_scenario ltac:(done)).
Defined.

(** X9. An accepted [handleWeightChange] on an idle simulation with
    converged tables, its run not paused: the run completes, the edit box
    holds [max 1 (editWeight + change)], and nothing else has moved, since
    the links are those of before the edit, every distance is the one of
    before, and the simulation is idle and converged again. *)
Theorem edit_moves_only_the_edit_box ids st sel ew change :
  convergedState ids st ->
  Network.selectedLink st = Some sel -> Network.editWeight st = Some ew ->
  ∃ st', handleWeightChange change st [] = Done st' ∧
         Network.editWeight st' = Some (Z.max 1 (ew + change)) ∧
         1 <= Z.max 1 (ew + change) ∧
         Network.links st' = Network.links st ∧
         (∀ a c, dist (Network.nodes st') a c = dist (Network.nodes st) a c) ∧
         convergedState ids st'.
Proof.
  intros Hconv Hsel Hew.
  destruct (edit_run ids st sel ew change Hconv Hsel Hew)
    as (st' & Hrun & _ & Hew' & Hl & Hd & Hconv').
  exists st'. split; [done|]. split; [done|]. split; [lia|]. done.
Qed.

Lemma edit_moves_only_the_edit_box_witness :
  let l := {| from := "A"; to := "B"; weight := 2 |} in
  let st := handleLinkClick l scenarioDone in
  convergedState (nodeNames 3) st ∧
  Network.selectedLink st = Some l ∧ Network.editWeight st = Some 2 ∧
  ∃ st', handleWeightChange (-1) st [] = Done st' ∧
         Network.editWeight st' = Some (Z.max 1 (2 + -1)) ∧
         1 <= Z.max 1 (2 + -1) ∧
         Network.links st' = Network.links st ∧
         (∀ a c, dist (Network.nodes st') a c = dist (Network.nodes st) a c) ∧
         convergedState (nodeNames 3) st'.
Proof.
  intros l st.
  split; [exact (handleLinkClick_converged (nodeNames 3) l scenarioDone
                   scenarioDone_converged)|].
  split; [reflexivity|]. split; [reflexivity|].
  exact (edit_moves_only_the_edit_box (nodeNames 3) st l 2 (-1)
           (handleLinkClick_converged (nodeNames 3) l scenarioDone
              scenarioDone_converged) eq_refl eq_refl).
Defined.

(** X10. Clicking a link of an idle, converged simulation and then "+"
    [k] times, each run not paused and left to finish: the edit box ends
    at the weight of the link plus [k], while the links and every distance
    are those of before the first click. *)
Theorem plus_clicks_only_move_the_edit_box ids st l k :
  convergedState ids st -> l ∈ Network.links st ->
  ∃ st', pressPlus k (handleLinkClick l st) = Done st' ∧
         Network.editWeight st' = Some (weight l + Z.of_nat k) ∧
         Network.links st' = Network.links st ∧
         (∀ a c, dist (Network.nodes st') a c = dist (Network.nodes st) a c) ∧
         convergedState ids st'.
Proof.
  intros Hconv Hin.
  pose proof Hconv as ((Hidle & _ & _ & Hp & _) & _).
  destruct (pressPlus_run ids k (handleLinkClick l st) l (weight l))
    as (st' & Hrun & Hew & Hl & Hd & Hconv').
  - by apply handleLinkClick_converged.
  - unfold handleLinkClick. by rewrite Hidle.
  - unfold handleLinkClick. by rewrite Hidle.
  - by apply Hp.
  - exists st'. split; [done|]. split; [done|].
    unfold handleLinkClick in Hl, Hd. rewrite Hidle in Hl, Hd. done.
Qed.

Lemma plus_clicks_only_move_the_edit_box_witness :
  let l := {| from := "A"; to := "B"; weight := 2 |} in
  convergedState (nodeNames 3) scenarioDone ∧ l ∈ Network.links scenarioDone ∧
  ∃ st', pressPlus 8 (handleLinkClick l scenarioDone) = Done st' ∧
         Network.editWeight st' = Some (weight l + Z.of_nat 8) ∧
         Network.links st' = Network.links scenarioDone ∧
         (∀ a c, dist (Network.nodes st') a c
                 = dist (Network.nodes scenarioDone) a c) ∧
         convergedState (nodeNames 3) st'.
Proof.
  intros l. split; [exact scenarioDone_converged|].
  split; [exact scenarioDone_AB|].
  exact (plus_clicks_only_move_the_edit_box (nodeNames 3) scenarioDone l 8
           scenarioDone_converged scenarioDone_AB).
Defined.

(** X11. [restartSimulation] on an idle simulation whose stored distances
    are weights of walks, its run not paused: the run completes on the
    tables and links of the render in which the button was pressed, not on
    the reset tables it queued; it ends idle with converged tables, the
    same links, no selected link and the pause cleared, and when the
    tables had already converged every distance is the one of before. *)
Theorem restart_recomputes_the_tables ids st :
  readyState ids st ->
  ∃ st', restartSimulation st [] = Done st' ∧
         updateRoutingTables st (restartQueued st) [] = Done st' ∧
         convergedState ids st' ∧
         Network.links st' = Network.links st ∧
         Network.selectedLink st' = None ∧
         Network.isPaused st' = false ∧
         (complete ids (Network.links st) (Network.nodes st) ->
          ∀ a c, dist (Network.nodes st') a c = dist (Network.nodes st) a c).
Proof.
  intros Hready.
  destruct (restart_run ids st Hready) as (st' & Hrun & Hl & Hsel & Hpause & Hconv).
  exists st'. split; [done|]. split.
  { revert Hrun. unfold restartSimulation. by destruct Hready as (-> & _). }
  split; [done|]. split; [done|]. split; [done|]. split; [done|].
  intros Hc. destruct Hready as (_ & _ & _ & _ & _ & Hsh & Hr).
  destruct Hconv as ((_ & _ & _ & _ & _ & Hsh' & Hr') & Hc').
  rewrite Hl in Hr', Hc'.
  apply (converged_unique ids (Network.links st)); (split; [done|split; done]).
Qed.

Lemma restart_recomputes_the_tables_witness :
  readyState (nodeNames 3) scenarioDone ∧
  ∃ st', restartSimulation scenarioDone [] = Done st' ∧
         updateRoutingTables scenarioDone (restartQueued scenarioDone) [] = Done st' ∧
         convergedState (nodeNames 3) st' ∧
         Network.links st' = Network.links scenarioDone ∧
         Network.selectedLink st' = None ∧
         Network.isPaused st' = false ∧
         (complete (nodeNames 3) (Network.links scenarioDone)
                   (Network.nodes scenarioDone) ->
          ∀ a c, dist (Network.nodes st') a c
                 = dist (Network.nodes scenarioDone) a c).
Proof.
  split; [exact (proj1 scenarioDone_converged)|].
  exact (restart_recomputes_the_tables (nodeNames 3) scenarioDone
           (proj1 scenarioDone_converged)).
Defined.

(** X12. A restart repairs what pauses made a run skip. In a valid session
    with weights below the sentinel, whatever the pause schedule of the
    first run, [restartSimulation] after it, not paused, ends with
    converged tables that hold the distances of the session run without
    any pause. *)
Theorem restart_repairs_a_paused_run nodeCount distances pauses :
  validSession nodeCount distances ->
  weightsBelowSentinel nodeCount distances ->
  ∃ st st' st0,
    runSession nodeCount distances pauses = Done st ∧
    restartSimulation (afterComplete st) [] = Done st' ∧
    runSession nodeCount distances [] = Done st0 ∧
    convergedState (nodeNames (Z.to_nat nodeCount)) st' ∧
    Network.links st' = newLinks (Z.to_nat nodeCount) distances ∧
    ∀ a c, dist (Network.nodes st') a c = dist (Network.nodes st0) a c.
Proof.
  intros Hvalid Hweights.
  destruct (session_wellformed _ _ Hvalid) as [Hlk Hp].
  pose proof (session_below _ _ Hweights) as Hb.
  destruct (session_converged _ _ Hvalid Hweights)
    as (r0 & p0 & st0 & _ & Hst0 & _ & Hl0 & _ & _ & Hconv0).
  set (N := Z.to_nat nodeCount) in *.
  destruct (converge_any (nodeNames N) (newLinks N distances) (newLinks N distances)
              (newNodesOf N) pauses Hlk (newNodesOf_shaped N))
    as (r & p & Hrun & Hsh & _ & _ & _ & _ & Hsound).
  destruct (converge_kept _ _ _ _ _ _ Hrun (newNodesOf_calm N)) as [_ Hsl].
  specialize (Hsl eq_refl).
  specialize (Hsound Hp Hb (newNodesOf_fresh N)).
  assert (Hst : runSession nodeCount distances pauses =
                Done (Network.mkState false (newNodes r) (newLinks N distances)
                        None None false false 0 "Simulation complete")).
  { rewrite runSession_unfold. fold N. rewrite Hrun. simpl. by rewrite Hsl. }
  assert (Hready : readyState (nodeNames N)
                     (afterComplete
                        (Network.mkState false (newNodes r) (newLinks N distances)
                           None None false false 0 "Simulation complete"))).
  { split; [done|]. destruct Hvalid as (Hn & _).
    split; [rewrite length_nodeNames; lia|].
    split; [done|]. split; [done|]. split; [done|]. simpl.
    split; [by apply shaped_mapTables|].
    apply (realizable_same _ _ (newNodes r)); [by apply dist_mapTables|].
    by apply sound_realizable. }
  destruct (restart_run _ _ Hready) as (st' & Hrun' & Hl' & _ & _ & Hconv').
  eexists. exists st', st0. split; [exact Hst|]. split; [exact Hrun'|].
  split; [done|]. split; [done|]. simpl in Hl'. split; [done|].
  destruct Hconv' as ((_ & _ & _ & _ & _ & Hsh' & Hr') & Hc').
  destruct Hconv0 as ((_ & _ & _ & _ & _ & Hsh0 & Hr0) & Hc0).
  rewrite Hl' in Hr', Hc'. rewrite Hl0 in Hr0, Hc0.
  apply (converged_unique (nodeNames N) (newLinks N distances));
    (split; [done|split; done]).
Qed.

Lemma restart_repairs_a_paused_run_witness :
  validSession 3 scenario ∧ weightsBelowSentinel 3 scenario ∧
  ∃ st st' st0,
    runSession 3 scenario [true; false; true; true] = Done st ∧
    restartSimulation (afterComplete st) [] = Done st' ∧
    runSession 3 scenario [] = Done st0 ∧
    convergedState (nodeNames (Z.to_nat 3)) st' ∧
    Network.links st' = newLinks (Z.to_nat 3) scenario ∧
    ∀ a c, dist (Network.nodes st') a c = dist (Network.nodes st0) a c.
Proof.
  split; [exact scenario_valid|]. split; [exact scenario_weights|].
  exact (restart_repairs_a_paused_run 3 scenario [true; false; true; true]
           scenario_valid scenario_weights).
Defined.

(** X13. Whatever the pause schedule, a run of [updateRoutingTables] on
    well-formed tables in which no entry is marked as being processed
    completes and leaves none marked: no row of [renderRoutingTables]
    shows the dots, each shows its stored distance (the infinity sign for
    the sentinel) and its stored next hop. When the component state held
    the links of the render, these are the links after the run. *)
Theorem finished_run_shows_no_dots ids render current pauses :
  Network.isProcessing render = false ->
  shaped ids (Network.nodes render) -> linked ids (Network.links render) ->
  calm (Network.nodes render) ->
  ∃ st, updateRoutingTables render current pauses = Done st ∧
        calm (Network.nodes st) ∧
        (∀ n d, n ∈ ids -> d ∈ ids -> n ≠ d ->
                rowOf (Network.nodes st) n d =
                Some (if dist (Network.nodes st) n d =? INFINITY then Infinite
                      else Number (dist (Network.nodes st) n d),
                      hop (Network.nodes st) n d)) ∧
        (Network.links current = Network.links render ->
         Network.links st = Network.links render).
Proof.
  intros Hidle Hsh Hlk Hcalm.
  destruct (converge_any ids (Network.links render) (Network.links current)
              (Network.nodes render) pauses Hlk Hsh)
    as (r & p & Hrun & Hsh' & _).
  destruct (converge_kept _ _ _ _ _ _ Hrun Hcalm) as [Hcalm' Hsl].
  eexists. split.
  { unfold updateRoutingTables. rewrite Hidle, Hrun. reflexivity. }
  simpl. split; [done|]. split; [|done].
  intros n d Hn Hd Hne.
  destruct (proj2 (proj2 Hsh' n d)) as [e He]; [done|].
  rewrite (rowOf_calm _ _ _ e Hcalm' He). unfold dist, hop. by rewrite He.
Qed.

Lemma finished_run_shows_no_dots_witness :
  let st := handleSetupComplete 3 scenario initialState in
  Network.isProcessing st = false ∧
  shaped (nodeNames 3) (Network.nodes st) ∧ linked (nodeNames 3) (Network.links st) ∧
  calm (Network.nodes st) ∧
  ∃ st', updateRoutingTables st st [true; false; true] = Done st' ∧
         calm (Network.nodes st') ∧
         (∀ n d, n ∈ nodeNames 3 -> d ∈ nodeNames 3 -> n ≠ d ->
                 rowOf (Network.nodes st') n d =
                 Some (if dist (Network.nodes st') n d =? INFINITY then Infinite
                       else Number (dist (Network.nodes st') n d),
                       hop (Network.nodes st') n d)) ∧
         (Network.links st = Network.links st ->
          Network.links st' = Network.links st).
Proof.
  intros st. split; [reflexivity|].
  split; [exact (newNodesOf_shaped 3)|]. split; [exact scenario_linked|].
  split; [exact (newNodesOf_calm 3)|].
  exact (finished_run_shows_no_dots (nodeNames 3) st st [true; false; true]
           eq_refl (newNodesOf_shaped 3) scenario_linked (newNodesOf_calm 3)).
Defined.

(** X14. What the page shows after the run of a valid session that is not
    paused, with weights and shortest distances below the sentinel: the
    row of every connected pair shows the length of a shortest walk and a
    neighbour as next hop, and the row of every pair without a walk shows
    the infinity sign and the dash. *)
Theorem converged_session_display nodeCount distances :
  validSession nodeCount distances ->
  weightsBelowSentinel nodeCount distances ->
  distancesBelowSentinel (nodeNames (Z.to_nat nodeCount))
                         (newLinks (Z.to_nat nodeCount) distances) ->
  let ids := nodeNames (Z.to_nat nodeCount) in
  let links := newLinks (Z.to_nat nodeCount) distances in
  ∃ st, runSession nodeCount distances [] = Done st ∧
        ∀ n d, n ∈ ids -> d ∈ ids -> n ≠ d ->
               (reachable links n d ->
                ∃ D h w, rowOf (Network.nodes st) n d = Some (Number D, h) ∧
                         shortest links n d D ∧ adj links n h w) ∧
               (¬ reachable links n d ->
                rowOf (Network.nodes st) n d = Some (Infinite, "-")).
Proof.
  intros Hvalid Hweights Hshort ids links.
  destruct (session_wellformed _ _ Hvalid) as [Hlk Hp].
  pose proof (session_below _ _ Hweights) as Hb.
  set (N := Z.to_nat nodeCount) in *.
  destruct (converge_quiet ids links links (newNodesOf N) Hlk Hp Hb
              (newNodesOf_shaped N) (newNodesOf_fresh N))
    as (r & p & Hrun & Hsh & Hs & Hc).
  destruct (converge_kept _ _ _ _ _ _ Hrun (newNodesOf_calm N)) as [Hcalm _].
  eexists. split.
  { rewrite runSession_unfold. fold N. fold links. rewrite Hrun. reflexivity. }
  simpl. intros n d Hn Hd Hne.
  destruct (proj2 (proj2 Hsh n d)) as [e He]; [done|].
  rewrite (rowOf_calm _ _ _ e Hcalm He).
  assert (Hdist : dist (newNodes r) n d = distance e)
    by (unfold dist; by rewrite He).
  assert (Hhop : hop (newNodes r) n d = nextHop e)
    by (unfold hop; by rewrite He).
  destruct (sound_complete_shortest ids links (newNodes r) n d
              Hsh Hlk Hp Hs Hc Hn Hd Hne) as [Hyes Hno].
  rewrite <- Hdist, <- Hhop. split.
  - intros Hreach. destruct (Hshort n d Hn Hd Hreach) as (vs & W & Hvs & HW).
    destruct Hyes as [Hsp (w & Ha & _)]; [by exists vs, W|].
    exists (dist (newNodes r) n d), (hop (newNodes r) n d), w.
    split; [|done]. destruct Hsp as [_ Hmin]. specialize (Hmin vs W Hvs).
    destruct (dist (newNodes r) n d =? INFINITY) eqn:E; [|done].
    apply Z.eqb_eq in E. lia.
  - intros Hnone. destruct (Hno Hnone) as [-> ->]. done.
Qed.

Lemma converged_session_display_witness :
  validSession 3 scenario ∧ weightsBelowSentinel 3 scenario ∧
  distancesBelowSentinel (nodeNames (Z.to_nat 3)) (newLinks (Z.to_nat 3) scenario) ∧
  ∃ st, runSession 3 scenario [] = Done st ∧
        ∀ n d, n ∈ nodeNames (Z.to_nat 3) -> d ∈ nodeNames (Z.to_nat 3) -> n ≠ d ->
               (reachable (newLinks (Z.to_nat 3) scenario) n d ->
                ∃ D h w, rowOf (Network.nodes st) n d = Some (Number D, h) ∧
                         shortest (newLinks (Z.to_nat 3) scenario) n d D ∧
                         adj (newLinks (Z.to_nat 3) scenario) n h w) ∧
               (¬ reachable (newLinks (Z.to_nat 3) scenario) n d ->
                rowOf (Network.nodes st) n d = Some (Infinite, "-")).
Proof.
  split; [exact scenario_valid|]. split; [exact scenario_weights|].
  split; [exact scenario_distances|].
  exact (converged_session_display 3 scenario scenario_valid scenario_weights
           scenario_distances).
Defined.


(** X16. Pauses only ever make a run miss improvements. In a valid session
    with weights below the sentinel, whatever the pause schedule, the run
    completes, every distance it leaves below the sentinel is the weight
    of a walk between the two nodes, and no distance it leaves is below
    the one the run without pauses leaves. *)
Theorem paused_run_never_undercuts nodeCount distances pauses :
  validSession nodeCount distances ->
  weightsBelowSentinel nodeCount distances ->
  let ids := nodeNames (Z.to_nat nodeCount) in
  let links := newLinks (Z.to_nat nodeCount) distances in
  ∃ st st0,
    runSession nodeCount distances pauses = Done st ∧
    runSession nodeCount distances [] = Done st0 ∧
    realizable ids links (Network.nodes st) ∧
    ∀ n d, dist (Network.nodes st0) n d <= dist (Network.nodes st) n d.
Proof.
  intros Hvalid Hweights ids links.
  destruct (session_wellformed _ _ Hvalid) as [Hlk Hp].
  pose proof (session_below _ _ Hweights) as Hb.
  destruct (session_converged _ _ Hvalid Hweights)
    as (r0 & p0 & st0 & _ & Hst0 & _ & Hl0 & _ & _ & Hconv0).
  set (N := Z.to_nat nodeCount) in *.
  destruct (converge_any ids links links (newNodesOf N) pauses Hlk
              (newNodesOf_shaped N))
    as (r & p & Hrun & Hsh & _ & _ & _ & _ & Hsound).
  specialize (Hsound Hp Hb (newNodesOf_fresh N)).
  pose proof (sound_realizable _ _ _ Hsound) as Hr.
  eexists. exists st0. split.
  { rewrite runSession_unfold. fold N. fold links. rewrite Hrun. reflexivity. }
  split; [done|]. simpl. split; [done|].
  destruct Hconv0 as ((_ & _ & _ & _ & _ & Hsh0 & Hr0) & Hc0).
  rewrite Hl0 in Hr0, Hc0. fold links in Hr0, Hc0. fold ids in Hsh0, Hr0, Hc0.
  intros n d.
  destruct (decide (n ∈ ids ∧ d ∈ ids ∧ n ≠ d)) as [(Hn & Hd & Hne)|Hno].
  - destruct (Hr n d Hn Hd Hne) as [->|(Hbd & vs & Hvs)].
    + by apply (realizable_bounds ids links).
    + apply (Hc0 n d vs); try done. lia.
  - destruct (decide (dist (newNodes r) n d = INFINITY)) as [E|E];
      [|by destruct Hno; apply (dist_finite ids (newNodes r))].
    destruct (decide (dist (Network.nodes st0) n d = INFINITY)) as [E0|E0];
      [lia|by destruct Hno; apply (dist_finite ids (Network.nodes st0))].
Qed.

Lemma paused_run_never_undercuts_witness :
  validSession 3 scenario ∧ weightsBelowSentinel 3 scenario ∧
  ∃ st st0,
    runSession 3 scenario [false; false; true; true; true] = Done st ∧
    runSession 3 scenario [] = Done st0 ∧
    realizable (nodeNames (Z.to_nat 3)) (newLinks (Z.to_nat 3) scenario)
               (Network.nodes st) ∧
    ∀ n d, dist (Network.nodes st0) n d <= dist (Network.nodes st) n d.
Proof.
  split; [exact scenario_valid|]. split; [exact scenario_weights|].
  exact (paused_run_never_undercuts 3 scenario [false; false; true; true; true]
           scenario_valid scenario_weights).
Defined.



(** X18. What a relaxation step leaves in the entry it works on: the
    entry is no longer marked as being processed and is marked calculated,
    its distance is not above the one before, it is highlighted as new
    exactly when the distance went down, and when it is not its next hop
    is the one of before. No other entry of any table is touched. *)
Theorem relaxStep_marks_what_it_improves ids links n d r :
  shaped ids (newNodes r) -> linked ids links ->
  n ∈ ids -> d ∈ ids -> n ≠ d ->
  ∃ r' e e', relaxStep links n d r = Done r' ∧
             entryOf (newNodes r) n d = Some e ∧
             entryOf (newNodes r') n d = Some e' ∧
             distance e' <= distance e ∧
             (isNew e' = true ↔ distance e' < distance e) ∧
             (isNew e' = false -> nextHop e' = nextHop e) ∧
             isProcessing e' = false ∧ calculated e' = true ∧
             ∀ m k, ¬ (m = n ∧ k = d) ->
                    entryOf (newNodes r') m k = entryOf (newNodes r) m k.
Proof.
  intros Hsh Hlk Hn Hd Hne.
  destruct (relaxStep_entry ids links n d r Hsh Hlk Hn Hd Hne)
    as (r' & cur & Hrun & Hcur & Hent).
  destruct (scan_facts (newNodes r) n d links
              {| minDistance := dist (newNodes r) n d;
                 bestHop := hop (newNodes r) n d;
                 changed := hasChanges r |}) as (Hle & _ & Hcase).
  fold (relaxBest links (newNodes r) n d (hasChanges r)) in Hle, Hcase, Hent.
  set (b := relaxBest links (newNodes r) n d (hasChanges r)) in *.
  simpl in Hle, Hcase. unfold dist, hop in Hle, Hcase.
  rewrite Hcur in Hle, Hcase. simpl in Hle, Hcase.
  exists r', cur. eexists. split; [done|]. split; [done|]. split.
  { rewrite Hent, bool_decide_eq_true_2 by done. reflexivity. }
  simpl. split; [done|]. split; [|split; [|split; [done|split; [done|]]]].
  - rewrite negb_true_iff, Z.eqb_neq. lia.
  - rewrite negb_false_iff, Z.eqb_eq. intros Heq.
    destruct Hcase as [->|(_ & Hlt & _)]; [done|lia].
  - intros m k Hmk. by rewrite Hent, bool_decide_eq_false_2.
Qed.

Lemma relaxStep_marks_what_it_improves_witness :
  let r := mkRun (Network.nodes scenarioDone) false [] [] [] in
  shaped (nodeNames 3) (newNodes r) ∧ linked (nodeNames 3) (newLinks 3 scenario) ∧
  "A" ∈ nodeNames 3 ∧ "C" ∈ nodeNames 3 ∧ "A" ≠ "C" ∧
  ∃ r' e e', relaxStep (newLinks 3 scenario) "A" "C" r = Done r' ∧
             entryOf (newNodes r) "A" "C" = Some e ∧
             entryOf (newNodes r') "A" "C" = Some e' ∧
             distance e' <= distance e ∧
             (isNew e' = true ↔ distance e' < distance e) ∧
             (isNew e' = false -> nextHop e' = nextHop e) ∧
             isProcessing e' = false ∧ calculated e' = true ∧
             ∀ m k, ¬ (m = "A" ∧ k = "C") ->
                    entryOf (newNodes r') m k = entryOf (newNodes r) m k.
Proof.
  intros r. split; [exact (proj1 scenarioDone_tables)|].
  split; [exact scenario_linked|].
  split; [exact A_in_scenario|]. split; [exact C_in_scenario|]. split; [done|].
  exact (relaxStep_marks_what_it_improves (nodeNames 3) (newLinks 3 scenario)
           "A" "C" r (proj1 scenarioDone_tables) scenario_linked
           A_in_scenario C_in_scenario ltac:(done)).
Defined.

(** X19. A run during which the pause flag is found set at every loop
    head does no work at all: every link of the initialisation phase and
    every pair of the first pass is skipped, that pass therefore ends with
    [hasChanges] unset, and the run completes after it as 'Simulation
    complete' with the tables of the render and the links of the state
    untouched. *)
Theorem paused_at_every_head_does_nothing render current rest :
  Network.isProcessing render = false ->
  (2 <= length (Network.nodes render))%nat ->
  let N := length (Network.nodes render) in
  let pauses := repeat true (length (Network.links render) + N * N) ++ rest in
  converge (Network.nodes render) (Network.links render) (Network.links current)
           pauses
  = Done (mkRun (Network.nodes render) false rest [false] (Network.links current), 2)
  ∧ ∃ st, updateRoutingTables render current pauses = Done st ∧
          Network.nodes st = Network.nodes render ∧
          Network.links st = Network.links current ∧
          Network.isProcessing st = false ∧
          Network.currentNodeStatus st = "Simulation complete".
Proof.
  intros Hidle Hsize N pauses.
  assert (Hrun : converge (Network.nodes render) (Network.links render)
                   (Network.links current) pauses
                 = Done (mkRun (Network.nodes render) false rest [false]
                           (Network.links current), 2)).
  { unfold converge, initPhase, pauses.
    rewrite (forOf_paused (initStep (Network.links render)) (Network.links render)
               (initStep_paused (Network.links render)) _
               (repeat true (N * N) ++ rest))
      by (simpl; by rewrite repeat_app, <- app_assoc).
    cbn [mbind Outcome_bind]. fold N.
    destruct N as [|[|k]] eqn:EN; [lia|lia|].
    cbn [whileLoop]. cbn [hasChanges withPauses].
    replace (1 <=? Z.of_nat (S (S k)) - 1) with true
      by (symmetry; apply Z.leb_le; lia).
    cbn [andb].
    rewrite (onePass_paused _ _ _ rest)
      by (simpl; rewrite length_map; fold N; by rewrite EN).
    reflexivity. }
  split; [done|]. eexists. split.
  { unfold updateRoutingTables. rewrite Hidle, Hrun. reflexivity. }
  done.
Qed.

Lemma paused_at_every_head_does_nothing_witness :
  let st := handleSetupComplete 3 scenario initialState in
  Network.isProcessing st = false ∧
  (2 <= length (Network.nodes st))%nat ∧
  let N := length (Network.nodes st) in
  let pauses := repeat true (length (Network.links st) + N * N) ++ [false] in
  converge (Network.nodes st) (Network.links st) (Network.links st) pauses
  = Done (mkRun (Network.nodes st) false [false] [false] (Network.links st), 2)
  ∧ ∃ st', updateRoutingTables st st pauses = Done st' ∧
           Network.nodes st' = Network.nodes st ∧
           Network.links st' = Network.links st ∧
           Network.isProcessing st' = false ∧
           Network.currentNodeStatus st' = "Simulation complete".
Proof.
  intros st. split; [reflexivity|]. split; [simpl; lia|].
  exact (paused_at_every_head_does_nothing st st [false] eq_refl
           ltac:(simpl; lia)).
Defined.

(** X20. A link to a node that is not in the node array is treated
    differently by the two phases. The initialisation phase skips a link
    exactly when one of its ends is missing, and leaves the run as it was;
    the scan of a relaxation step throws exactly when the link is incident
    to the node it works on and its other end is missing. *)
Theorem missing_node_is_skipped_then_throws nodes n d l b :
  (initLink l nodes = None ↔
   findNode nodes (from l) = None ∨ findNode nodes (to l) = None) ∧
  (∀ links r, newNodes r = nodes -> pauseRef r = [] ->
              initLink l nodes = None -> initStep links l r = Done r) ∧
  (scanLink nodes n d l b = TypeError ↔
   ∃ h, neighborOf l n = Some h ∧ findNode nodes h = None).
Proof.
  split; [|split].
  - unfold initLink.
    destruct (findNode nodes (from l)), (findNode nodes (to l)); naive_solver.
  - intros links r <- Hq Hnone. unfold initStep.
    rewrite readPause_quiet by done. by rewrite Hnone.
  - unfold scanLink, neighborOf.
    destruct (bool_decide (from l = n)); simpl.
    + destruct (findNode nodes (to l)) as [x|] eqn:E; simpl.
      * split; [by destruct (_ <? _)|]. intros (h & [= <-] & H). congruence.
      * split; [|done]. intros _. by exists (to l).
    + destruct (bool_decide (to l = n)); simpl.
      * destruct (findNode nodes (from l)) as [x|] eqn:E; simpl.
        -- split; [by destruct (_ <? _)|]. intros (h & [= <-] & H). congruence.
        -- split; [|done]. intros _. by exists (from l).
      * split; [done|]. by intros (h & H & _).
Qed.
